(** * Circular singly-linked ring ([LinkedList<T>], src/LinkedList.h)

    A shallow embedding of the ring container and of the part of the
    console layer that drives it (src/main.cpp: [togglePauseById],
    [runOneTurn] and the split and merge options of [main]).

    - A [Node*] is an [option loc]: [None] is [nullptr], [Some l] the
      address of a node.  The free store is a finite map from addresses
      to nodes; [new] inserts, [delete] removes, and reading or writing
      through a pointer that is null or not live is undefined behaviour.
    - A [LinkedList<T>&] is the identity of a list object ([rid]); the
      objects live in a second finite map, so that two references may
      name the same object, exactly as in C++.
    - Member functions are computations in a small state-and-fault monad:
      they either return normally, propagate [std::bad_alloc] (only
      [new] raises it), or stop with a fault (undefined behaviour, a
      failed [assert], or the step budget of a [while] loop used up).
    - [sz_] is a [std::size_t]; it counts live nodes, each of which
      occupies at least two machine words, so its arithmetic never
      wraps.  It is modelled by [nat].
    - [NDEBUG] is a parameter: with [NDEBUG = false] the mutators run
      [_checkInvariant] as the source does under [#ifndef NDEBUG].
    - An [int] member of [Robot] is an integer; where the console layer
      computes with one ([battery -= drain]) the result has to lie in
      the 32-bit range, and is undefined behaviour otherwise. *)

From stdpp Require Import gmap strings list fin_maps pretty.
From Stdlib Require Import Lia.

Definition loc := positive.
Definition rid := nat.

Inductive fault := UB | AssertFailed | OutOfFuel.

Section Ring.
Context {T : Type}.

(** [struct Node { T data; Node* next; }] *)
Record Node := mkNode { data : T; next : option loc }.

(** The three private members of [LinkedList<T>]. *)
Record LinkedList := mkList {
  head_ : option loc;
  tail_ : option loc;
  sz_ : nat
}.

(** Program state: the free store, the list objects, and what has been
    written to [std::cout]. *)
Record state := mkState {
  heap : gmap loc Node;
  objs : gmap rid LinkedList;
  cout : string
}.

Inductive outcome (A : Type) :=
  | Ok (a : A) (s : state)
  | Throw (s : state)
  | Fault (f : fault).
Global Arguments Ok {A} a s.
Global Arguments Throw {A} s.
Global Arguments Fault {A} f.

Definition M (A : Type) := state → outcome A.

Definition ret {A} (a : A) : M A := λ s, Ok a s.

Definition bind {A B} (m : M A) (k : A → M B) : M B := λ s,
  match m s with
  | Ok a s' => k a s'
  | Throw s' => Throw s'
  | Fault f => Fault f
  end.

Definition fail {A} (f : fault) : M A := λ _, Fault f.

End Ring.

Global Arguments Node : clear implicits.
Global Arguments LinkedList : clear implicits.
Global Arguments state : clear implicits.
Global Arguments outcome : clear implicits.
Global Arguments M : clear implicits.

Declare Scope ring_scope.
Delimit Scope ring_scope with ring.
Notation "'let*' x ':=' m 'in' k" := (bind m (λ x, k))
  (at level 10, x name, m at level 100, k at level 200,
   format "'[v' 'let*'  x  ':='  m  'in' '/' k ']'") : ring_scope.
Notation "m ';;' k" := (bind m (λ _, k))
  (at level 100, k at level 200, right associativity) : ring_scope.
Open Scope ring_scope.

Section Ops.
Context {T : Type}.
(** [NDEBUG]: whether the build defines the macro. *)
Variable NDEBUG : bool.
(** [operator<<(std::ostream&, const T&)], as the text it writes. *)
Variable show : T → string.
(** [operator new]. *)
Variable alloc : gmap loc (Node T) → option loc.

Local Abbreviation Node := (Node T).
Local Abbreviation state := (state T).
Local Abbreviation M := (M T).

(** ** Member access and the free store *)

Definition obj (r : rid) : M LinkedList := λ s,
  match objs s !! r with
  | Some R => Ok R s
  | None => Fault UB
  end.

Definition put_obj (r : rid) (R : LinkedList) : M unit := λ s,
  match objs s !! r with
  | Some _ => Ok () (mkState (heap s) (<[r := R]> (objs s)) (cout s))
  | None => Fault UB
  end.

Definition get_head (r : rid) : M (option loc) := let* R := obj r in ret (head_ R).
Definition get_tail (r : rid) : M (option loc) := let* R := obj r in ret (tail_ R).
Definition get_sz (r : rid) : M nat := let* R := obj r in ret (sz_ R).
Definition set_head (r : rid) (p : option loc) : M unit :=
  let* R := obj r in put_obj r (mkList p (tail_ R) (sz_ R)).
Definition set_tail (r : rid) (p : option loc) : M unit :=
  let* R := obj r in put_obj r (mkList (head_ R) p (sz_ R)).
Definition set_sz (r : rid) (n : nat) : M unit :=
  let* R := obj r in put_obj r (mkList (head_ R) (tail_ R) n).

(** [*p] for a node pointer. *)
Definition deref (p : option loc) : M Node := λ s,
  match p with
  | None => Fault UB
  | Some l =>
      match heap s !! l with
      | Some n => Ok n s
      | None => Fault UB
      end
  end.

Definition get_next (p : option loc) : M (option loc) :=
  let* n := deref p in ret (next n).
Definition get_data (p : option loc) : M T :=
  let* n := deref p in ret (data n).

(** [p->next = q] *)
Definition set_next (p q : option loc) : M unit :=
  let* n := deref p in
  λ s, match p with
       | Some l => Ok () (mkState (<[l := mkNode (data n) q]> (heap s)) (objs s) (cout s))
       | None => Fault UB
       end.

(** [p->data.m = e], a write to a member of the element: [f] is the
    element with the member set. *)
Definition upd_data (p : option loc) (f : T → T) : M unit :=
  let* n := deref p in
  λ s, match p with
       | Some l => Ok () (mkState (<[l := mkNode (f (data n)) (next n)]> (heap s)) (objs s) (cout s))
       | None => Fault UB
       end.

(** [new Node(v)]: the allocator picks an address for the store it is
    shown, or answers [None], and then [new] raises [std::bad_alloc];
    the constructor sets [next] to [nullptr]. *)
Definition new_Node (v : T) : M (option loc) := λ s,
  match alloc (heap s) with
  | None => Throw s
  | Some l => Ok (Some l) (mkState (<[l := mkNode v None]> (heap s)) (objs s) (cout s))
  end.

(** [delete p] *)
Definition delete_ (p : option loc) : M unit := λ s,
  match p with
  | None => Ok () s
  | Some l =>
      match heap s !! l with
      | Some _ => Ok () (mkState (delete l (heap s)) (objs s) (cout s))
      | None => Fault UB
      end
  end.

(** [std::cout << txt] *)
Definition print (txt : string) : M unit := λ s,
  Ok () (mkState (heap s) (objs s) (cout s +:+ txt)).

Definition assert (b : bool) : M unit :=
  if b then ret () else fail AssertFailed.

(** The line terminator written after each rendering. *)
Definition nl : string := String (Ascii.ascii_of_nat 10) EmptyString.

Definition is_null (p : option loc) : bool :=
  match p with None => true | Some _ => false end.

Definition ptr_eqb (p q : option loc) : bool := bool_decide (p = q).

(** ** Private helpers *)

(** [make_single] (lines 22-26) *)
Definition make_single (this : rid) (n : option loc) : M unit :=
  set_next n n ;;
  set_head this n ;; set_tail this n ;;
  set_sz this 1.

(** [for (i = 0; i < k; ++i) cur = cur->next;] *)
Fixpoint walk (k : nat) (cur : option loc) : M (option loc) :=
  match k with
  | 0 => ret cur
  | S k' => let* nx := get_next cur in walk k' nx
  end.

(** [_checkInvariant] (lines 29-35) *)
Definition _checkInvariant (this : rid) : M unit :=
  let* h := get_head this in
  if is_null h then
    let* t := get_tail this in
    let* sz := get_sz this in
    assert (is_null t && bool_decide (sz = 0))
  else
    let* t := get_tail this in
    (if is_null t then assert false
     else let* tn := get_next t in assert (ptr_eqb tn h)) ;;
    let* sz := get_sz this in
    let* cur := walk sz h in
    assert (ptr_eqb cur h).

(** The calls guarded by [#ifndef NDEBUG]. *)
Definition debug_check (this : rid) : M unit :=
  if NDEBUG then ret () else _checkInvariant this.

(** ** Public interface *)

Definition empty (this : rid) : M bool :=
  let* h := get_head this in ret (is_null h).

Definition size (this : rid) : M nat := get_sz this.

(** [append] (lines 48-58; the rvalue overload, lines 59-69, has the
    same body) *)
Definition append (this : rid) (value : T) : M unit :=
  let* n := new_Node value in
  let* h := get_head this in
  if is_null h then make_single this n
  else
    set_next n h ;;
    let* t := get_tail this in
    set_next t n ;;
    set_tail this n ;;
    let* sz := get_sz this in
    set_sz this (S sz) ;;
    debug_check this.

(** [pop_front] (lines 72-92) *)
Definition pop_front (this : rid) : M bool :=
  let* h := get_head this in
  if is_null h then ret false
  else
    let old := h in
    let* t := get_tail this in
    if ptr_eqb h t then
      delete_ old ;;
      set_tail this None ;; set_head this None ;;
      set_sz this 0 ;;
      debug_check this ;;
      ret true
    else
      let* hn := get_next h in
      set_head this hn ;;
      let* t := get_tail this in
      let* h' := get_head this in
      set_next t h' ;;
      delete_ old ;;
      let* sz := get_sz this in
      set_sz this (sz - 1) ;;  (* [--sz_]; [sz_] is at least 2 on a ring that gets here *)
      debug_check this ;;
      ret true.

(** [rotate] (lines 95-102) *)
Definition rotate (this : rid) : M unit :=
  let* h := get_head this in
  let* t := get_tail this in
  if is_null h || ptr_eqb h t then ret ()
  else
    let* hn := get_next h in
    set_head this hn ;;
    let* t := get_tail this in
    let* tn := get_next t in
    set_tail this tn ;;
    debug_check this.

(** [front] (lines 105-106): the head node's [data]. *)
Definition front (this : rid) : M T :=
  let* h := get_head this in get_data h.

(** The loop of [display] (lines 113-117); [k] iterations remain. *)
Fixpoint display_loop (k i sz : nat) (cur : option loc) : M unit :=
  match k with
  | 0 => ret ()
  | S k' =>
      let* d := get_data cur in
      print (show d) ;;
      (if bool_decide (i + 1 < sz) then print " -> " else ret ()) ;;
      let* nx := get_next cur in
      display_loop k' (S i) sz nx
  end.

(** [display] (lines 109-119) *)
Definition display (this : rid) : M unit :=
  let* h := get_head this in
  if is_null h then print ("[] (empty)" +:+ nl)
  else
    print "[" ;;
    let* sz := get_sz this in
    display_loop sz 0 sz h ;;
    print ("] (circular)" +:+ nl).

(** [forEach] (lines 122-130).  The visitor is a function object with
    captured state of type [S]; [f d acc] is its state after the call
    [f(d)]. *)
Fixpoint forEach_loop {S} (f : T → S → S) (k : nat) (cur : option loc) (acc : S) : M S :=
  match k with
  | 0 => ret acc
  | S k' =>
      let* d := get_data cur in
      let* nx := get_next cur in
      forEach_loop f k' nx (f d acc)
  end.

Definition forEach {S} (this : rid) (f : T → S → S) (acc : S) : M S :=
  let* h := get_head this in
  if is_null h then ret acc
  else
    let* sz := get_sz this in
    forEach_loop f sz h acc.

(** The loop of [clear] (lines 136-140) *)
Fixpoint clear_loop (k : nat) (cur : option loc) : M unit :=
  match k with
  | 0 => ret ()
  | S k' =>
      let* nxt := get_next cur in
      delete_ cur ;;
      clear_loop k' nxt
  end.

(** [clear] (lines 133-143) *)
Definition clear (this : rid) : M unit :=
  let* h := get_head this in
  if is_null h then ret ()
  else
    let* sz := get_sz this in
    clear_loop sz h ;;
    set_tail this None ;; set_head this None ;;
    set_sz this 0.

(** [~LinkedList()] (line 40): [clear()], after which the lifetime of
    the object is over. *)
Definition destroy (this : rid) : M unit :=
  clear this ;;
  λ s, match objs s !! this with
       | Some _ => Ok () (mkState (heap s) (delete this (objs s)) (cout s))
       | None => Fault UB
       end.

(** The guard of the slow/fast loop (line 162):
    [fast->next != head_ && fast->next->next != head_]; the second
    operand is evaluated only when the first holds. *)
Definition split_cond (h fast : option loc) : M bool :=
  let* fn := get_next fast in
  if ptr_eqb fn h then ret false
  else
    let* fn := get_next fast in
    let* fnn := get_next fn in
    ret (negb (ptr_eqb fnn h)).

(** The slow/fast loop of [splitIntoTwo] (lines 162-165).  The source
    loop has no counter; [fuel] bounds the number of iterations the
    model will follow. *)
Fixpoint split_loop (fuel : nat) (h slow fast : option loc) : M (option loc * option loc) :=
  let* continue := split_cond h fast in
  if continue then
    match fuel with
    | 0 => fail OutOfFuel
    | S fuel' =>
        let* slow' := get_next slow in
        let* fn := get_next fast in
        let* fast' := get_next fn in
        split_loop fuel' h slow' fast'
    end
  else ret (slow, fast).

(** The relinking after the loop (lines 166-180): [slow] and [fast]
    are the loop's pointers. *)
Definition split_relink (this first second : rid) (slow fast : option loc) : M unit :=
  let* h := get_head this in
  let* fn := get_next fast in
  let* fnn := get_next fn in
  let fast := if ptr_eqb fnn h then fn else fast in
  let head1 := h in
  let tail1 := slow in
  let* head2 := get_next slow in
  let tail2 := fast in
  set_next tail1 head1 ;;
  set_next tail2 head2 ;;
  let* sz := get_sz this in
  let n1 := (sz + 1) / 2 in
  let n2 := sz - n1 in
  set_head first head1 ;; set_tail first tail1 ;; set_sz first n1 ;;
  set_head second head2 ;; set_tail second tail2 ;; set_sz second n2 ;;
  set_tail this None ;; set_head this None ;; set_sz this 0.

(** [splitIntoTwo] (lines 149-181) *)
Definition splitIntoTwo (fuel : nat) (this first second : rid) : M unit :=
  clear first ;; clear second ;;
  let* h := get_head this in
  if is_null h then ret ()
  else
    let* sz := get_sz this in
    if bool_decide (sz = 1) then
      let* h := get_head this in
      set_head first h ;;
      let* t := get_tail this in
      set_tail first t ;;
      set_sz first 1 ;;
      let* ft := get_tail first in
      let* fh := get_head first in
      set_next ft fh ;;
      set_tail this None ;; set_head this None ;; set_sz this 0
    else
      let* sf := split_loop fuel h h h in
      split_relink this first second sf.1 sf.2.

(** [mergeWith] (lines 184-201) *)
Definition mergeWith (this other : rid) : M unit :=
  let* oe := empty other in
  if oe then ret ()
  else
    let* e := empty this in
    if e then
      let* oh := get_head other in
      set_head this oh ;;
      let* ot := get_tail other in
      set_tail this ot ;;
      let* osz := get_sz other in
      set_sz this osz ;;
      set_tail other None ;; set_head other None ;; set_sz other 0
    else
      let* aHead := get_head this in
      let* bHead := get_head other in
      let* t := get_tail this in
      set_next t bHead ;;
      let* ot := get_tail other in
      set_next ot aHead ;;
      let* ot := get_tail other in
      set_tail this ot ;;
      let* sz := get_sz this in
      let* osz := get_sz other in
      set_sz this (sz + osz) ;;
      set_tail other None ;; set_head other None ;; set_sz other 0 ;;
      debug_check this.

End Ops.

(** ** The console layer (src/main.cpp) *)

(** [struct Robot] (lines 7-16); an [int] is read as an integer. *)
Module Robot.
Record t := mk {
  id : Z;
  name : string;
  battery : Z;
  drain : Z;
  paused : bool
}.
End Robot.

(** [operator<<(std::ostream&, const Robot&)] (lines 19-22) *)
Definition show_Robot (r : Robot.t) : string :=
  "Robot(" +:+ Robot.name r +:+ ", Battery=" +:+ pretty (Robot.battery r) +:+ ")".

Section Console.
Variable NDEBUG : bool.

(** The loop of [togglePauseById] (lines 86-95): [i] counts the passes,
    [ring.size()] is read again on each one, and the answer is [found].
    [fuel] bounds the passes the model will follow. *)
Fixpoint toggle_loop (fuel : nat) (ring : rid) (id : Z) (i : nat) : M Robot.t bool :=
  let* sz := size ring in
  if bool_decide (i < sz) then
    let* r := front ring in
    if bool_decide (Robot.id r = id) then
      let* r := front ring in
      let* h := get_head ring in
      upd_data h (λ d, Robot.mk (Robot.id d) (Robot.name d) (Robot.battery d)
                         (Robot.drain d) (negb (Robot.paused r))) ;;
      let* r := front ring in
      print (if Robot.paused r then "Paused: " else "Resumed: ") ;;
      let* r := front ring in
      print (show_Robot r) ;;
      print nl ;;
      ret true
    else
      match fuel with
      | 0 => fail OutOfFuel
      | S fuel' => rotate NDEBUG ring ;; toggle_loop fuel' ring id (S i)
      end
  else ret false.

(** [togglePauseById] (lines 83-97) *)
Definition togglePauseById (fuel : nat) (ring : rid) (id : Z) : M Robot.t unit :=
  let* sz := size ring in
  if bool_decide (sz = 0) then print ("No robots." +:+ nl)
  else
    let* found := toggle_loop fuel ring id 0 in
    if found then ret () else print ("Not found." +:+ nl).

(** [int] is 32 bits wide, and signed arithmetic whose result leaves
    the range of the type is undefined behaviour. *)
Definition INT_MIN : Z := -2147483648.
Definition INT_MAX : Z := 2147483647.

(** [a - b] on [int] operands. *)
Definition int_sub (a b : Z) : M Robot.t Z :=
  if bool_decide (INT_MIN ≤ a - b ≤ INT_MAX)%Z then ret (a - b)%Z else fail UB.

(** [runOneTurn] (lines 57-80).  [cur] is the reference that
    [ring.front()] returns, the [data] of the node that is the head at
    that moment; the value returned is what [main] adds to the score. *)
Definition runOneTurn (ring : rid) : M Robot.t Z :=
  let* sz := size ring in
  if bool_decide (sz = 0) then print ("No robots." +:+ nl) ;; ret 0%Z
  else
    let* cur := get_head ring in
    let* r := get_data cur in
    if Robot.paused r then
      print ("Skipped (paused): " +:+ show_Robot r +:+ nl) ;;
      rotate NDEBUG ring ;;
      ret 1%Z
    else
      let before := Robot.battery r in
      let* b := int_sub (Robot.battery r) (Robot.drain r) in
      upd_data cur (λ d, Robot.mk (Robot.id d) (Robot.name d) b
                           (Robot.drain d) (Robot.paused d)) ;;
      let* r := get_data cur in
      print ("Tick: " +:+ Robot.name r +:+ " battery " +:+ pretty before
               +:+ " -> " +:+ pretty (Robot.battery r) +:+ nl) ;;
      if bool_decide (Robot.battery r ≤ 0)%Z then
        print ("Removed: " +:+ show_Robot r +:+ " (returned to dock)" +:+ nl) ;;
        let* _ := pop_front NDEBUG ring in
        ret (1 + 3)%Z
      else
        rotate NDEBUG ring ;;
        ret 1%Z.

(** Menu option 6 of [main] (lines 150-156): split [ring] into [a] and
    [b] and show them. *)
Definition main_split (fuel : nat) (ring a b : rid) : M Robot.t unit :=
  clear a ;; clear b ;;
  splitIntoTwo fuel ring a b ;;
  print ("Ring A:" +:+ nl) ;; display show_Robot a ;;
  print ("Ring B:" +:+ nl) ;; display show_Robot b.

(** Menu option 7 of [main] (lines 157-162): merge [b] into [a], then
    [a] into [ring], and show it. *)
Definition main_merge (ring a b : rid) : M Robot.t unit :=
  mergeWith NDEBUG a b ;;
  mergeWith NDEBUG ring a ;;
  print ("Merged. Current ring:" +:+ nl) ;; display show_Robot ring.

End Console.

(** ** Observations used in the statements *)

Section Observe.
Context {T : Type}.

(** The head-to-tail sequence of a ring, as [forEach] visits it with a
    visitor that records each element. *)
Definition to_list (this : rid) : M T (list T) :=
  forEach this (λ d acc, acc ++ [d]) [].

(** [m] called [k] times in a row. *)
Fixpoint times (k : nat) (m : M T unit) : M T unit :=
  match k with
  | 0 => ret ()
  | S k' => m ;; times k' m
  end.

(** [append] of each value of [vs] in turn. *)
Fixpoint append_all (NDEBUG : bool) (alloc : gmap loc (Node T) → option loc)
    (this : rid) (vs : list T) : M T unit :=
  match vs with
  | [] => ret ()
  | v :: vs' => append NDEBUG alloc this v ;; append_all NDEBUG alloc this vs'
  end.

(** [pop_front] called [n] times in a row, with the flags it returned. *)
Fixpoint pop_front_n (NDEBUG : bool) (n : nat) (this : rid) : M T (list bool) :=
  match n with
  | 0 => ret []
  | S n' =>
      let* b := pop_front NDEBUG this in
      let* bs := pop_front_n NDEBUG n' this in
      ret (b :: bs)
  end.

(** Moving the front element to the back by hand, as a caller would:
    [pop_front()], and when there was a front element, [append] of the
    copy taken of it beforehand. *)
Definition pop_append (NDEBUG : bool) (alloc : gmap loc (Node T) → option loc)
    (this : rid) : M T unit :=
  let* e := empty this in
  if e then
    let* _ := pop_front NDEBUG this in ret ()
  else
    let* x := front this in
    let* _ := pop_front NDEBUG this in
    append NDEBUG alloc this x.

(** Emptying a ring from the front, as a caller would: [front()] and
    then [pop_front()], [n] times, with the elements read. *)
Fixpoint take_front_n (NDEBUG : bool) (n : nat) (this : rid) : M T (list T) :=
  match n with
  | 0 => ret []
  | S n' =>
      let* x := front this in
      let* _ := pop_front NDEBUG this in
      let* xs := take_front_n NDEBUG n' this in
      ret (x :: xs)
  end.

(** The list objects [rs] going out of scope, in that order. *)
Fixpoint destroy_all (rs : list rid) : M T unit :=
  match rs with
  | [] => ret ()
  | r :: rs' => destroy r ;; destroy_all rs'
  end.

(** An allocator never hands out an address that is live. *)
Definition alloc_fresh (alloc : gmap loc (Node T) → option loc) : Prop :=
  ∀ h l, alloc h = Some l → h !! l = None.

(** An allocator that always finds room. *)
Definition alloc_total (alloc : gmap loc (Node T) → option loc) : Prop :=
  ∀ h, is_Some (alloc h).

(** The sequence after its first element moved to the back. *)
Definition rot1 {A} (l : list A) : list A :=
  match l with
  | [] => []
  | x :: rest => rest ++ [x]
  end.

Fixpoint rotn {A} (k : nat) (l : list A) : list A :=
  match k with
  | 0 => l
  | S k' => rotn k' (rot1 l)
  end.

End Observe.

(** [runOneTurn] called [k] times in a row (menu option 2 chosen [k]
    times), with the values it returned. *)
Fixpoint runOneTurn_n (NDEBUG : bool) (k : nat) (ring : rid) : M Robot.t (list Z) :=
  match k with
  | 0 => ret []
  | S k' =>
      let* g := runOneTurn NDEBUG ring in
      let* gs := runOneTurn_n NDEBUG k' ring in
      ret (g :: gs)
  end.

(** A robot after [paused = !paused]. *)
Definition toggled (r : Robot.t) : Robot.t :=
  Robot.mk (Robot.id r) (Robot.name r) (Robot.battery r) (Robot.drain r)
    (negb (Robot.paused r)).

(** A robot after [battery -= drain]. *)
Definition ticked (r : Robot.t) : Robot.t :=
  Robot.mk (Robot.id r) (Robot.name r) (Robot.battery r - Robot.drain r) (Robot.drain r)
    (Robot.paused r).

(** Fields for which a tick stays within [int], now and on every later
    turn. *)
Definition tick_safe (r : Robot.t) : Prop :=
  (0 ≤ Robot.drain r ≤ INT_MAX)%Z ∧
  (INT_MIN + Robot.drain r ≤ Robot.battery r ≤ INT_MAX)%Z.


(** * Vocabulary of the statements *)

Section Vocabulary.
Context {T : Type}.

Local Abbreviation cells := (list (loc * T)).

(** ** Representation of a ring in the free store *)

(** First address of a run of cells, [q] when the run is empty. *)
Definition hd_loc (ns : cells) (q : option loc) : option loc :=
  match ns with
  | [] => q
  | c :: _ => Some c.1
  end.

(** [chain h ns q]: the cells [ns] are live in [h] with the listed data,
    each linked to the one after it and the last one to [q]. *)
Fixpoint chain (h : gmap loc (Node T)) (ns : cells) (q : option loc) : Prop :=
  match ns with
  | [] => True
  | c :: rest => h !! c.1 = Some (mkNode c.2 (hd_loc rest q)) ∧ chain h rest q
  end.

(** [ring_rep h R ns]: the object [R] is the closed ring whose cells are
    [ns] from head to tail, all distinct. *)
Definition ring_rep (h : gmap loc (Node T)) (R : LinkedList) (ns : cells) : Prop :=
  NoDup ns.*1 ∧
  sz_ R = length ns ∧
  head_ R = hd_loc ns None ∧
  tail_ R = fst <$> last ns ∧
  chain h ns (hd_loc ns None).

(** Address of the [i]-th cell of a ring. *)
Definition cell_at (ns : cells) (i : nat) : option loc := fst <$> ns !! i.

(** ** Well-formed states *)

(** [abs own s]: [own] lists, for every list object of [s], the cells
    of its ring from head to tail; every object is a closed ring of
    exactly those cells, and no cell belongs to two objects. *)
Definition abs (own : gmap rid cells) (s : state T) : Prop :=
  (∀ r, own !! r = None → objs s !! r = None) ∧
  (∀ r ns, own !! r = Some ns → ∃ R, objs s !! r = Some R ∧ ring_rep (heap s) R ns) ∧
  (∀ r r' ns ns' l, r ≠ r' → own !! r = Some ns → own !! r' = Some ns' →
     l ∈ ns.*1 → l ∉ ns'.*1).

(** A well-formed state: every list object is a ring of cells of its
    own. *)
Definition state_wf (s : state T) : Prop := ∃ own, abs own s.

(** The invariant of one list object, read off its members and the
    store: [head_], [tail_] and [sz_] agree on emptiness, and on a
    non-empty ring the tail links to the head, [sz_] steps from the
    head are the first to come back to it, and the tail is the node
    before that. *)
Definition ring_inv (s : state T) (r : rid) : Prop :=
  ∃ R, objs s !! r = Some R ∧
    (head_ R = None ↔ tail_ R = None) ∧
    (tail_ R = None ↔ sz_ R = 0) ∧
    (sz_ R ≠ 0 →
       get_next (tail_ R) s = Ok (head_ R) s ∧
       walk (sz_ R) (head_ R) s = Ok (head_ R) s ∧
       walk (sz_ R - 1) (head_ R) s = Ok (tail_ R) s ∧
       ∀ k, 0 < k < sz_ R → ∃ p, walk k (head_ R) s = Ok p s ∧ p ≠ head_ R).

(** No node belongs to two list objects. *)
Definition exclusive (s : state T) : Prop :=
  ∀ r r' R R' i j p,
    r ≠ r' → objs s !! r = Some R → objs s !! r' = Some R' →
    i < sz_ R → j < sz_ R' →
    walk i (head_ R) s = Ok p s → walk j (head_ R') s = Ok p s → False.

(** The structural invariant of the container: every list object is a
    closed ring of [sz_] nodes of its own. *)
Definition invariant (s : state T) : Prop :=
  (∀ r, is_Some (objs s !! r) → ring_inv s r) ∧ exclusive s.

(** [l] is a node of the list object [r]: the object comes to it
    within [sz_] steps from its head. *)
Definition node_of (s : state T) (r : rid) (l : loc) : Prop :=
  ∃ R i, objs s !! r = Some R ∧ i < sz_ R ∧ walk i (head_ R) s = Ok (Some l) s.

(** A node is reachable when it is a node of some list object. *)
Definition reachable (s : state T) (l : loc) : Prop := ∃ r, node_of s r l.

(** No live node is lost: each one is reachable. *)
Definition no_garbage (s : state T) : Prop :=
  ∀ l, is_Some (heap s !! l) → reachable s l.

(** [owned own l]: the cell at [l] belongs to one of the rings of [own]. *)
Definition owned (own : gmap rid cells) (l : loc) : Prop :=
  ∃ r ns, own !! r = Some ns ∧ l ∈ ns.*1.

(** How the store changes when ownership goes from [own] to [own']:
    cells owned neither before nor after are untouched, cells given up
    are released, and cells taken in were not live. *)
Definition frames (own own' : gmap rid cells) (s s' : state T) : Prop :=
  (∀ l, ¬ owned own l → ¬ owned own' l → heap s' !! l = heap s !! l) ∧
  (∀ l, owned own l → ¬ owned own' l → heap s' !! l = None) ∧
  (∀ l, owned own' l → ¬ owned own l → heap s !! l = None).

(** [agrees m1 m2]: whenever [m1] returns, [m2] returns the same value
    in the same state. *)
Definition agrees {A} (m1 m2 : M T A) : Prop :=
  ∀ s a s', m1 s = Ok a s' → m2 s = Ok a s'.

(** The cells met on [k] steps from [p]. *)
Fixpoint cells_from (h : gmap loc (Node T)) (k : nat) (p : option loc) : option cells :=
  match k with
  | 0 => Some []
  | S k' =>
      match p with
      | None => None
      | Some l =>
          match h !! l with
          | None => None
          | Some n => (λ rest, (l, data n) :: rest) <$> cells_from h k' (next n)
          end
      end
  end.

(** ** Text and store *)

(** The text between the brackets of a rendering. *)
Fixpoint join_arrow (xs : list string) : string :=
  match xs with
  | [] => ""
  | x :: rest =>
      match rest with
      | [] => x
      | _ :: _ => x +:+ " -> " +:+ join_arrow rest
      end
  end.

(** The store after [delete] of each address in turn. *)
Definition free_cells (ls : list loc) (h : gmap loc (Node T)) : gmap loc (Node T) :=
  foldl (λ h l, delete l h) h ls.

(** The text [display] writes for a ring with elements [xs], without
    the line terminator. *)
Definition rendering (show : T → string) (xs : list T) : string :=
  match xs with
  | [] => "[] (empty)"
  | _ :: _ => "[" +:+ join_arrow (show <$> xs) +:+ "] (circular)"
  end.

(** ** Allocators and starting states *)

(** An allocator that always answers, with an address next to the
    live ones. *)
Definition bump (h : gmap loc (Node T)) : option loc := Some (fresh (dom h)).

(** An allocator with no room left. *)
Definition no_room (h : gmap loc (Node T)) : option loc := None.

(** Default-constructed list objects ([LinkedList() = default]) under
    the given names, an empty store and nothing written yet. *)
Definition fresh_objects (names : list rid) : state T :=
  mkState ∅ (foldr (λ r m, <[r := mkList None None 0]> m) ∅ names) "".

(** The state a computation leaves when it returns ([s] otherwise). *)
Definition run_state {A} (m : M T A) (s : state T) : state T :=
  match m s with
  | Ok _ s' => s'
  | _ => s
  end.

End Vocabulary.

(** Three rings of integers: [1..5], [7] and [8, 9]. *)
Definition demo : state Z :=
  run_state (append_all true bump 0 [1; 2; 3; 4; 5]%Z ;;
             append_all true bump 1 [7]%Z ;;
             append_all true bump 2 [8; 9]%Z)
            (fresh_objects [0; 1; 2]).

(** A ring of three robots, none with id 9. *)
Definition robots : state Robot.t :=
  run_state (append_all true bump 0
               [Robot.mk 1 "ann" 5 1 false; Robot.mk 2 "bob" 3 1 true;
                Robot.mk 3 "cy" 4 1 false])
            (fresh_objects [0]).

(** Three rings of robots: one that starts with a robot on its last
    tick, one that starts with a paused robot, and one of active robots
    only, the first of which has two ticks left. *)
Definition relay : state Robot.t :=
  run_state (append_all true bump 0
               [Robot.mk 1 "ann" 1 1 false; Robot.mk 2 "bob" 3 1 true;
                Robot.mk 3 "cy" 2 1 false] ;;
             append_all true bump 1
               [Robot.mk 4 "dot" 4 1 true; Robot.mk 5 "eve" 2 1 false] ;;
             append_all true bump 2
               [Robot.mk 6 "fay" 2 1 false; Robot.mk 7 "gus" 1 1 false])
            (fresh_objects [0; 1; 2]).

(** A ring of two robots, both paused. *)
Definition parked : state Robot.t :=
  run_state (append_all true bump 0
               [Robot.mk 1 "ann" 5 1 true; Robot.mk 2 "bob" 3 1 true])
            (fresh_objects [0]).

(** A single active robot whose battery is the least [int], beside an
    empty ring. *)
Definition overdrawn : state Robot.t :=
  run_state (append_all true bump 0 [Robot.mk 1 "ann" INT_MIN 1 false])
            (fresh_objects [0; 1]).

(** A ring of integers under name 0, filled by [append], with empty
    rings 1 and 2 beside it. *)
Definition ring_of (vs : list Z) : state Z :=
  run_state (append_all false bump 0 vs) (fresh_objects [0; 1; 2]).

(** What a computation writes, started on [s]. *)
Definition written {A} (m : M Z A) (s : state Z) : string := cout (run_state m s).

(** The sizes [splitIntoTwo] gives to [first] and [second] on a ring of
    [n] elements. *)
Definition split_sizes (n : nat) : option (nat * nat) :=
  match (splitIntoTwo n 0 1 2 ;;
         let* a := size 1 in let* b := size 2 in ret (a, b))
          (ring_of (replicate n 0%Z)) with
  | Ok ab _ => Some ab
  | _ => None
  end.

(** A cycle of three cells under a [sz_] of six: six steps from the
    head come back to the head, and so do three. *)
Definition twice_around : state Z :=
  mkState (<[1%positive := mkNode 10%Z (Some 2%positive)]>
             (<[2%positive := mkNode 20%Z (Some 3%positive)]>
                (<[3%positive := mkNode 30%Z (Some 1%positive)]> ∅)))
          (<[0 := mkList (Some 1%positive) (Some 3%positive) 6]>
             (<[1 := mkList None None 0]> (<[2 := mkList None None 0]> ∅)))
          "".


(** * Representation of a ring in the free store *)

Section Rep.
Context {T : Type}.

Local Abbreviation cells := (list (loc * T)).


Lemma hd_loc_app (a b : cells) q : hd_loc (a ++ b) q = hd_loc a (hd_loc b q).
Proof. by destruct a. Qed.

Lemma chain_app h (a b : cells) q :
  chain h (a ++ b) q ↔ chain h a (hd_loc b q) ∧ chain h b q.
Proof.
  induction a as [|c a IH]; simpl; [tauto|].
  rewrite hd_loc_app, IH. tauto.
Qed.

Lemma chain_frame h h' (ns : cells) q :
  (∀ l, l ∈ ns.*1 → h' !! l = h !! l) → chain h ns q → chain h' ns q.
Proof.
  induction ns as [|c ns IH]; simpl; [done|].
  intros Hfr [Hc Hrest]. split.
  - rewrite Hfr; [done|]. apply list_elem_of_here.
  - apply IH; [|done]. intros l Hl. apply Hfr. by apply list_elem_of_further.
Qed.

Lemma chain_live h (ns : cells) q l :
  chain h ns q → l ∈ ns.*1 → is_Some (h !! l).
Proof.
  induction ns as [|c ns IH]; simpl.
  - intros _ Hl. by apply not_elem_of_nil in Hl.
  - intros [Hc Hrest] Hl. apply elem_of_cons in Hl as [Heq|Hl]; [rewrite Heq|]; eauto.
Qed.

Lemma chain_lookup h (ns : cells) q i c :
  chain h ns q → ns !! i = Some c →
  h !! c.1 = Some (mkNode c.2 (hd_loc (drop (S i) ns) q)).
Proof.
  revert i. induction ns as [|c0 ns IH]; intros i; [done|].
  simpl. intros [Hc Hrest] Hi. destruct i as [|i]; simpl in *.
  - injection Hi as <-. by rewrite drop_0.
  - by apply IH.
Qed.

(** Re-pointing the last cell of a run. *)
Lemma chain_snoc_set h (a : cells) c q q' :
  chain h (a ++ [c]) q → c.1 ∉ a.*1 →
  chain (<[c.1 := mkNode c.2 q']> h) (a ++ [c]) q'.
Proof.
  rewrite !chain_app. simpl. intros (Ha & Hc & _) Hnin. split_and!; [|by rewrite lookup_insert_eq|done].
  eapply chain_frame; [|done]. intros l Hl. rewrite lookup_insert_ne; [done|]. by intros <-.
Qed.

Lemma chain_insert_notin h (ns : cells) q l n :
  l ∉ ns.*1 → chain h ns q → chain (<[l := n]> h) ns q.
Proof.
  intros Hl. apply chain_frame. intros l' Hl'. rewrite lookup_insert_ne; [done|]. by intros ->.
Qed.

Lemma chain_delete_notin h (ns : cells) q l :
  l ∉ ns.*1 → chain h ns q → chain (delete l h) ns q.
Proof.
  intros Hl. apply chain_frame. intros l' Hl'. rewrite lookup_delete_ne; [done|]. by intros ->.
Qed.

Lemma ring_rep_frame h h' R (ns : cells) :
  (∀ l, l ∈ ns.*1 → h' !! l = h !! l) → ring_rep h R ns → ring_rep h' R ns.
Proof.
  intros Hfr (Hnd & Hsz & Hh & Ht & Hch). split_and!; try done. by eapply chain_frame.
Qed.

Lemma ring_rep_nil h : ring_rep h (mkList None None 0) ([] : cells).
Proof. split_and!; simpl; try done. constructor. Qed.

Lemma ring_rep_empty_iff h R (ns : cells) :
  ring_rep h R ns → (head_ R = None ↔ ns = []) ∧ (tail_ R = None ↔ ns = []) ∧ (sz_ R = 0 ↔ ns = []).
Proof.
  intros (Hnd & Hsz & Hh & Ht & Hch). rewrite Hsz, Hh, Ht. split_and!.
  - by destruct ns.
  - rewrite fmap_None. apply last_None.
  - by destruct ns.
Qed.

End Rep.

(** * Running the bounded loops over a chain *)


Lemma string_app_cons x (a b : string) : String x a +:+ b = String x (a +:+ b).
Proof. reflexivity. Qed.

Lemma string_app_assoc (a b c : string) : (a +:+ b) +:+ c = a +:+ (b +:+ c).
Proof. induction a as [|x a IH]; [done|]. rewrite !string_app_cons. by f_equal. Qed.

Lemma string_app_nil_r (a : string) : a +:+ "" = a.
Proof. induction a as [|x a IH]; [done|]. rewrite string_app_cons. by f_equal. Qed.

Ltac unfold_prims :=
  unfold empty, size, make_single;
  unfold get_head, get_tail, get_sz, set_head, set_tail, set_sz,
    get_next, get_data, set_next, upd_data, delete_, new_Node, obj, put_obj, deref,
    bind, ret, fail, print, assert, ptr_eqb.

Ltac run1 :=
  first
    [ rewrite lookup_insert_eq
    | rewrite lookup_insert_ne by (done || congruence)
    | rewrite lookup_delete_ne by (done || congruence)
    | rewrite bool_decide_true by (done || congruence)
    | rewrite bool_decide_false by (done || congruence)
    | match goal with
      | H : ?m !! ?k = _ |- context [?m !! ?k] => rewrite H
      | H : head_ ?R = _ |- context [head_ ?R] => rewrite H
      | H : tail_ ?R = _ |- context [tail_ ?R] => rewrite H
      | H : ?a = Some _ |- context [match ?a with Some _ => _ | None => _ end] => rewrite H
      end ].

Ltac run := unfold_prims; repeat (simpl; run1); simpl.

Ltac simpl_ins :=
  repeat first
    [ rewrite lookup_insert_eq
    | rewrite lookup_insert_ne by (done || congruence) ].

Tactic Notation "simpl_ins" "in" hyp(H) :=
  repeat first
    [ rewrite lookup_insert_eq in H
    | rewrite lookup_insert_ne in H by (done || congruence) ].

Section Loops.
Context {T : Type}.

Local Abbreviation cells := (list (loc * T)).

Lemma lookup_free_cells (ls : list loc) (h : gmap loc (Node T)) l :
  free_cells ls h !! l = if decide (l ∈ ls) then None else h !! l.
Proof.
  revert h. induction ls as [|l0 ls IH]; intros h.
  - destruct (decide (l ∈ [])) as [Hin|]; [|done]. by apply not_elem_of_nil in Hin.
  - change (free_cells (l0 :: ls) h) with (free_cells ls (delete l0 h)).
    rewrite IH. destruct (decide (l = l0)) as [->|Hne].
    + rewrite lookup_delete_eq.
      destruct (decide (l0 ∈ l0 :: ls)) as [|Hnin]; [by destruct (decide (l0 ∈ ls))|].
      exfalso. apply Hnin, list_elem_of_here.
    + rewrite lookup_delete_ne by done.
      destruct (decide (l ∈ ls)), (decide (l ∈ l0 :: ls)); try done;
        exfalso; rewrite elem_of_cons in *; tauto.
Qed.

Lemma hd_loc_drop (ns : cells) k q :
  hd_loc (drop k ns) q = match ns !! k with Some c => Some c.1 | None => q end.
Proof.
  revert k. induction ns as [|c ns IH]; intros [|k]; simpl; auto.
Qed.

Lemma walk_chain (s : state T) (ns : cells) q k :
  chain (heap s) ns q → k ≤ length ns →
  walk k (hd_loc ns q) s = Ok (hd_loc (drop k ns) q) s.
Proof.
  revert ns. induction k as [|k IH]; intros ns Hch Hk.
  - by rewrite drop_0.
  - destruct ns as [|c ns]; simpl in Hk; [lia|].
    destruct Hch as [Hc Hrest]. simpl. run. apply IH; [done|lia].
Qed.

Lemma forEach_loop_chain {S} (f : T → S → S) (s : state T) (ns : cells) q acc :
  chain (heap s) ns q →
  forEach_loop f (length ns) (hd_loc ns q) acc s = Ok (foldl (λ a d, f d a) acc ns.*2) s.
Proof.
  revert acc. induction ns as [|c ns IH]; intros acc Hch; [done|].
  destruct Hch as [Hc Hrest]. simpl. run. by apply IH.
Qed.

Lemma display_loop_chain (show : T → string) (s : state T) (ns : cells) q i sz :
  chain (heap s) ns q → i + length ns = sz →
  display_loop show (length ns) i sz (hd_loc ns q) s =
    Ok () (mkState (heap s) (objs s) (cout s +:+ join_arrow (show <$> ns.*2))).
Proof.
  revert s i. induction ns as [|c ns IH]; intros s i Hch Hlen.
  - simpl. rewrite string_app_nil_r. by destruct s.
  - destruct Hch as [Hc Hrest]. simpl in Hlen.
    cbn [display_loop length]. run.
    destruct (bool_decide_reflect (i + 1 < sz)) as [Hlt|Hge]; run.
    + rewrite IH by (simpl; (done || lia)). simpl.
      destruct ns as [|c' ns]; [simpl in Hlen; lia|].
      by rewrite !string_app_assoc.
    + rewrite IH by (simpl; (done || lia)). simpl.
      destruct ns as [|c' ns]; [|simpl in Hlen; lia].
      simpl. by rewrite string_app_nil_r.
Qed.

Lemma clear_loop_chain (s : state T) (ns : cells) q :
  chain (heap s) ns q → NoDup ns.*1 →
  clear_loop (length ns) (hd_loc ns q) s =
    Ok () (mkState (free_cells ns.*1 (heap s)) (objs s) (cout s)).
Proof.
  revert s. induction ns as [|c ns IH]; intros s Hch Hnd.
  - by destruct s.
  - destruct Hch as [Hc Hrest]. simpl in Hnd. apply NoDup_cons in Hnd as [Hnin Hnd].
    simpl. run.
    specialize (IH (mkState (delete c.1 (heap s)) (objs s) (cout s))). simpl in IH.
    rewrite IH; [done| |done]. by apply chain_delete_notin.
Qed.

End Loops.
Section RingWalk.
Context {T : Type}.

Local Abbreviation cells := (list (loc * T)).


Lemma hd_loc_cell_at (ns : cells) : hd_loc ns None = cell_at ns 0.
Proof. by destruct ns. Qed.

Lemma cell_at_inj (ns : cells) i j :
  NoDup ns.*1 → i < length ns → cell_at ns i = cell_at ns j → i = j.
Proof.
  intros Hnd Hi Heq. unfold cell_at in Heq. rewrite <- !list_lookup_fmap in Heq.
  destruct (lookup_lt_is_Some_2 (ns.*1) i) as [l Hl]; [by rewrite length_fmap|].
  eapply NoDup_lookup; [done..|]. by rewrite <- Heq.
Qed.

Lemma ring_next h (ns : cells) i c :
  chain h ns (hd_loc ns None) → ns !! i = Some c →
  h !! c.1 = Some (mkNode c.2 (cell_at ns (if decide (S i < length ns) then S i else 0))).
Proof.
  intros Hch Hi. rewrite (chain_lookup _ _ _ _ _ Hch Hi), hd_loc_drop. do 2 f_equal.
  unfold cell_at. destruct (ns !! S i) as [c'|] eqn:Hsi.
  - apply lookup_lt_Some in Hsi as Hlt. rewrite decide_True by done. by rewrite Hsi.
  - apply lookup_ge_None in Hsi. rewrite decide_False by lia. apply hd_loc_cell_at.
Qed.

Lemma get_next_ring (s : state T) (ns : cells) i :
  chain (heap s) ns (hd_loc ns None) → i < length ns →
  get_next (cell_at ns i) s =
    Ok (cell_at ns (if decide (S i < length ns) then S i else 0)) s.
Proof.
  intros Hch Hi. destruct (lookup_lt_is_Some_2 ns i Hi) as [c Hc].
  pose proof (ring_next _ _ _ _ Hch Hc) as Hn.
  unfold cell_at at 1. rewrite Hc. simpl. run. done.
Qed.

Lemma split_cond_ring (s : state T) (ns : cells) j :
  chain (heap s) ns (hd_loc ns None) → NoDup ns.*1 → j < length ns →
  split_cond (cell_at ns 0) (cell_at ns j) s = Ok (bool_decide (j + 2 < length ns)) s.
Proof.
  intros Hch Hnd Hj. unfold split_cond.
  unfold bind at 1. rewrite get_next_ring by done.
  destruct (decide (S j < length ns)) as [Hlt|Hge].
  - unfold ptr_eqb. rewrite bool_decide_false.
    2:{ intros Heq. apply cell_at_inj in Heq; [lia|done..]. }
    unfold bind. rewrite get_next_ring by done. rewrite decide_True by done.
    rewrite get_next_ring by done. unfold ret. do 2 f_equal.
    destruct (decide (S (S j) < length ns)) as [Hlt2|Hge2].
    + rewrite bool_decide_false.
      2:{ intros Heq. apply cell_at_inj in Heq; [lia|done..]. }
      rewrite bool_decide_true by lia. done.
    + rewrite bool_decide_true by done. rewrite bool_decide_false by lia. done.
  - unfold ptr_eqb. rewrite bool_decide_true by done. unfold ret.
    rewrite bool_decide_false by lia. done.
Qed.

Lemma split_loop_ring (s : state T) (ns : cells) fuel i :
  chain (heap s) ns (hd_loc ns None) → NoDup ns.*1 →
  2 * i < length ns → (length ns - 1) / 2 ≤ i + fuel →
  split_loop fuel (cell_at ns 0) (cell_at ns i) (cell_at ns (2 * i)) s =
    Ok (cell_at ns ((length ns - 1) / 2), cell_at ns (2 * ((length ns - 1) / 2))) s.
Proof.
  intros Hch Hnd. revert i. induction fuel as [|fuel IH]; intros i Hi Hfuel.
  - cbn [split_loop]. unfold bind. rewrite split_cond_ring by done.
    assert (i = (length ns - 1) / 2) as Hi'.
    { apply Nat.le_antisymm; [apply Nat.div_le_lower_bound; lia|lia]. }
    rewrite bool_decide_false.
    2:{ intros Hlt. assert (i + 1 ≤ (length ns - 1) / 2); [|lia].
        apply Nat.div_le_lower_bound; lia. }
    unfold ret. by rewrite <- Hi'.
  - cbn [split_loop]. unfold bind at 1. rewrite split_cond_ring by done.
    destruct (bool_decide_reflect (2 * i + 2 < length ns)) as [Hlt|Hge].
    + unfold bind. rewrite get_next_ring by (done || lia).
      rewrite decide_True by lia.
      rewrite get_next_ring by (done || lia). rewrite decide_True by lia.
      rewrite get_next_ring by (done || lia). rewrite decide_True by lia.
      replace (S (S (2 * i))) with (2 * S i) by lia.
      apply IH; lia.
    + assert (i = (length ns - 1) / 2) as Hi'.
      { apply Nat.div_unique with (r := length ns - 1 - 2 * i); lia. }
      unfold ret. by rewrite <- Hi'.
Qed.

End RingWalk.
(** * What the read-only members return on a represented ring *)

Section Readers.
Context {T : Type}.

Local Abbreviation cells := (list (loc * T)).

Lemma foldl_snoc_id {A} (xs acc : list A) :
  foldl (λ a d, a ++ [d]) acc xs = acc ++ xs.
Proof.
  revert acc. induction xs as [|x xs IH]; intros acc; simpl.
  - by rewrite app_nil_r.
  - rewrite IH. by rewrite <- app_assoc.
Qed.

Section WithRing.
Variables (s : state T) (this : rid) (R : LinkedList) (ns : cells).
Hypothesis Hobj : objs s !! this = Some R.
Hypothesis Hrep : ring_rep (heap s) R ns.

Lemma size_rep : size this s = Ok (length ns) s.
Proof. destruct Hrep as (_ & Hsz & _). run. by rewrite Hsz. Qed.

Lemma empty_rep : empty this s = Ok (bool_decide (ns = [])) s.
Proof. destruct Hrep as (_ & _ & Hh & _). destruct ns; simpl in Hh; run; done. Qed.

Lemma to_list_rep : to_list this s = Ok ns.*2 s.
Proof.
  destruct Hrep as (_ & Hsz & Hh & _ & Hch). unfold to_list, forEach.
  destruct ns as [|c ns']; simpl in Hh; run; [done|]. rewrite Hsz.
  change (Some c.1) with (hd_loc (c :: ns') (Some c.1)).
  rewrite forEach_loop_chain by done. by rewrite foldl_snoc_id.
Qed.

Lemma front_rep c rest : ns = c :: rest → front this s = Ok c.2 s.
Proof.
  intros ->. destruct Hrep as (_ & _ & Hh & _ & Hch). destruct Hch as [Hc _].
  unfold front. simpl in Hh. run. done.
Qed.

Lemma front_rep_nil : ns = [] → front this s = Fault UB.
Proof. intros ->. destruct Hrep as (_ & _ & Hh & _). unfold front. simpl in Hh. run. done. Qed.

Lemma tail_rep_live c : last ns = Some c →
  tail_ R = Some c.1 ∧ heap s !! c.1 = Some (mkNode c.2 (head_ R)).
Proof.
  intros Hl. destruct Hrep as (_ & _ & Hh & Ht & Hch). rewrite Ht, Hl, Hh. split; [done|].
  apply last_Some in Hl as [a ->]. apply chain_app in Hch as [_ [Hc _]].
  rewrite Hc. simpl. done.
Qed.

Lemma checkInvariant_rep : _checkInvariant this s = Ok () s.
Proof.
  pose proof Hrep as (_ & Hsz & Hh & Ht & Hch). unfold _checkInvariant.
  destruct (last ns) as [c|] eqn:Hl.
  - destruct (tail_rep_live c Hl) as [Ht' Hc]. destruct ns as [|c0 ns']; [done|].
    simpl in Hh. run.
    rewrite Hsz. change (Some c0.1) with (hd_loc (c0 :: ns') (Some c0.1)) at 1.
    rewrite walk_chain by (done || (simpl; lia)). rewrite drop_all. run. done.
  - apply last_None in Hl. subst ns. simpl in *. run. done.
Qed.

Lemma debug_check_rep NDEBUG : debug_check NDEBUG this s = Ok () s.
Proof. unfold debug_check. destruct NDEBUG; [done|]. apply checkInvariant_rep. Qed.

Lemma display_rep (show : T → string) :
  display show this s =
    Ok () (mkState (heap s) (objs s)
      (cout s +:+ (if bool_decide (ns = []) then "[] (empty)"
                   else "[" +:+ join_arrow (show <$> ns.*2) +:+ "] (circular)") +:+ nl)).
Proof.
  destruct Hrep as (_ & Hsz & Hh & _ & Hch). unfold display.
  destruct ns as [|c ns'].
  - simpl in Hh. run. done.
  - simpl in Hh. run. rewrite Hsz.
    change (Some c.1) with (hd_loc (c :: ns') (Some c.1)).
    rewrite display_loop_chain by done. simpl. by rewrite !string_app_assoc.
Qed.

End WithRing.
End Readers.
(** * The mutators on one represented ring *)

Section Mutators.
Context {T : Type}.
Variable NDEBUG : bool.
Variable alloc : gmap loc (Node T) → option loc.

Local Abbreviation cells := (list (loc * T)).

Lemma last_snoc_inv (ns : cells) c : last ns = Some c → ∃ a, ns = a ++ [c].
Proof. intros Hl. by apply last_Some in Hl. Qed.

Lemma NoDup_snoc_fst (a : cells) c : NoDup ((a ++ [c]).*1) → (c.1 ∉ a.*1) ∧ NoDup (a.*1).
Proof.
  rewrite fmap_app. intros Hnd. apply NoDup_app in Hnd as (Ha & Hdisj & _). split; [|done].
  intros Hin. apply (Hdisj _ Hin). simpl. apply list_elem_of_here.
Qed.

Lemma append_ring (s : state T) this R (ns : cells) l v :
  objs s !! this = Some R → ring_rep (heap s) R ns →
  alloc (heap s) = Some l → heap s !! l = None →
  ∃ h' R',
    append NDEBUG alloc this v s = Ok () (mkState h' (<[this := R']> (objs s)) (cout s)) ∧
    ring_rep h' R' (ns ++ [(l, v)]) ∧
    (∀ l', l' ∉ ns.*1 → l' ≠ l → h' !! l' = heap s !! l').
Proof.
  intros Hobj Hrep Hal Hfresh. pose proof Hrep as (Hnd & Hsz & Hh & Ht & Hch).
  assert (l ∉ ns.*1) as Hl.
  { intros Hin. destruct (chain_live _ _ _ _ Hch Hin) as [n Hn]. congruence. }
  unfold append. destruct (last ns) as [ct|] eqn:Hlast.
  - destruct (tail_rep_live _ _ _ Hrep ct Hlast) as [Ht' Hct].
    assert (l ≠ ct.1) as Hne by congruence.
    destruct ns as [|c0 ns0] eqn:Hns; [done|]. rewrite <- Hns in *.
    assert (head_ R = Some c0.1) as Hh' by (by rewrite Hh, Hns).
    run. rewrite !insert_insert_eq.
    match goal with
    | |- context [debug_check _ this (mkState ?h (<[this := ?R']> _) _)] =>
        assert (ring_rep h R' (ns ++ [(l, v)])) as Hrep'
    end.
    { destruct (last_snoc_inv _ _ Hlast) as [a Ha].
      assert ((ct.1 ∉ a.*1) ∧ NoDup (a.*1)) as [Hcta _] by (apply NoDup_snoc_fst; by rewrite <- Ha).
      split_and!; simpl.
      - rewrite fmap_app. apply NoDup_app. split_and!; [done| |apply NoDup_singleton].
        intros x Hx Hx'. apply list_elem_of_singleton in Hx'. simpl in Hx'. by subst x.
      - rewrite length_app, Hsz. simpl. lia.
      - rewrite Hns. done.
      - by rewrite last_snoc.
      - rewrite hd_loc_app. replace (hd_loc ns _) with (Some c0.1) by (by rewrite Hns).
        apply chain_app. simpl. split_and!; [| |done].
        + rewrite Ha. apply chain_snoc_set with (q := hd_loc ns None); [|done].
          rewrite <- Ha. by apply chain_insert_notin.
        + rewrite lookup_insert_ne by done. by rewrite lookup_insert_eq. }
    erewrite debug_check_rep; [|simpl; apply lookup_insert_eq|exact Hrep'].
    eexists _, _. split; [reflexivity|]. split; [exact Hrep'|].
    intros l' Hl' Hne'. rewrite !lookup_insert_ne; [done|congruence|].
    intros <-. apply Hl'. destruct (last_snoc_inv _ _ Hlast) as [a ->].
    rewrite fmap_app. apply elem_of_app. right. apply list_elem_of_here.
  - apply last_None in Hlast. subst ns. simpl in Hh. run. rewrite !insert_insert_eq.
    eexists _, _. split; [reflexivity|]. split.
    + split_and!; simpl; try done; [apply NoDup_singleton|]. split; [|done].
      by rewrite lookup_insert_eq.
    + intros l' _ Hne. by rewrite lookup_insert_ne.
Qed.

Lemma ring_rep_inj h h' R R' (ns : cells) :
  ring_rep h R ns → ring_rep h' R' ns → R = R'.
Proof.
  intros (_ & Hsz & Hh & Ht & _) (_ & Hsz' & Hh' & Ht' & _).
  destruct R, R'; simpl in *. congruence.
Qed.

Lemma state_insert_id (s : state T) this R :
  objs s !! this = Some R → mkState (heap s) (<[this := R]> (objs s)) (cout s) = s.
Proof. intros Hobj. rewrite insert_id by done. by destruct s. Qed.

Lemma pop_front_ring_nil (s : state T) this R :
  objs s !! this = Some R → ring_rep (heap s) R [] →
  pop_front NDEBUG this s = Ok false s.
Proof. intros Hobj (_ & _ & Hh & _). simpl in Hh. unfold pop_front. run. done. Qed.

Lemma pop_front_ring (s : state T) this R (ns : cells) c0 rest :
  objs s !! this = Some R → ring_rep (heap s) R ns → ns = c0 :: rest →
  ∃ h' R',
    pop_front NDEBUG this s = Ok true (mkState h' (<[this := R']> (objs s)) (cout s)) ∧
    ring_rep h' R' rest ∧
    (∀ l', l' ∉ ns.*1 → h' !! l' = heap s !! l') ∧
    h' !! c0.1 = None.
Proof.
  intros Hobj Hrep Hns. pose proof Hrep as (Hnd & Hsz & Hh & Ht & Hch).
  rewrite Hns in Hh, Hch, Hnd. simpl in Hh. destruct Hch as [Hc0 Hrest].
  simpl in Hnd. apply NoDup_cons in Hnd as [Hc0nin Hndrest].
  unfold pop_front. destruct (last rest) as [ct|] eqn:Hlast.
  - assert (last ns = Some ct) as Hlast'.
    { rewrite Hns. destruct rest; [done|]. by rewrite last_cons, Hlast. }
    destruct (tail_rep_live _ _ _ Hrep ct Hlast') as [Ht' Hct].
    destruct (last_snoc_inv _ _ Hlast) as [a Ha].
    assert (ct.1 ∈ rest.*1) as Hctin.
    { rewrite Ha, fmap_app. apply elem_of_app. right. apply list_elem_of_here. }
    assert (c0.1 ≠ ct.1) as Hne by (by intros Heq; rewrite Heq in Hc0nin).
    assert (hd_loc rest (Some c0.1) = hd_loc rest None) as Hhd by (by destruct rest).
    run. rewrite !insert_insert_eq.
    match goal with
    | |- context [debug_check _ this (mkState ?h (<[this := ?R']> _) _)] =>
        assert (ring_rep h R' rest) as Hrep'
    end.
    { split_and!; simpl; try done.
      - rewrite Hsz, Hns. simpl. lia.
      - by rewrite Hlast.
      - apply chain_delete_notin; [done|]. rewrite Hhd.
        assert ((ct.1 ∉ a.*1) ∧ NoDup (a.*1)) as [Hcta _] by (apply NoDup_snoc_fst; by rewrite <- Ha).
        rewrite Ha. apply chain_snoc_set with (q := Some c0.1); [|done]. by rewrite <- Ha. }
    erewrite debug_check_rep; [|simpl; apply lookup_insert_eq|exact Hrep'].
    eexists _, _. split; [reflexivity|]. split; [exact Hrep'|]. split.
    + intros l' Hl'. rewrite Hns in Hl'. simpl in Hl'. apply not_elem_of_cons in Hl' as [Hl'0 Hl'].
      rewrite lookup_delete_ne by done. rewrite lookup_insert_ne; [done|]. by intros <-.
    + apply lookup_delete_eq.
  - apply last_None in Hlast. subst rest. rewrite Hns in Ht. simpl in Ht.
    run. rewrite !insert_insert_eq.
    erewrite debug_check_rep; [|simpl; apply lookup_insert_eq|apply ring_rep_nil].
    eexists _, _. split; [reflexivity|]. split; [apply ring_rep_nil|]. split.
    + intros l' Hl'. rewrite Hns in Hl'. simpl in Hl'. apply not_elem_of_cons in Hl' as [Hl'0 _].
      by rewrite lookup_delete_ne.
    + apply lookup_delete_eq.
Qed.

Lemma rotate_ring_small (s : state T) this R (ns : cells) :
  objs s !! this = Some R → ring_rep (heap s) R ns → length ns ≤ 1 →
  rotate NDEBUG this s = Ok () s.
Proof.
  intros Hobj (_ & _ & Hh & Ht & _) Hlen. unfold rotate.
  destruct ns as [|c0 [|c1 rest]]; simpl in *; [| |lia]; run; done.
Qed.

Lemma rotate_ring (s : state T) this R (ns : cells) c0 c1 rest :
  objs s !! this = Some R → ring_rep (heap s) R ns → ns = c0 :: c1 :: rest →
  ∃ R',
    rotate NDEBUG this s = Ok () (mkState (heap s) (<[this := R']> (objs s)) (cout s)) ∧
    ring_rep (heap s) R' (c1 :: rest ++ [c0]) ∧
    head_ R' = Some c1.1 ∧ tail_ R' = Some c0.1 ∧ sz_ R' = sz_ R.
Proof.
  intros Hobj Hrep Hns. pose proof Hrep as (Hnd & Hsz & Hh & Ht & Hch).
  destruct (last ns) as [ct|] eqn:Hlast; [|apply last_None in Hlast; by rewrite Hns in Hlast].
  destruct (tail_rep_live _ _ _ Hrep ct Hlast) as [Ht' Hct].
  rewrite Hns in Hh, Hch, Hnd. simpl in Hh. destruct Hch as [Hc0 Hrest].
  change (c0 :: c1 :: rest)  with ([c0] ++ (c1 :: rest)) in Hnd.
  rewrite fmap_app in Hnd. apply NoDup_app in Hnd as (_ & Hdisj & Hndrest).
  assert (c0.1 ∉ (c1 :: rest).*1) as Hc0nin.
  { intros Hin. apply (Hdisj c0.1); [apply list_elem_of_here|done]. }
  assert (c0.1 ≠ ct.1) as Hne.
  { intros Heq. apply Hc0nin. rewrite Heq. rewrite Hns in Hlast.
    rewrite last_cons in Hlast. destruct (last (c1 :: rest)) as [c|] eqn:Hl; [|by apply last_None in Hl].
    injection Hlast as ->. apply last_snoc_inv in Hl as [a ->].
    rewrite fmap_app. apply elem_of_app. right. apply list_elem_of_here. }
  unfold rotate. run. rewrite !insert_insert_eq.
  match goal with
  | |- context [debug_check _ this (mkState ?h (<[this := ?R']> _) _)] =>
      assert (ring_rep h R' (c1 :: rest ++ [c0])) as Hrep'
  end.
  { split_and!; try done.
    - change (c1 :: rest ++ [c0]) with ((c1 :: rest) ++ [c0]).
      rewrite fmap_app. apply NoDup_app. split_and!; [done| |apply NoDup_singleton].
      intros x Hx Hx'. apply list_elem_of_singleton in Hx'. simpl in Hx'. by subst x.
    - simpl. rewrite Hsz, Hns, length_app. simpl. lia.
    - change (c1 :: rest ++ [c0]) with ((c1 :: rest) ++ [c0]). simpl tail_. by rewrite last_snoc.
    - change (c1 :: rest ++ [c0]) with ((c1 :: rest) ++ [c0]).
      apply chain_app. simpl. simpl in Hrest, Hc0. tauto. }
  erewrite debug_check_rep; [|simpl; apply lookup_insert_eq|exact Hrep'].
  eexists. split; [reflexivity|]. split; [exact Hrep'|]. done.
Qed.

Lemma clear_ring (s : state T) this R (ns : cells) :
  objs s !! this = Some R → ring_rep (heap s) R ns →
  clear this s =
    Ok () (mkState (free_cells ns.*1 (heap s)) (<[this := mkList None None 0]> (objs s)) (cout s)).
Proof.
  intros Hobj Hrep. pose proof Hrep as (Hnd & Hsz & Hh & Ht & Hch). unfold clear.
  destruct ns as [|c0 rest].
  - simpl in Hh. run. rewrite (ring_rep_inj _ _ _ _ _ (ring_rep_nil (heap s)) Hrep).
    by rewrite state_insert_id.
  - simpl in Hh. run. rewrite Hsz.
    change (Some c0.1) with (hd_loc (c0 :: rest) (Some c0.1)).
    rewrite clear_loop_chain by done. run. by rewrite !insert_insert_eq.
Qed.

End Mutators.
(** * Merging and splitting represented rings *)

Section Splice.
Context {T : Type}.
Variable NDEBUG : bool.

Local Abbreviation cells := (list (loc * T)).

Lemma bind_eq {A B} (m : M T A) (k : A → M T B) s a s' :
  m s = Ok a s' → bind m k s = k a s'.
Proof. intros Hm. unfold bind. by rewrite Hm. Qed.

Lemma get_head_obj (s : state T) r R : objs s !! r = Some R → get_head r s = Ok (head_ R) s.
Proof. intros Hobj. run. done. Qed.

Lemma get_tail_obj (s : state T) r R : objs s !! r = Some R → get_tail r s = Ok (tail_ R) s.
Proof. intros Hobj. run. done. Qed.

Lemma get_sz_obj (s : state T) r R : objs s !! r = Some R → get_sz r s = Ok (sz_ R) s.
Proof. intros Hobj. run. done. Qed.

Lemma clear_empty_obj (s : state T) r R :
  objs s !! r = Some R → head_ R = None → clear r s = Ok () s.
Proof. intros Hobj Hh. unfold clear. run. done. Qed.

(** A ring of two or more cells, cut after its midpoint. *)
Lemma ring_halves (ns : cells) :
  2 ≤ length ns →
  ∃ a cm b ct, ns = a ++ [cm] ++ b ++ [ct] ∧ length a = (length ns - 1) / 2.
Proof.
  intros Hlen. set (m := (length ns - 1) / 2).
  assert (m + 1 < length ns) as Hm.
  { unfold m. assert ((length ns - 1) / 2 ≤ (length ns - 1)) by (apply Nat.Div0.div_le_upper_bound; lia).
    destruct (decide (length ns = 2)) as [->|]; [simpl; lia|].
    assert ((length ns - 1) / 2 < length ns - 1); [|lia].
    apply Nat.Div0.div_lt_upper_bound; lia. }
  destruct (lookup_lt_is_Some_2 ns m) as [cm Hcm]; [lia|].
  destruct (last (drop (S m) ns)) as [ct|] eqn:Hlast.
  - apply last_Some in Hlast as [b Hb]. exists (take m ns), cm, b, ct. split.
    + rewrite <- (take_drop_middle ns m cm Hcm) at 1. simpl. by rewrite Hb.
    + rewrite length_take. lia.
  - apply last_None in Hlast. apply (f_equal length) in Hlast.
    rewrite length_drop in Hlast. simpl in Hlast. lia.
Qed.

Lemma mergeWith_ring (s : state T) this other A B (nsA nsB : cells) :
  this ≠ other →
  objs s !! this = Some A → objs s !! other = Some B →
  ring_rep (heap s) A nsA → ring_rep (heap s) B nsB →
  (∀ l, l ∈ nsA.*1 → l ∉ nsB.*1) →
  ∃ h' A',
    mergeWith NDEBUG this other s =
      Ok () (mkState h' (<[other := mkList None None 0]> (<[this := A']> (objs s))) (cout s)) ∧
    ring_rep h' A' (nsA ++ nsB) ∧
    (∀ l', l' ∉ nsA.*1 → l' ∉ nsB.*1 → h' !! l' = heap s !! l') ∧
    (nsA = [] → h' = heap s).
Proof.
  intros Hne HA HB HrA HrB Hdisj.
  pose proof HrA as (HndA & HszA & HhA & HtA & HchA).
  pose proof HrB as (HndB & HszB & HhB & HtB & HchB).
  unfold mergeWith. destruct (last nsB) as [cb|] eqn:HlastB.
  2:{ apply last_None in HlastB. subst nsB. simpl in HhB. run.
      exists (heap s), A. rewrite app_nil_r. split; [|done].
      rewrite (insert_id (objs s) this A) by done.
      rewrite (ring_rep_inj _ _ _ _ _ (ring_rep_nil (heap s)) HrB).
      by rewrite state_insert_id. }
  destruct (tail_rep_live _ _ _ HrB cb HlastB) as [HtB' Hcb].
  destruct nsB as [|b0 nsB0] eqn:HnsB; [done|]. rewrite <- HnsB in *.
  assert (head_ B = Some b0.1) as HhB' by (by rewrite HhB, HnsB).
  destruct (last nsA) as [ca|] eqn:HlastA.
  - destruct (tail_rep_live _ _ _ HrA ca HlastA) as [HtA' Hca].
    destruct nsA as [|a0 nsA0] eqn:HnsA; [done|]. rewrite <- HnsA in *.
    assert (head_ A = Some a0.1) as HhA' by (by rewrite HhA, HnsA).
    destruct (last_snoc_inv _ _ HlastA) as [a Ha].
    destruct (last_snoc_inv _ _ HlastB) as [b Hb].
    assert (ca.1 ∈ nsA.*1) as Hcain.
    { rewrite Ha, fmap_app. apply elem_of_app. right. apply list_elem_of_here. }
    assert (cb.1 ∈ nsB.*1) as Hcbin.
    { rewrite Hb, fmap_app. apply elem_of_app. right. apply list_elem_of_here. }
    assert (ca.1 ≠ cb.1) as Hneab by (intros Heq; apply (Hdisj _ Hcain); by rewrite Heq).
    run. rewrite !insert_insert_eq.
    match goal with
    | |- context [debug_check _ this (mkState ?h (<[other := _]> (<[this := ?R']> _)) _)] =>
        assert (ring_rep h R' (nsA ++ nsB)) as Hrep'
    end.
    { assert ((ca.1 ∉ a.*1) ∧ NoDup (a.*1)) as [Hcaa _] by (apply NoDup_snoc_fst; by rewrite <- Ha).
      assert ((cb.1 ∉ b.*1) ∧ NoDup (b.*1)) as [Hcbb _] by (apply NoDup_snoc_fst; by rewrite <- Hb).
      split_and!.
      - rewrite fmap_app. apply NoDup_app. by split_and!.
      - simpl. rewrite length_app. lia.
      - simpl. rewrite hd_loc_app, HnsA. done.
      - simpl. rewrite Hb, app_assoc, last_snoc. done.
      - rewrite hd_loc_app. replace (hd_loc nsA _) with (Some a0.1) by (by rewrite HnsA).
        apply chain_app. replace (hd_loc nsB (Some a0.1)) with (Some b0.1) by (by rewrite HnsB).
        split.
        + apply chain_insert_notin; [intros Hin; by apply (Hdisj cb.1)|].
          rewrite Ha. apply chain_snoc_set with (q := hd_loc nsA None); [|done].
          by rewrite <- Ha.
        + rewrite Hb. apply chain_snoc_set with (q := hd_loc nsB None); [|done].
          rewrite <- Hb. apply chain_insert_notin; [|done]. intros Hin. by apply (Hdisj ca.1). }
    erewrite debug_check_rep;
      [|simpl; rewrite lookup_insert_ne by done; apply lookup_insert_eq|exact Hrep'].
    eexists _, _. split; [reflexivity|]. split; [exact Hrep'|]. split; [|by rewrite HnsA].
    intros l' HlA HlB. rewrite !lookup_insert_ne; [done|by intros <-|by intros <-].
  - apply last_None in HlastA. subst nsA. simpl in HhA. run. rewrite !insert_insert_eq.
    eexists _, _. split; [reflexivity|]. split; [|done].
    simpl. split_and!; simpl; [done|done|by rewrite HnsB|by rewrite HlastB|done].
Qed.

(** The adjustment after the loop (line 166) leaves [fast] on the tail. *)
Lemma split_fast_tail (s : state T) (ns : cells) :
  chain (heap s) ns (hd_loc ns None) → NoDup ns.*1 → 2 ≤ length ns →
  ∃ fn fnn,
    get_next (cell_at ns (2 * ((length ns - 1) / 2))) s = Ok fn s ∧
    get_next fn s = Ok fnn s ∧
    (if ptr_eqb fnn (cell_at ns 0) then fn else cell_at ns (2 * ((length ns - 1) / 2)))
      = cell_at ns (length ns - 1).
Proof.
  intros Hch Hnd Hlen. set (n := length ns). set (m := (n - 1) / 2).
  assert (n - 1 = 2 * m + (n - 1) mod 2) as Hdiv by (apply Nat.div_mod_eq).
  assert ((n - 1) mod 2 < 2) as Hmod by (apply Nat.mod_upper_bound; lia).
  destruct (decide ((n - 1) mod 2 = 0)) as [Hev|Hodd].
  - (* 2m = n - 1: [fast] already is the tail *)
    assert (2 * m = n - 1) as H2m by lia. rewrite H2m.
    eexists _, _. split; [apply get_next_ring; [done|fold n; lia]|].
    fold n. rewrite decide_False by lia.
    split; [apply get_next_ring; [done|fold n; lia]|].
    fold n. rewrite decide_True by lia. unfold ptr_eqb. rewrite bool_decide_false; [done|].
    intros Heq. apply cell_at_inj in Heq; [lia|done|fold n; lia].
  - assert (2 * m = n - 2) as H2m by lia. rewrite H2m.
    eexists _, _. split; [apply get_next_ring; [done|fold n; lia]|].
    fold n. rewrite decide_True by lia.
    split; [apply get_next_ring; [done|fold n; lia]|].
    fold n. rewrite decide_False by lia. unfold ptr_eqb. rewrite bool_decide_true by done.
    f_equal. lia.
Qed.

(** The cells of a ring of two or more, cut after the midpoint, and the
    two rings that re-pointing the two cut cells makes of them. *)
Lemma ring_cut h R (ns : cells) :
  ring_rep h R ns → 2 ≤ length ns →
  ∃ (a : cells) cm (b : cells) ct (c0 : loc * T),
    take ((length ns + 1) / 2) ns = a ++ [cm] ∧
    drop ((length ns + 1) / 2) ns = b ++ [ct] ∧
    hd_loc ns None = Some c0.1 ∧
    cell_at ns ((length ns - 1) / 2) = Some cm.1 ∧
    cell_at ns (length ns - 1) = Some ct.1 ∧
    h !! cm.1 = Some (mkNode cm.2 (hd_loc (b ++ [ct]) (Some c0.1))) ∧
    h !! ct.1 = Some (mkNode ct.2 (Some c0.1)) ∧
    cm.1 ≠ ct.1 ∧
    let h' := <[ct.1 := mkNode ct.2 (hd_loc (b ++ [ct]) (Some c0.1))]>
                (<[cm.1 := mkNode cm.2 (Some c0.1)]> h) in
    ring_rep h' (mkList (Some c0.1) (Some cm.1) ((length ns + 1) / 2)) (a ++ [cm]) ∧
    ring_rep h' (mkList (hd_loc (b ++ [ct]) (Some c0.1)) (Some ct.1)
                   (length ns - (length ns + 1) / 2)) (b ++ [ct]) ∧
    (∀ l', l' ∉ ns.*1 → h' !! l' = h !! l').
Proof.
  intros (Hnd & Hsz & Hh & Ht & Hch) Hlen.
  destruct (ring_halves ns Hlen) as (a & cm & b & ct & Hsplit & Hlena).
  set (m := (length ns - 1) / 2) in *.
  assert ((length ns + 1) / 2 = m + 1) as Hk.
  { unfold m. replace (length ns + 1) with ((length ns - 1) + 1 * 2) by lia.
    by rewrite Nat.div_add by lia. }
  assert (∃ c0 : loc * T, hd_loc ns None = Some c0.1) as [c0 Hhd].
  { destruct ns as [|c0 ?]; [simpl in Hlen; lia|]. by exists c0. }
  exists a, cm, b, ct, c0. rewrite Hk.
  assert (take (m + 1) ns = a ++ [cm]) as Htake.
  { rewrite Hsplit, app_assoc. rewrite take_app_length'; [done|].
    rewrite length_app. simpl. lia. }
  assert (drop (m + 1) ns = b ++ [ct]) as Hdrop.
  { rewrite Hsplit, app_assoc. rewrite drop_app_length'; [done|].
    rewrite length_app. simpl. lia. }
  assert (NoDup ((a ++ [cm]).*1 ++ (b ++ [ct]).*1)) as Hnd'.
  { rewrite <- fmap_app, <- app_assoc. by rewrite <- Hsplit. }
  apply NoDup_app in Hnd' as (Hnd1 & Hdisj & Hnd2).
  destruct (NoDup_snoc_fst _ _ Hnd1) as [Hcma _].
  destruct (NoDup_snoc_fst _ _ Hnd2) as [Hctb _].
  assert (cm.1 ∈ (a ++ [cm]).*1) as Hcmin.
  { rewrite fmap_app. apply elem_of_app. right. apply list_elem_of_here. }
  assert (ct.1 ∈ (b ++ [ct]).*1) as Hctin.
  { rewrite fmap_app. apply elem_of_app. right. apply list_elem_of_here. }
  assert (cm.1 ≠ ct.1) as Hnemt by (intros Heq; apply (Hdisj _ Hcmin); by rewrite Heq).
  assert (chain h (a ++ [cm]) (hd_loc (b ++ [ct]) (Some c0.1)) ∧
          chain h (b ++ [ct]) (Some c0.1)) as [Hch1 Hch2].
  { rewrite Hhd in Hch. rewrite Hsplit, app_assoc in Hch. by apply chain_app in Hch. }
  assert (hd_loc (a ++ [cm]) None = Some c0.1) as Hhd1.
  { rewrite <- Hhd, Hsplit. by destruct a. }
  pose proof Hch1 as Hch1'. apply chain_app in Hch1' as [_ [Hcmlive _]].
  pose proof Hch2 as Hch2'. apply chain_app in Hch2' as [_ [Hctlive _]].
  simpl in Hcmlive, Hctlive.
  split; [done|]. split; [done|]. split; [done|].
  split. { unfold cell_at. rewrite Hsplit. rewrite lookup_app_r by lia.
           by replace (m - length a) with 0 by lia. }
  split. { unfold cell_at. rewrite Hsplit at 2. rewrite !app_assoc.
           rewrite lookup_app_r by (rewrite Hsplit, !length_app; simpl; lia).
           replace (_ - _) with 0; [done|]. rewrite Hsplit, !length_app. simpl. lia. }
  split; [done|]. split; [done|]. split; [done|]. simpl. split_and!.
  - split_and!; simpl; try done.
    + rewrite length_app, Hlena. simpl. lia.
    + by rewrite last_snoc.
    + rewrite Hhd1. apply chain_insert_notin; [intros Hin; by apply (Hdisj ct.1)|].
      by apply chain_snoc_set with (q := hd_loc (b ++ [ct]) (Some c0.1)).
  - split_and!; simpl; try done.
    + rewrite Hsplit, !length_app. simpl. lia.
    + by destruct b.
    + by rewrite last_snoc.
    + replace (hd_loc (b ++ [ct]) None) with (hd_loc (b ++ [ct]) (Some c0.1)) by (by destruct b).
      apply chain_snoc_set with (q := Some c0.1); [|done].
      apply chain_insert_notin; [|done]. intros Hin. by apply (Hdisj cm.1).
  - intros l' Hl'. rewrite Hsplit, app_assoc, fmap_app in Hl'.
    apply not_elem_of_app in Hl' as [Hl1 Hl2].
    rewrite !lookup_insert_ne; [done|by intros <-|by intros <-].
Qed.

(** With cleared outputs, a ring of two or more reaches the relinking
    with [slow] on the midpoint. *)
Lemma splitIntoTwo_to_relink (s : state T) fuel this first second R F S (ns : cells) :
  objs s !! this = Some R → objs s !! first = Some F → objs s !! second = Some S →
  ring_rep (heap s) R ns → head_ F = None → head_ S = None →
  2 ≤ length ns → (length ns - 1) / 2 ≤ fuel →
  splitIntoTwo fuel this first second s =
    split_relink this first second
      (cell_at ns ((length ns - 1) / 2)) (cell_at ns (2 * ((length ns - 1) / 2))) s.
Proof.
  intros HR HF HS (Hnd & Hsz & Hh & Ht & Hch) HhF HhS Hlen Hfuel.
  unfold splitIntoTwo.
  rewrite (bind_eq _ _ _ _ _ (clear_empty_obj s first F HF HhF)).
  rewrite (bind_eq _ _ _ _ _ (clear_empty_obj s second S HS HhS)).
  rewrite (bind_eq _ _ _ _ _ (get_head_obj s this R HR)).
  assert (hd_loc ns None = cell_at ns 0) as Hhd by apply hd_loc_cell_at.
  assert (is_null (cell_at ns 0) = false) as Hnn.
  { destruct ns; [simpl in Hlen; lia|done]. }
  rewrite Hh, Hhd, Hnn.
  rewrite (bind_eq _ _ _ _ _ (get_sz_obj s this R HR)).
  rewrite bool_decide_false by lia.
  pose proof (split_loop_ring s ns fuel 0 Hch Hnd) as Hloop.
  rewrite Nat.mul_0_r in Hloop.
  by rewrite (bind_eq _ _ _ _ _ (Hloop ltac:(lia) ltac:(lia))).
Qed.

(** The relinking, whether or not [first] and [second] are one object. *)
Lemma split_relink_run (s : state T) this first second R F S (ns : cells) :
  this ≠ first → this ≠ second →
  objs s !! this = Some R → objs s !! first = Some F → objs s !! second = Some S →
  ring_rep (heap s) R ns → 2 ≤ length ns →
  ∃ h' F' S',
    split_relink this first second
      (cell_at ns ((length ns - 1) / 2)) (cell_at ns (2 * ((length ns - 1) / 2))) s =
      Ok () (mkState h'
               (<[this := mkList None None 0]> (<[second := S']> (<[first := F']> (objs s))))
               (cout s)) ∧
    ring_rep h' F' (take ((length ns + 1) / 2) ns) ∧
    ring_rep h' S' (drop ((length ns + 1) / 2) ns) ∧
    (∀ l', l' ∉ ns.*1 → h' !! l' = heap s !! l').
Proof.
  intros Hn1 Hn2 HR HF HS Hrep Hlen. pose proof Hrep as (Hnd & Hsz & Hh & Ht & Hch).
  destruct (ring_cut (heap s) R ns Hrep Hlen)
    as (a & cm & b & ct & c0 & Htake & Hdrop & Hhd & Hcm & Hct & Hcmlive & Hctlive & Hne
        & HrF & HrS & Hframe).
  unfold split_relink.
  rewrite (bind_eq _ _ _ _ _ (get_head_obj s this R HR)). rewrite Hh.
  destruct (split_fast_tail s ns Hch Hnd Hlen) as (fn & fnn & Hfn & Hfnn & Hfast).
  rewrite (bind_eq _ _ _ _ _ Hfn), (bind_eq _ _ _ _ _ Hfnn).
  rewrite <- hd_loc_cell_at in Hfast. rewrite Hfast. clear fn fnn Hfn Hfnn Hfast.
  rewrite Hcm, Hct, Hhd, Htake, Hdrop.
  eexists _, _, _. split; [|split; [exact HrF|split; [exact HrS|exact Hframe]]].
  destruct (decide (first = second)) as [<-|Hn3].
  - run. rewrite !insert_insert_eq.
    change (fst (Nat.divmod (sz_ R + 1) 1 0 1)) with ((sz_ R + 1) / 2).
    by rewrite Hsz.
  - run. rewrite !insert_insert_eq.
    change (fst (Nat.divmod (sz_ R + 1) 1 0 1)) with ((sz_ R + 1) / 2).
    by rewrite Hsz.
Qed.

Lemma splitIntoTwo_ring_clean (s : state T) fuel this first second R F S (ns : cells) :
  this ≠ first → this ≠ second → first ≠ second →
  objs s !! this = Some R → objs s !! first = Some F → objs s !! second = Some S →
  ring_rep (heap s) R ns → ring_rep (heap s) F [] → ring_rep (heap s) S [] →
  (length ns - 1) / 2 ≤ fuel →
  ∃ h' F' S',
    splitIntoTwo fuel this first second s =
      Ok () (mkState h'
               (<[this := mkList None None 0]> (<[second := S']> (<[first := F']> (objs s))))
               (cout s)) ∧
    ring_rep h' F' (take ((length ns + 1) / 2) ns) ∧
    ring_rep h' S' (drop ((length ns + 1) / 2) ns) ∧
    (∀ l', l' ∉ ns.*1 → h' !! l' = heap s !! l').
Proof.
  intros Hn1 Hn2 Hn3 HR HF HS Hrep HrF HrS Hfuel.
  pose proof Hrep as (Hnd & Hsz & Hh & Ht & Hch).
  pose proof HrF as (_ & _ & HhF & _). pose proof HrS as (_ & _ & HhS & _).
  simpl in HhF, HhS.
  destruct (decide (2 ≤ length ns)) as [Hlen|Hlen].
  { rewrite (splitIntoTwo_to_relink s fuel this first second R F S ns) by done.
    by apply (split_relink_run s this first second R F S ns). }
  unfold splitIntoTwo.
  rewrite (bind_eq _ _ _ _ _ (clear_empty_obj s first F HF HhF)).
  rewrite (bind_eq _ _ _ _ _ (clear_empty_obj s second S HS HhS)).
  rewrite (bind_eq _ _ _ _ _ (get_head_obj s this R HR)).
  destruct ns as [|c0 [|c1 rest]] eqn:Hns; [| |simpl in Hlen; lia].
  - (* n = 0 *)
    rewrite Hh. simpl. exists (heap s), F, S. split; [|by split_and!].
    unfold ret. f_equal. rewrite (insert_id (objs s) first) by done.
    rewrite (insert_id (objs s) second) by done.
    rewrite (ring_rep_inj _ _ _ _ _ (ring_rep_nil (heap s)) Hrep). by rewrite state_insert_id.
  - (* n = 1 *)
    rewrite Hh. cbn [hd_loc is_null]. simpl in Ht, Hsz, Hh.
    destruct Hch as [Hc0 _]. simpl in Hc0.
    rewrite (bind_eq _ _ _ _ _ (get_sz_obj s this R HR)). rewrite Hsz.
    rewrite bool_decide_true by done. run. rewrite !insert_insert_eq.
    eexists _, _, S. split.
    { do 2 f_equal. rewrite (insert_id _ second S); [done|].
      by rewrite lookup_insert_ne. }
    split_and!.
    + split_and!; simpl; try done. split; [|done]. by rewrite lookup_insert_eq.
    + destruct HrS as (? & ? & ? & ? & _). by split_and!.
    + intros l' Hl'. simpl in Hl'. apply not_elem_of_cons in Hl' as [Hl' _].
      by rewrite lookup_insert_ne.
Qed.

(** [first] and [second] one object: it ends up with the second half,
    or with the single cell of a ring of one. *)
Lemma splitIntoTwo_ring_clean_same (s : state T) fuel this out R F (ns : cells) :
  this ≠ out →
  objs s !! this = Some R → objs s !! out = Some F →
  ring_rep (heap s) R ns → ring_rep (heap s) F [] →
  (length ns - 1) / 2 ≤ fuel →
  ∃ h' F',
    splitIntoTwo fuel this out out s =
      Ok () (mkState h' (<[this := mkList None None 0]> (<[out := F']> (objs s))) (cout s)) ∧
    ring_rep h' F' (if decide (2 ≤ length ns) then drop ((length ns + 1) / 2) ns else ns) ∧
    (∀ l', l' ∉ ns.*1 → h' !! l' = heap s !! l').
Proof.
  intros Hn1 HR HF Hrep HrF Hfuel.
  pose proof Hrep as (Hnd & Hsz & Hh & Ht & Hch).
  pose proof HrF as (_ & _ & HhF & _). simpl in HhF.
  destruct (decide (2 ≤ length ns)) as [Hlen|Hlen].
  { rewrite (splitIntoTwo_to_relink s fuel this out out R F F ns) by done.
    destruct (split_relink_run s this out out R F F ns Hn1 Hn1 HR HF HF Hrep Hlen)
      as (h' & F' & S' & Hrun & _ & HrS' & Hframe).
    exists h', S'. rewrite insert_insert_eq in Hrun. done. }
  unfold splitIntoTwo.
  rewrite (bind_eq _ _ _ _ _ (clear_empty_obj s out F HF HhF)).
  rewrite (bind_eq _ _ _ _ _ (clear_empty_obj s out F HF HhF)).
  rewrite (bind_eq _ _ _ _ _ (get_head_obj s this R HR)).
  destruct ns as [|c0 [|c1 rest]] eqn:Hns; [| |simpl in Hlen; lia].
  - rewrite Hh. simpl. exists (heap s), F. split; [|by split_and!].
    unfold ret. f_equal. rewrite (insert_id (objs s) out) by done.
    rewrite (ring_rep_inj _ _ _ _ _ (ring_rep_nil (heap s)) Hrep). by rewrite state_insert_id.
  - rewrite Hh. cbn [hd_loc is_null]. simpl in Ht, Hsz, Hh.
    destruct Hch as [Hc0 _]. simpl in Hc0.
    rewrite (bind_eq _ _ _ _ _ (get_sz_obj s this R HR)). rewrite Hsz.
    rewrite bool_decide_true by done. run. rewrite !insert_insert_eq.
    eexists _, _. split; [reflexivity|]. split.
    + split_and!; simpl; try done. split; [|done]. by rewrite lookup_insert_eq.
    + intros l' Hl'. simpl in Hl'. apply not_elem_of_cons in Hl' as [Hl' _].
      by rewrite lookup_insert_ne.
Qed.

End Splice.
(** * Well-formed states *)

Section Abs.
Context {T : Type}.

Local Abbreviation cells := (list (loc * T)).


Lemma abs_is_Some own (s : state T) r :
  abs own s → is_Some (objs s !! r) → is_Some (own !! r).
Proof.
  intros (Hnone & _ & _) [R HR]. destruct (own !! r) eqn:Ho; [eauto|].
  rewrite (Hnone r Ho) in HR. done.
Qed.

Lemma abs_rep own (s : state T) r ns :
  abs own s → own !! r = Some ns → ∃ R, objs s !! r = Some R ∧ ring_rep (heap s) R ns.
Proof. intros (_ & Hrep & _). apply Hrep. Qed.

Lemma abs_disjoint own (s : state T) r r' ns ns' l :
  abs own s → r ≠ r' → own !! r = Some ns → own !! r' = Some ns' → l ∈ ns.*1 → l ∉ ns'.*1.
Proof. intros (_ & _ & Hd). apply Hd. Qed.

Lemma abs_live own (s : state T) r ns l :
  abs own s → own !! r = Some ns → l ∈ ns.*1 → is_Some (heap s !! l).
Proof.
  intros Habs Ho Hl. destruct (abs_rep _ _ _ _ Habs Ho) as (R & _ & (_ & _ & _ & _ & Hch)).
  by eapply chain_live.
Qed.

(** Changing the objects in [touched] and only cells they owned (or
    fresh ones) keeps the state well-formed. *)
Lemma abs_frame (touched : list rid) own own' (s s' : state T) :
  abs own s →
  (∀ r, r ∉ touched → own' !! r = own !! r ∧ objs s' !! r = objs s !! r) →
  (∀ r, r ∈ touched →
     ∃ ns' R', own' !! r = Some ns' ∧ objs s' !! r = Some R' ∧ ring_rep (heap s') R' ns') →
  (∀ l, (∀ r ns, r ∈ touched → own !! r = Some ns → l ∉ ns.*1) →
     is_Some (heap s !! l) → heap s' !! l = heap s !! l) →
  (∀ r ns' l, r ∈ touched → own' !! r = Some ns' → l ∈ ns'.*1 →
     heap s !! l = None ∨ ∃ r0 ns0, r0 ∈ touched ∧ own !! r0 = Some ns0 ∧ l ∈ ns0.*1) →
  (∀ r r' ns ns' l, r ∈ touched → r' ∈ touched → r ≠ r' →
     own' !! r = Some ns → own' !! r' = Some ns' → l ∈ ns.*1 → l ∉ ns'.*1) →
  abs own' s'.
Proof.
  intros Habs Hout Hin Hframe Horigin Hdisj.
  assert (∀ r ns l, r ∉ touched → own !! r = Some ns → l ∈ ns.*1 →
          ∀ r0 ns0, r0 ∈ touched → own !! r0 = Some ns0 → l ∉ ns0.*1) as Hsep.
  { intros r ns l Hr Ho Hl r0 ns0 Hr0 Ho0 Hl0.
    assert (r0 ≠ r) as Hne by (by intros ->).
    by apply (abs_disjoint _ _ _ _ _ _ _ Habs Hne Ho0 Ho Hl0). }
  assert (∀ r r' ns ns' l, r ∈ touched → r' ∉ touched →
          own' !! r = Some ns → own' !! r' = Some ns' → l ∈ ns.*1 → l ∉ ns'.*1) as Hmixed.
  { intros r r' ns ns' l Hr Hr' Ho Ho' Hl Hl'.
    destruct (Hout r' Hr') as [Heq _]. rewrite Heq in Ho'.
    destruct (Horigin r ns l Hr Ho Hl) as [Hfresh|(r0 & ns0 & Hr0 & Ho0 & Hl0)].
    - destruct (abs_live _ _ _ _ _ Habs Ho' Hl') as [n Hn]. congruence.
    - by apply (Hsep r' ns' l Hr' Ho' Hl' r0 ns0). }
  split_and!.
  - intros r Ho. destruct (decide (r ∈ touched)) as [Hr|Hr].
    + destruct (Hin r Hr) as (? & ? & Ho' & _). congruence.
    + destruct (Hout r Hr) as [Heq ->]. rewrite Heq in Ho. by apply (proj1 Habs).
  - intros r ns Ho. destruct (decide (r ∈ touched)) as [Hr|Hr].
    + destruct (Hin r Hr) as (ns' & R' & Ho' & HR' & Hrep'). exists R'.
      rewrite Ho in Ho'. by injection Ho' as ->.
    + destruct (Hout r Hr) as [Heq ->]. rewrite Heq in Ho.
      destruct (abs_rep _ _ _ _ Habs Ho) as (R & HR & Hrep). exists R. split; [done|].
      eapply ring_rep_frame; [|done]. intros l Hl. apply Hframe.
      * intros r0 ns0. by apply (Hsep r ns l).
      * by eapply abs_live.
  - intros r r' ns ns' l Hne Ho Ho' Hl.
    destruct (decide (r ∈ touched)) as [Hr|Hr], (decide (r' ∈ touched)) as [Hr'|Hr'].
    + by apply (Hdisj r r' ns ns' l).
    + by apply (Hmixed r r' ns ns' l).
    + intros Hl'. by apply (Hmixed r' r ns' ns l).
    + destruct (Hout r Hr) as [Heq _], (Hout r' Hr') as [Heq' _].
      rewrite Heq in Ho. rewrite Heq' in Ho'. by eapply abs_disjoint.
Qed.

(** One object replaced. *)
Lemma abs_update own (s : state T) this ns ns' h' R' c' :
  abs own s → own !! this = Some ns → ring_rep h' R' ns' →
  (∀ l, l ∉ ns.*1 → is_Some (heap s !! l) → h' !! l = heap s !! l) →
  (∀ l, l ∈ ns'.*1 → heap s !! l = None ∨ l ∈ ns.*1) →
  abs (<[this := ns']> own) (mkState h' (<[this := R']> (objs s)) c').
Proof.
  intros Habs Ho Hrep Hframe Horigin. apply (abs_frame [this] own _ s); [done|..].
  - intros r Hr. apply not_elem_of_cons in Hr as [Hr _]. simpl.
    by rewrite !lookup_insert_ne.
  - intros r Hr. apply list_elem_of_singleton in Hr as ->. exists ns', R'. simpl.
    by rewrite !lookup_insert_eq.
  - intros l Hl Hlive. simpl. apply Hframe; [|done]. apply (Hl this); [|done].
    apply list_elem_of_here.
  - intros r ns0 l Hr. apply list_elem_of_singleton in Hr as ->.
    rewrite lookup_insert_eq. intros [= <-] Hl.
    destruct (Horigin l Hl) as [?|?]; [by left|]. right. exists this, ns.
    split; [apply list_elem_of_here|done].
  - intros r r' ? ? ? Hr Hr' Hne. apply list_elem_of_singleton in Hr, Hr'. congruence.
Qed.

End Abs.
(** * The mutators on well-formed states *)

Section AbsOps.
Context {T : Type}.
Variable NDEBUG : bool.
Variable alloc : gmap loc (Node T) → option loc.

Local Abbreviation cells := (list (loc * T)).

Lemma append_abs own (s : state T) this ns l v :
  abs own s → own !! this = Some ns →
  alloc (heap s) = Some l → heap s !! l = None →
  ∃ s', append NDEBUG alloc this v s = Ok () s' ∧
        abs (<[this := ns ++ [(l, v)]]> own) s' ∧ cout s' = cout s.
Proof.
  intros Habs Ho Hal Hfresh. destruct (abs_rep _ _ _ _ Habs Ho) as (R & HR & Hrep).
  destruct (append_ring NDEBUG alloc s this R ns l v HR Hrep Hal Hfresh)
    as (h' & R' & Hrun & Hrep' & Hframe).
  eexists. split; [exact Hrun|]. split; [|done].
  eapply abs_update; [done..| |].
  - intros l' Hl' Hlive. apply Hframe; [done|]. intros ->. destruct Hlive. congruence.
  - intros l'. rewrite fmap_app. intros [Hl'|Hl']%elem_of_app; [by right|].
    apply list_elem_of_singleton in Hl'. simpl in Hl'. subst l'. by left.
Qed.

Lemma pop_front_abs_nil own (s : state T) this :
  abs own s → own !! this = Some [] → pop_front NDEBUG this s = Ok false s.
Proof.
  intros Habs Ho. destruct (abs_rep _ _ _ _ Habs Ho) as (R & HR & Hrep).
  by eapply pop_front_ring_nil.
Qed.

Lemma pop_front_abs own (s : state T) this c0 rest :
  abs own s → own !! this = Some (c0 :: rest) →
  ∃ s', pop_front NDEBUG this s = Ok true s' ∧
        abs (<[this := rest]> own) s' ∧ cout s' = cout s ∧ heap s' !! c0.1 = None.
Proof.
  intros Habs Ho. destruct (abs_rep _ _ _ _ Habs Ho) as (R & HR & Hrep).
  destruct (pop_front_ring NDEBUG s this R _ c0 rest HR Hrep eq_refl)
    as (h' & R' & Hrun & Hrep' & Hframe & Hgone).
  eexists. split; [exact Hrun|]. split; [|done].
  eapply abs_update; [done..| |].
  - intros l' Hl' _. by apply Hframe.
  - intros l' Hl'. right. simpl. by apply list_elem_of_further.
Qed.

Lemma rotate_abs_small own (s : state T) this ns :
  abs own s → own !! this = Some ns → length ns ≤ 1 → rotate NDEBUG this s = Ok () s.
Proof.
  intros Habs Ho Hlen. destruct (abs_rep _ _ _ _ Habs Ho) as (R & HR & Hrep).
  by eapply rotate_ring_small.
Qed.

Lemma rotate_abs own (s : state T) this c0 c1 rest :
  abs own s → own !! this = Some (c0 :: c1 :: rest) →
  ∃ s', rotate NDEBUG this s = Ok () s' ∧
        abs (<[this := c1 :: rest ++ [c0]]> own) s' ∧
        cout s' = cout s ∧ heap s' = heap s.
Proof.
  intros Habs Ho. destruct (abs_rep _ _ _ _ Habs Ho) as (R & HR & Hrep).
  destruct (rotate_ring NDEBUG s this R _ c0 c1 rest HR Hrep eq_refl)
    as (R' & Hrun & Hrep' & _).
  eexists. split; [exact Hrun|]. split; [|done].
  eapply abs_update; [done..| |].
  - done.
  - intros l' Hl'. right.
    change (c1 :: rest ++ [c0]) with ((c1 :: rest) ++ [c0]) in Hl'.
    rewrite fmap_app in Hl'. apply elem_of_app in Hl' as [Hl'|Hl'].
    + by apply list_elem_of_further.
    + apply list_elem_of_singleton in Hl'. subst l'. apply list_elem_of_here.
Qed.

Lemma clear_abs own (s : state T) this ns :
  abs own s → own !! this = Some ns →
  ∃ s', clear this s = Ok () s' ∧ abs (<[this := []]> own) s' ∧ cout s' = cout s ∧
        heap s' = free_cells ns.*1 (heap s) ∧
        objs s' = <[this := mkList None None 0]> (objs s).
Proof.
  intros Habs Ho. destruct (abs_rep _ _ _ _ Habs Ho) as (R & HR & Hrep).
  eexists. split; [by eapply clear_ring|]. split; [|done].
  eapply abs_update; [done..|apply ring_rep_nil| |].
  - intros l Hl _. rewrite lookup_free_cells. by rewrite decide_False.
  - intros l Hl. by apply not_elem_of_nil in Hl.
Qed.

Lemma mergeWith_other_empty (s : state T) this other B :
  objs s !! other = Some B → head_ B = None → mergeWith NDEBUG this other s = Ok () s.
Proof. intros HB Hh. unfold mergeWith. run. done. Qed.

Lemma mergeWith_abs own (s : state T) this other nsA nsB :
  this ≠ other → abs own s → own !! this = Some nsA → own !! other = Some nsB →
  ∃ s', mergeWith NDEBUG this other s = Ok () s' ∧
        abs (<[other := []]> (<[this := nsA ++ nsB]> own)) s' ∧
        cout s' = cout s ∧ (nsB = [] → s' = s) ∧ (nsA = [] → heap s' = heap s).
Proof.
  intros Hne Habs HoA HoB.
  destruct (abs_rep _ _ _ _ Habs HoA) as (A & HA & HrA).
  destruct (abs_rep _ _ _ _ Habs HoB) as (B & HB & HrB).
  assert (∀ l, l ∈ nsA.*1 → l ∉ nsB.*1) as Hdisj.
  { intros l. by apply (abs_disjoint _ _ _ _ _ _ _ Habs Hne HoA HoB). }
  destruct (mergeWith_ring NDEBUG s this other A B nsA nsB Hne HA HB HrA HrB Hdisj)
    as (h' & A' & Hrun & Hrep' & Hframe & Hsame).
  eexists. split; [exact Hrun|]. split_and!; [|done| |exact Hsame].
  - apply (abs_frame [this; other] own _ s); [done|..].
    + intros r Hr. apply not_elem_of_cons in Hr as [Hr1 Hr]. apply not_elem_of_cons in Hr as [Hr2 _].
      simpl. by simpl_ins.
    + intros r Hr. apply elem_of_cons in Hr as [->|Hr]; [|apply list_elem_of_singleton in Hr as ->].
      * exists (nsA ++ nsB), A'. simpl. by simpl_ins.
      * exists [], (mkList None None 0). simpl. simpl_ins.
        split_and!; try done. apply ring_rep_nil.
    + intros l Hl _. simpl. apply Hframe.
      * apply (Hl this); [apply list_elem_of_here|done].
      * apply (Hl other); [|done]. apply list_elem_of_further, list_elem_of_here.
    + intros r ns' l Hr Ho' Hl. right.
      apply elem_of_cons in Hr as [->|Hr]; [|apply list_elem_of_singleton in Hr as ->].
      * simpl_ins in Ho'. injection Ho' as <-.
        rewrite fmap_app in Hl. apply elem_of_app in Hl as [Hl|Hl].
        -- exists this, nsA. split; [apply list_elem_of_here|done].
        -- exists other, nsB. split; [apply list_elem_of_further, list_elem_of_here|done].
      * rewrite lookup_insert_eq in Ho'. injection Ho' as <-. by apply not_elem_of_nil in Hl.
    + intros r r' ns ns' l Hr Hr' Hrr Ho Ho' Hl Hl'.
      apply elem_of_cons in Hr as [->|Hr]; [|apply list_elem_of_singleton in Hr as ->].
      * apply elem_of_cons in Hr' as [->|Hr']; [done|apply list_elem_of_singleton in Hr' as ->].
        rewrite lookup_insert_eq in Ho'. injection Ho' as <-. by apply not_elem_of_nil in Hl'.
      * rewrite lookup_insert_eq in Ho. injection Ho as <-. by apply not_elem_of_nil in Hl.
  - intros ->. destruct HrB as (_ & _ & HhB & _). simpl in HhB.
    rewrite (mergeWith_other_empty s this other B HB HhB) in Hrun. by injection Hrun.
Qed.

Lemma splitIntoTwo_after_clear (s s1 s2 : state T) fuel this first second F S :
  clear first s = Ok () s1 → clear second s1 = Ok () s2 →
  objs s2 !! first = Some F → head_ F = None →
  objs s2 !! second = Some S → head_ S = None →
  splitIntoTwo fuel this first second s = splitIntoTwo fuel this first second s2.
Proof.
  intros H1 H2 HF HhF HS HhS. unfold splitIntoTwo.
  rewrite (bind_eq _ _ _ _ _ H1), (bind_eq _ _ _ _ _ H2).
  rewrite (bind_eq _ _ _ _ _ (clear_empty_obj s2 first F HF HhF)).
  by rewrite (bind_eq _ _ _ _ _ (clear_empty_obj s2 second S HS HhS)).
Qed.

Lemma splitIntoTwo_abs own (s : state T) fuel this first second ns nsF nsS :
  this ≠ first → this ≠ second → first ≠ second →
  abs own s → own !! this = Some ns → own !! first = Some nsF → own !! second = Some nsS →
  (length ns - 1) / 2 ≤ fuel →
  ∃ s', splitIntoTwo fuel this first second s = Ok () s' ∧
        abs (<[this := []]> (<[second := drop ((length ns + 1) / 2) ns]>
              (<[first := take ((length ns + 1) / 2) ns]> own))) s' ∧
        cout s' = cout s ∧
        (∀ l, l ∈ nsF.*1 ∨ l ∈ nsS.*1 → heap s' !! l = None).
Proof.
  intros Hn1 Hn2 Hn3 Habs Ho HoF HoS Hfuel.
  destruct (clear_abs own s first nsF Habs HoF) as (s1 & Hc1 & Habs1 & Hcout1 & Hheap1 & Hobjs1).
  assert (<[first := []]> own !! second = Some nsS) as HoS1 by (by simpl_ins).
  destruct (clear_abs _ s1 second nsS Habs1 HoS1) as (s2 & Hc2 & Habs2 & Hcout2 & Hheap2 & Hobjs2).
  set (own2 := <[second := []]> (<[first := []]> own)) in *.
  assert (own2 !! this = Some ns) as Ho2 by (unfold own2; by simpl_ins).
  assert (own2 !! first = Some []) as HoF2 by (unfold own2; by simpl_ins).
  assert (own2 !! second = Some []) as HoS2 by (unfold own2; by simpl_ins).
  destruct (abs_rep _ _ _ _ Habs2 Ho2) as (R & HR & Hrep).
  destruct (abs_rep _ _ _ _ Habs2 HoF2) as (F & HF & HrF).
  destruct (abs_rep _ _ _ _ Habs2 HoS2) as (S & HS & HrS).
  rewrite (splitIntoTwo_after_clear s s1 s2 fuel this first second F S Hc1 Hc2 HF
             (proj1 (proj2 (proj2 HrF))) HS (proj1 (proj2 (proj2 HrS)))).
  destruct (splitIntoTwo_ring_clean s2 fuel this first second R F S ns
              Hn1 Hn2 Hn3 HR HF HS Hrep HrF HrS Hfuel)
    as (h' & F' & S' & Hrun & HrF' & HrS' & Hframe).
  assert (∀ l, l ∈ nsF.*1 ∨ l ∈ nsS.*1 → (l ∉ ns.*1) ∧ heap s2 !! l = None) as Hfreed.
  { intros l Hl. split.
    - intros Hin. destruct Hl as [Hl|Hl].
      + by apply (abs_disjoint _ _ _ _ _ _ _ Habs Hn1 Ho HoF Hin).
      + by apply (abs_disjoint _ _ _ _ _ _ _ Habs Hn2 Ho HoS Hin).
    - rewrite Hheap2, Hheap1, !lookup_free_cells. destruct Hl as [Hl|Hl].
      + destruct (decide (l ∈ nsS.*1)); [done|]. by rewrite decide_True.
      + by rewrite decide_True. }
  eexists. split; [exact Hrun|]. split_and!.
  - apply (abs_frame [this; first; second] own2 _ s2); [done|..].
    + intros r Hr. apply not_elem_of_cons in Hr as [Hr1 Hr]. apply not_elem_of_cons in Hr as [Hr2 Hr].
      apply not_elem_of_cons in Hr as [Hr3 _]. unfold own2. simpl.
      by simpl_ins.
    + intros r Hr. apply elem_of_cons in Hr as [->|Hr]; [|apply elem_of_cons in Hr as [->|Hr]];
        [| |apply list_elem_of_singleton in Hr as ->]; simpl.
      * exists [], (mkList None None 0). simpl_ins.
        split_and!; try done. apply ring_rep_nil.
      * eexists _, F'. by simpl_ins.
      * eexists _, S'. by simpl_ins.
    + intros l Hl _. simpl. apply Hframe. apply (Hl this); [apply list_elem_of_here|done].
    + intros r ns' l Hr Ho' Hl. right. exists this, ns. split; [apply list_elem_of_here|].
      split; [done|].
      apply elem_of_cons in Hr as [->|Hr]; [|apply elem_of_cons in Hr as [->|Hr]];
        [| |apply list_elem_of_singleton in Hr as ->].
      * rewrite lookup_insert_eq in Ho'. injection Ho' as <-. by apply not_elem_of_nil in Hl.
      * simpl_ins in Ho'. injection Ho' as <-.
        rewrite <- (take_drop ((length ns + 1) / 2) ns), fmap_app.
        apply elem_of_app. by left.
      * simpl_ins in Ho'. injection Ho' as <-.
        rewrite <- (take_drop ((length ns + 1) / 2) ns), fmap_app.
        apply elem_of_app. by right.
    + assert (NoDup ns.*1) as Hnd by apply Hrep.
      rewrite <- (take_drop ((length ns + 1) / 2) ns), fmap_app in Hnd.
      apply NoDup_app in Hnd as (_ & Hdisj & _).
      intros r r' ns1 ns2 l Hr Hr' Hrr Hown1 Hown2 Hl1 Hl2.
      assert (∀ r0 ns0, r0 ∈ [this; first; second] →
              <[this:=[]]> (<[second:=drop ((length ns + 1) / 2) ns]>
                (<[first:=take ((length ns + 1) / 2) ns]> own)) !! r0 = Some ns0 →
              (r0 = this ∧ ns0 = []) ∨
              (r0 = first ∧ ns0 = take ((length ns + 1) / 2) ns) ∨
              (r0 = second ∧ ns0 = drop ((length ns + 1) / 2) ns)) as Hcases.
      { intros r0 ns0 Hr0 Ho0.
        apply elem_of_cons in Hr0 as [->|Hr0]; [|apply elem_of_cons in Hr0 as [->|Hr0]];
          [| |apply list_elem_of_singleton in Hr0 as ->].
        - rewrite lookup_insert_eq in Ho0. injection Ho0 as <-. by left.
        - simpl_ins in Ho0. injection Ho0 as <-. right. by left.
        - simpl_ins in Ho0. injection Ho0 as <-. right. by right. }
      destruct (Hcases r ns1 Hr Hown1) as [[-> ->]|[[-> ->]|[-> ->]]];
        destruct (Hcases r' ns2 Hr' Hown2) as [[-> ->]|[[-> ->]|[-> ->]]];
        try done; try (by apply not_elem_of_nil in Hl1); try (by apply not_elem_of_nil in Hl2).
      * by apply (Hdisj l).
      * by apply (Hdisj l).
  - simpl. congruence.
  - intros l Hl. simpl. destruct (Hfreed l Hl) as [Hnin Hnone]. by rewrite Hframe.
Qed.

End AbsOps.
(** * Reading a well-formed state *)

Section AbsReaders.
Context {T : Type}.

Local Abbreviation cells := (list (loc * T)).

Lemma obj_missing_to_list (s : state T) this :
  objs s !! this = None → to_list this s = Fault UB.
Proof. intros Hobj. unfold to_list, forEach. run. done. Qed.

Lemma to_list_abs own (s : state T) this ns :
  abs own s → own !! this = Some ns → to_list this s = Ok ns.*2 s.
Proof.
  intros Habs Ho. destruct (abs_rep _ _ _ _ Habs Ho) as (R & HR & Hrep).
  by eapply to_list_rep.
Qed.

Lemma to_list_abs_inv own (s s0 : state T) this xs :
  abs own s → to_list this s = Ok xs s0 → ∃ ns, own !! this = Some ns ∧ xs = ns.*2.
Proof.
  intros Habs Hl. destruct (objs s !! this) as [R|] eqn:HR.
  - destruct (abs_is_Some own s this Habs) as [ns Ho]; [by rewrite HR|].
    exists ns. split; [done|]. rewrite (to_list_abs _ _ _ _ Habs Ho) in Hl. by injection Hl.
  - rewrite obj_missing_to_list in Hl by done. done.
Qed.

Lemma size_abs own (s : state T) this ns :
  abs own s → own !! this = Some ns → size this s = Ok (length ns) s.
Proof.
  intros Habs Ho. destruct (abs_rep _ _ _ _ Habs Ho) as (R & HR & Hrep).
  by eapply size_rep.
Qed.

Lemma empty_abs own (s : state T) this ns :
  abs own s → own !! this = Some ns → empty this s = Ok (bool_decide (ns = [])) s.
Proof.
  intros Habs Ho. destruct (abs_rep _ _ _ _ Habs Ho) as (R & HR & Hrep).
  by eapply empty_rep.
Qed.

Lemma abs_own_of_obj own (s : state T) r R ns :
  abs own s → objs s !! r = Some R → ring_rep (heap s) R ns → own !! r = Some ns.
Proof.
  intros Habs HR Hrep. destruct (abs_is_Some own s r Habs) as [ns' Ho]; [by rewrite HR|].
  destruct (abs_rep _ _ _ _ Habs Ho) as (R' & HR' & Hrep'). rewrite HR in HR'.
  injection HR' as <-. rewrite Ho. f_equal.
  destruct Hrep as (_ & Hsz & Hh & _ & Hch), Hrep' as (_ & Hsz' & Hh' & _ & Hch').
  rewrite Hsz in Hsz'. rewrite Hh in Hh'. clear Hsz Hh Ho.
  assert (∀ (a b : cells) q, length a = length b → hd_loc a q = hd_loc b q →
            chain (heap s) a q → chain (heap s) b q → a = b) as Hdet.
  { clear. intros a. induction a as [|c a IH]; intros [|c' b] q Hlen Hhd Ha Hb; simpl in *;
      try done. destruct Ha as [Hc Ha], Hb as [Hc' Hb]. injection Hhd as Hhd.
    rewrite Hhd in Hc. rewrite Hc in Hc'. injection Hc' as Hd Hn.
    f_equal; [destruct c, c'; simpl in *; congruence|].
    apply (IH b q); [lia|done..]. }
  symmetry. destruct ns as [|c ns], ns' as [|c' ns']; simpl in *; try done.
  injection Hh' as Hc. apply (Hdet _ _ (Some c.1)); simpl; try done.
  - by rewrite Hc.
  - rewrite Hc. exact Hch'.
Qed.

End AbsReaders.
(** * The invariant and well-formedness *)

Section InvariantWf.
Context {T : Type}.

Local Abbreviation cells := (list (loc * T)).

Lemma get_next_tail_rep (s : state T) this R (ns : cells) :
  objs s !! this = Some R → ring_rep (heap s) R ns → ns ≠ [] →
  get_next (tail_ R) s = Ok (head_ R) s.
Proof.
  intros HR Hrep Hne. destruct (last ns) as [c|] eqn:Hl.
  - destruct (tail_rep_live s R ns Hrep c Hl) as [Ht Hc]. run. done.
  - by apply last_None in Hl.
Qed.

Lemma get_next_head_rep (s : state T) R (c0 c1 : loc * T) (rest : cells) :
  ring_rep (heap s) R (c0 :: c1 :: rest) →
  head_ R = Some c0.1 ∧ get_next (Some c0.1) s = Ok (Some c1.1) s.
Proof.
  intros (_ & _ & Hh & _ & Hch). split; [done|]. destruct Hch as [Hc _].
  simpl in Hc. run. done.
Qed.

Lemma walk_on_ring (s : state T) R (ns : cells) k :
  ring_rep (heap s) R ns → k ≤ length ns →
  walk k (head_ R) s =
    Ok (if decide (k < length ns) then cell_at ns k else head_ R) s.
Proof.
  intros (_ & _ & Hh & _ & Hch) Hk. rewrite Hh.
  pose proof (walk_chain s ns (hd_loc ns None) k Hch Hk) as Hw.
  replace (hd_loc ns (hd_loc ns None)) with (hd_loc ns None) in Hw by (by destruct ns).
  rewrite Hw, hd_loc_drop. f_equal. unfold cell_at.
  destruct (ns !! k) as [c|] eqn:Hc.
  - apply lookup_lt_Some in Hc. by rewrite decide_True.
  - apply lookup_ge_None in Hc. by rewrite decide_False by lia.
Qed.

Lemma ring_rep_inv (s : state T) r R (ns : cells) :
  objs s !! r = Some R → ring_rep (heap s) R ns → ring_inv s r.
Proof.
  intros HR Hrep. exists R. split; [done|].
  destruct (ring_rep_empty_iff _ _ _ Hrep) as (Hh0 & Ht0 & Hsz0).
  split; [by rewrite Hh0, Ht0|]. split; [by rewrite Ht0, Hsz0|].
  intros Hsz. assert (ns ≠ []) as Hne by (by rewrite <- Hsz0).
  split; [by eapply get_next_tail_rep|].
  pose proof Hrep as (Hnd & Hlen & Hh & Ht & Hch). rewrite Hlen.
  split; [|split].
  - rewrite (walk_on_ring s R ns) by done. by rewrite decide_False by lia.
  - rewrite (walk_on_ring s R ns) by (done || lia). rewrite decide_True by lia.
    rewrite Ht, last_lookup. unfold cell_at. do 3 f_equal. lia.
  - intros k Hk. eexists. split; [apply (walk_on_ring s R ns); [done|lia]|].
    rewrite decide_True by lia. rewrite Hh, hd_loc_cell_at.
    intros Heq. apply cell_at_inj in Heq; [lia|done|lia].
Qed.

Lemma state_wf_invariant (s : state T) : state_wf s → invariant s.
Proof.
  intros [own Habs]. split.
  - intros r Hr. destruct (abs_is_Some _ _ _ Habs Hr) as [ns Ho].
    destruct (abs_rep _ _ _ _ Habs Ho) as (R & HR & Hrep). by eapply ring_rep_inv.
  - intros r r' R R' i j p Hne HR HR' Hi Hj Hwi Hwj.
    pose proof (abs_own_of_obj own s r R) as Hown.
    destruct (abs_is_Some own s r Habs) as [ns Ho]; [by rewrite HR|].
    destruct (abs_is_Some own s r' Habs) as [ns' Ho']; [by rewrite HR'|].
    destruct (abs_rep _ _ _ _ Habs Ho) as (R0 & HR0 & Hrep).
    destruct (abs_rep _ _ _ _ Habs Ho') as (R0' & HR0' & Hrep').
    rewrite HR in HR0. injection HR0 as <-. rewrite HR' in HR0'. injection HR0' as <-.
    pose proof Hrep as (_ & Hlen & _). pose proof Hrep' as (_ & Hlen' & _).
    rewrite (walk_on_ring s R ns) in Hwi by (done || lia).
    rewrite (walk_on_ring s R' ns') in Hwj by (done || lia).
    rewrite decide_True in Hwi by lia. rewrite decide_True in Hwj by lia.
    injection Hwi as <-. injection Hwj as Heq.
    unfold cell_at in Heq.
    destruct (lookup_lt_is_Some_2 ns i) as [c Hc]; [lia|].
    destruct (lookup_lt_is_Some_2 ns' j) as [c' Hc']; [lia|].
    rewrite Hc, Hc' in Heq. injection Heq as Heq.
    apply (abs_disjoint _ _ _ _ _ _ c.1 Habs Hne Ho Ho').
    + apply list_elem_of_fmap. exists c. split; [done|]. by eapply list_elem_of_lookup_2.
    + rewrite <- Heq. apply list_elem_of_fmap. exists c'. split; [done|].
      by eapply list_elem_of_lookup_2.
Qed.

Lemma checkInvariant_wf (s : state T) r :
  state_wf s → is_Some (objs s !! r) → _checkInvariant r s = Ok () s.
Proof.
  intros [own Habs] Hr. destruct (abs_is_Some _ _ _ Habs Hr) as [ns Ho].
  destruct (abs_rep _ _ _ _ Habs Ho) as (R & HR & Hrep). by eapply checkInvariant_rep.
Qed.

Lemma get_next_state (s s' : state T) p q : get_next p s = Ok q s' → s' = s.
Proof.
  unfold_prims. destruct p as [l|]; [|done]. destruct (heap s !! l); [|done].
  by intros [= _ <-].
Qed.

Lemma walk_state (s s' : state T) k p q : walk k p s = Ok q s' → s' = s.
Proof.
  revert p. induction k as [|k IH]; intros p.
  - by intros [= _ <-].
  - cbn [walk]. unfold bind. destruct (get_next p s) as [q0 s0|s0|f] eqn:Hn; [|done..].
    apply get_next_state in Hn as ->. apply IH.
Qed.

Lemma walk_plus (s : state T) a b p q :
  walk a p s = Ok q s → walk (a + b) p s = walk b q s.
Proof.
  revert p. induction a as [|a IH]; intros p.
  - by intros [= ->].
  - cbn [walk Nat.add]. unfold bind. destruct (get_next p s) as [q0 s0|s0|f] eqn:Hn; [|done..].
    apply get_next_state in Hn as ->. apply IH.
Qed.

Lemma walk_cells_from (s : state T) k p q :
  walk k p s = Ok q s →
  ∃ ns, cells_from (heap s) k p = Some ns ∧ length ns = k ∧
        chain (heap s) ns q ∧ hd_loc ns q = p.
Proof.
  revert p. induction k as [|k IH]; intros p.
  - intros [= ->]. by exists [].
  - cbn [walk cells_from]. unfold bind, get_next, deref, bind, ret.
    destruct p as [l|]; [|done]. destruct (heap s !! l) as [n|] eqn:Hl; [|done].
    intros Hw. destruct (IH _ Hw) as (ns & Hc & Hlen & Hch & Hhd).
    exists ((l, data n) :: ns). rewrite Hc. simpl. split_and!; try done; [by rewrite Hlen|].
    rewrite Hl, Hhd. by destruct n.
Qed.

Lemma ring_inv_rep (s : state T) r R :
  objs s !! r = Some R → ring_inv s r →
  ring_rep (heap s) R (default [] (cells_from (heap s) (sz_ R) (head_ R))).
Proof.
  intros HR (R' & HR' & Hht & Hts & Hring). rewrite HR in HR'. injection HR' as <-.
  destruct (decide (sz_ R = 0)) as [Hz|Hnz].
  - rewrite Hz. simpl. split_and!; simpl; try done; [constructor|by apply Hht, Hts|by apply Hts].
  - destruct (Hring Hnz) as (Hlink & Hfull & Hlast & Hfirst).
    destruct (walk_cells_from s _ _ _ Hfull) as (ns & -> & Hlen & Hch & Hhd). simpl.
    assert (ns ≠ []) as Hne by (intros ->; simpl in Hlen; lia).
    assert (hd_loc ns None = head_ R) as Hhd'.
    { rewrite <- Hhd. by destruct ns. }
    assert (∀ k, k < length ns → walk k (head_ R) s = Ok (cell_at ns k) s) as Hwalk.
    { intros k Hk. rewrite <- Hhd at 1. rewrite walk_chain by (done || lia).
      rewrite hd_loc_drop. unfold cell_at.
      destruct (lookup_lt_is_Some_2 ns k Hk) as [c ->]. done. }
    split_and!; try done.
    + apply NoDup_alt. intros i j x Hi Hj.
      assert (∀ a b, a < b → ns.*1 !! a = Some x → ns.*1 !! b = Some x → False) as Hlt.
      { clear i j Hi Hj. intros a b Hab Ha Hb.
        assert (b < length ns) as Hbl.
        { apply lookup_lt_Some in Hb. by rewrite length_fmap in Hb. }
        rewrite list_lookup_fmap in Ha, Hb.
        pose proof (Hwalk a ltac:(lia)) as Hwa. pose proof (Hwalk b Hbl) as Hwb.
        unfold cell_at in Hwa, Hwb. rewrite Ha in Hwa. rewrite Hb in Hwb.
        pose proof (walk_plus s a (sz_ R - b) _ _ Hwa) as Hpa.
        pose proof (walk_plus s b (sz_ R - b) _ _ Hwb) as Hpb.
        replace (b + (sz_ R - b)) with (sz_ R) in Hpb by lia.
        rewrite Hfull in Hpb. rewrite <- Hpb in Hpa.
        destruct (Hfirst (a + (sz_ R - b)) ltac:(lia)) as (p & Hp & Hpne).
        rewrite Hpa in Hp. by injection Hp as <-. }
      destruct (Nat.lt_trichotomy i j) as [Hij|[Hij|Hij]]; [|done|].
      * exfalso. by apply (Hlt i j).
      * exfalso. by apply (Hlt j i).
    + rewrite (Hwalk (sz_ R - 1)) in Hlast by lia. injection Hlast as <-.
      rewrite last_lookup. unfold cell_at. do 2 f_equal. lia.
    + by rewrite Hhd'.
Qed.

Lemma invariant_state_wf (s : state T) : invariant s → state_wf s.
Proof.
  intros [Hrings Hexcl].
  set (f := λ R : LinkedList, default [] (cells_from (heap s) (sz_ R) (head_ R))).
  exists (f <$> objs s). split_and!.
  - intros r. rewrite lookup_fmap. by intros ?%fmap_None.
  - intros r ns. rewrite lookup_fmap. intros (R & HR & ->)%fmap_Some.
    exists R. split; [done|]. apply (ring_inv_rep s r R HR). apply Hrings. by rewrite HR.
  - intros r r' ns ns' l Hne. rewrite !lookup_fmap.
    intros (R & HR & ->)%fmap_Some (R' & HR' & ->)%fmap_Some Hl Hl'.
    pose proof (ring_inv_rep s r R HR (Hrings r ltac:(by rewrite HR))) as Hrep.
    pose proof (ring_inv_rep s r' R' HR' (Hrings r' ltac:(by rewrite HR'))) as Hrep'.
    fold (f R) in Hrep, Hl. fold (f R') in Hrep', Hl'.
    apply list_elem_of_fmap in Hl as (c & -> & Hc). apply list_elem_of_lookup in Hc as [i Hi].
    apply list_elem_of_fmap in Hl' as (c' & Heq & Hc'). apply list_elem_of_lookup in Hc' as [j Hj].
    pose proof Hrep as (_ & Hlen & _). pose proof Hrep' as (_ & Hlen' & _).
    apply lookup_lt_Some in Hi as Hil. apply lookup_lt_Some in Hj as Hjl.
    apply (Hexcl r r' R R' i j (Some c.1) Hne HR HR'); [lia|lia|..].
    + rewrite (walk_on_ring s R (f R)) by (done || lia). rewrite decide_True by done.
      unfold cell_at. by rewrite Hi.
    + rewrite (walk_on_ring s R' (f R')) by (done || lia). rewrite decide_True by done.
      unfold cell_at. by rewrite Hj, Heq.
Qed.

End InvariantWf.

(** * Properties of the public interface *)

Section Interface.
Context {T : Type}.
Variable NDEBUG : bool.
Variable alloc : gmap loc (Node T) → option loc.

Local Abbreviation cells := (list (loc * T)).

Lemma half_sizes n :
  (n + 1) / 2 + n / 2 = n ∧ n ≤ 2 * ((n + 1) / 2) ≤ n + 1 ∧ (n + 1) / 2 ≤ n.
Proof.
  pose proof (Nat.div_mod_eq n 2) as Hn. pose proof (Nat.mod_upper_bound n 2) as Hm.
  pose proof (Nat.div_mod_eq (n + 1) 2) as Hn1.
  pose proof (Nat.mod_upper_bound (n + 1) 2) as Hm1.
  assert ((n + 1) mod 2 = (n mod 2 + 1) mod 2) as Hmod.
  { rewrite <- Nat.Div0.add_mod_idemp_l. done. }
  destruct (decide (n mod 2 = 0)) as [H0|H0].
  - rewrite H0 in Hmod. simpl in Hmod. lia.
  - assert (n mod 2 = 1) as H1 by lia. rewrite H1 in Hmod. simpl in Hmod. lia.
Qed.

(** C1. [splitIntoTwo] on a ring of [n] elements, with output rings
    that are objects of their own: the receiver ends up empty, [first]
    holds the first [ceil(n/2)] elements in traversal order and [second]
    the remaining [floor(n/2)], so that the two sequences concatenated
    are the original one; every cell the outputs held before is
    released. *)
Theorem splitIntoTwo_halves (s : state T) fuel this first second xs :
  invariant s →
  this ≠ first → this ≠ second → first ≠ second →
  is_Some (objs s !! first) → is_Some (objs s !! second) →
  to_list this s = Ok xs s →
  (length xs - 1) / 2 ≤ fuel →
  ∃ s' ys zs,
    splitIntoTwo fuel this first second s = Ok () s' ∧
    empty this s' = Ok true s' ∧ size this s' = Ok 0 s' ∧
    to_list first s' = Ok ys s' ∧ to_list second s' = Ok zs s' ∧
    size first s' = Ok (length ys) s' ∧ size second s' = Ok (length zs) s' ∧
    length ys = (length xs + 1) / 2 ∧ length zs = length xs / 2 ∧
    length xs ≤ 2 * length ys ≤ length xs + 1 ∧
    length ys + length zs = length xs ∧
    ys ++ zs = xs ∧
    (∀ r R ns l, r = first ∨ r = second → objs s !! r = Some R →
       ring_rep (heap s) R ns → l ∈ ns.*1 → heap s' !! l = None).
Proof.
  intros [own Habs]%invariant_state_wf Hn1 Hn2 Hn3 HF HS Hxs Hfuel.
  destruct (to_list_abs_inv _ _ _ _ _ Habs Hxs) as (ns & Ho & ->).
  destruct (abs_is_Some _ _ _ Habs HF) as [nsF HoF].
  destruct (abs_is_Some _ _ _ Habs HS) as [nsS HoS].
  rewrite length_fmap in *.
  destruct (splitIntoTwo_abs own s fuel this first second ns nsF nsS
              Hn1 Hn2 Hn3 Habs Ho HoF HoS Hfuel) as (s' & Hrun & Habs' & _ & Hfreed).
  set (k := (length ns + 1) / 2) in *.
  destruct (half_sizes (length ns)) as (Hsum & Hceil & Hle). fold k in Hsum, Hceil, Hle.
  assert (length (take k ns) = k) as Hlt by (rewrite length_take; lia).
  assert (length (drop k ns) = length ns / 2) as Hld by (rewrite length_drop; lia).
  exists s', (take k ns).*2, (drop k ns).*2. rewrite !length_fmap, Hlt, Hld.
  split; [done|].
  split; [by rewrite (empty_abs _ _ this [] Habs') by (by simpl_ins)|].
  split; [by rewrite (size_abs _ _ this [] Habs') by (by simpl_ins)|].
  split; [by apply (to_list_abs _ _ _ _ Habs'); simpl_ins|].
  split; [by apply (to_list_abs _ _ _ _ Habs'); simpl_ins|].
  split; [by rewrite (size_abs _ _ first (take k ns) Habs'), Hlt by (by simpl_ins)|].
  split; [by rewrite (size_abs _ _ second (drop k ns) Habs'), Hld by (by simpl_ins)|].
  split_and!; try done; try lia.
  - by rewrite <- fmap_app, take_drop.
  - intros r R ns0 l Hr HR Hrep Hl. pose proof (abs_own_of_obj _ _ _ _ _ Habs HR Hrep) as Ho0.
    apply Hfreed. destruct Hr as [->| ->]; [left|right]; congruence.
Qed.

(** C2. [mergeWith] on two distinct objects: [other] ends up empty and
    the receiver holds its own sequence followed by [other]'s; an empty
    receiver takes over [other]'s members as they are, with no change
    to the store, and an empty [other] leaves the whole state as it
    was. *)
Theorem mergeWith_concat (s : state T) this other xs ys :
  invariant s → this ≠ other →
  to_list this s = Ok xs s → to_list other s = Ok ys s →
  ∃ s',
    mergeWith NDEBUG this other s = Ok () s' ∧
    to_list this s' = Ok (xs ++ ys) s' ∧
    size this s' = Ok (length xs + length ys) s' ∧
    to_list other s' = Ok [] s' ∧ size other s' = Ok 0 s' ∧ empty other s' = Ok true s' ∧
    (xs = [] → objs s' !! this = objs s !! other ∧ heap s' = heap s) ∧
    (ys = [] → s' = s).
Proof.
  intros [own Habs]%invariant_state_wf Hne Hxs Hys.
  destruct (to_list_abs_inv _ _ _ _ _ Habs Hxs) as (nsA & HoA & ->).
  destruct (to_list_abs_inv _ _ _ _ _ Habs Hys) as (nsB & HoB & ->).
  destruct (mergeWith_abs NDEBUG own s this other nsA nsB Hne Habs HoA HoB)
    as (s' & Hrun & Habs' & _ & Hnoop & Hheap).
  exists s'. split; [done|].
  assert (<[other:=[]]> (<[this:=nsA ++ nsB]> own) !! this = Some (nsA ++ nsB)) as Ho'
    by (by simpl_ins).
  assert (<[other:=[]]> (<[this:=nsA ++ nsB]> own) !! other = Some []) as Ho''
    by (by simpl_ins).
  split; [by rewrite (to_list_abs _ _ _ _ Habs' Ho'), fmap_app|].
  split; [by rewrite (size_abs _ _ _ _ Habs' Ho'), length_app, !length_fmap|].
  split; [by rewrite (to_list_abs _ _ _ _ Habs' Ho'')|].
  split; [by rewrite (size_abs _ _ _ _ Habs' Ho'')|].
  split; [by rewrite (empty_abs _ _ _ _ Habs' Ho'')|].
  split.
  - intros Hnil. apply fmap_nil_inv in Hnil. subst nsA. split; [|by apply Hheap].
    destruct (abs_rep _ _ _ _ Habs' Ho') as (R' & HR' & Hrep').
    destruct (abs_rep _ _ _ _ Habs HoB) as (B & HB & HrB).
    rewrite HR', HB. f_equal. by eapply ring_rep_inj.
  - intros Hnil. apply fmap_nil_inv in Hnil. by apply Hnoop.
Qed.

(** C3. Splitting a ring and then merging [first] with [second] gives
    back, in [first], the original head-to-tail sequence, and leaves
    [second] with size 0. *)
Theorem merge_after_split (s : state T) fuel this first second xs :
  invariant s →
  this ≠ first → this ≠ second → first ≠ second →
  is_Some (objs s !! first) → is_Some (objs s !! second) →
  to_list this s = Ok xs s →
  (length xs - 1) / 2 ≤ fuel →
  ∃ s',
    (splitIntoTwo fuel this first second ;; mergeWith NDEBUG first second) s = Ok () s' ∧
    to_list first s' = Ok xs s' ∧
    size second s' = Ok 0 s' ∧
    to_list this s' = Ok [] s'.
Proof.
  intros [own Habs]%invariant_state_wf Hn1 Hn2 Hn3 HF HS Hxs Hfuel.
  destruct (to_list_abs_inv _ _ _ _ _ Habs Hxs) as (ns & Ho & ->).
  destruct (abs_is_Some _ _ _ Habs HF) as [nsF HoF].
  destruct (abs_is_Some _ _ _ Habs HS) as [nsS HoS].
  rewrite length_fmap in *.
  destruct (splitIntoTwo_abs own s fuel this first second ns nsF nsS
              Hn1 Hn2 Hn3 Habs Ho HoF HoS Hfuel) as (s1 & Hrun1 & Habs1 & _).
  set (k := (length ns + 1) / 2) in *.
  set (own1 := <[this:=[]]> (<[second:=drop k ns]> (<[first:=take k ns]> own))) in *.
  assert (own1 !! first = Some (take k ns)) as Ho1 by (unfold own1; by simpl_ins).
  assert (own1 !! second = Some (drop k ns)) as Ho2 by (unfold own1; by simpl_ins).
  destruct (mergeWith_abs NDEBUG own1 s1 first second _ _ Hn3 Habs1 Ho1 Ho2)
    as (s' & Hrun2 & Habs' & _).
  exists s'. split; [by rewrite (bind_eq _ _ _ _ _ Hrun1)|].
  rewrite take_drop in Habs'.
  split; [by apply (to_list_abs _ _ _ _ Habs'); simpl_ins|].
  split; [by rewrite (size_abs _ _ second [] Habs') by (by simpl_ins)|].
  apply (to_list_abs _ _ this [] Habs'). unfold own1. by simpl_ins.
Qed.

End Interface.
(** * Repeated calls *)

Section Repeated.
Context {T : Type}.
Variable NDEBUG : bool.
Variable alloc : gmap loc (Node T) → option loc.

Local Abbreviation cells := (list (loc * T)).

Lemma rot1_fmap {A B} (f : A → B) (l : list A) : f <$> rot1 l = rot1 (f <$> l).
Proof. destruct l as [|x l]; [done|]. simpl. by rewrite fmap_app. Qed.

Lemma rotn_fmap {A B} (f : A → B) k (l : list A) : f <$> rotn k l = rotn k (f <$> l).
Proof. revert l. induction k as [|k IH]; intros l; [done|]. simpl. by rewrite IH, rot1_fmap. Qed.

Lemma rot1_length {A} (l : list A) : length (rot1 l) = length l.
Proof. destruct l; [done|]. simpl. rewrite length_app. simpl. lia. Qed.

Lemma rotn_length {A} k (l : list A) : length (rotn k l) = length l.
Proof. revert l. induction k as [|k IH]; intros l; [done|]. simpl. by rewrite IH, rot1_length. Qed.

Lemma rotn_drop_take {A} k (l : list A) : k ≤ length l → rotn k l = drop k l ++ take k l.
Proof.
  revert l. induction k as [|k IH]; intros l Hk.
  - by rewrite drop_0, app_nil_r.
  - destruct l as [|x l]; simpl in Hk; [lia|]. simpl.
    rewrite IH by (rewrite length_app; simpl; lia).
    rewrite drop_app_le, take_app_le by lia. by rewrite <- app_assoc.
Qed.

Lemma rotn_full {A} (l : list A) : rotn (length l) l = l.
Proof. rewrite rotn_drop_take by done. by rewrite drop_all, firstn_all. Qed.

Lemma rotate_abs1 own (s : state T) this ns :
  abs own s → own !! this = Some ns →
  ∃ s' R', rotate NDEBUG this s = Ok () s' ∧ abs (<[this := rot1 ns]> own) s' ∧
           s' = mkState (heap s) (<[this := R']> (objs s)) (cout s).
Proof.
  intros Habs Ho. destruct (abs_rep _ _ _ _ Habs Ho) as (R & HR & Hrep).
  destruct ns as [|c0 [|c1 rest]].
  - exists s, R. rewrite (rotate_ring_small NDEBUG s this R [] HR Hrep) by (simpl; lia).
    split; [done|]. simpl. rewrite insert_id by done. by rewrite state_insert_id.
  - exists s, R. rewrite (rotate_ring_small NDEBUG s this R [c0] HR Hrep) by (simpl; lia).
    split; [done|]. simpl. rewrite insert_id by done. by rewrite state_insert_id.
  - destruct (rotate_ring NDEBUG s this R _ c0 c1 rest HR Hrep eq_refl)
      as (R' & Hrun & Hrep' & _).
    eexists _, R'. split; [exact Hrun|]. split; [|done].
    eapply abs_update; [done..| |]; [done|].
    intros l' Hl'. right.
    change (rot1 (c0 :: c1 :: rest)) with ((c1 :: rest) ++ [c0]) in Hl'.
    rewrite fmap_app in Hl'. apply elem_of_app in Hl' as [Hl'|Hl'].
    + by apply list_elem_of_further.
    + apply list_elem_of_singleton in Hl'. subst l'. apply list_elem_of_here.
Qed.

Lemma times_rotate_abs own (s : state T) this ns k :
  abs own s → own !! this = Some ns →
  ∃ s' R', times k (rotate NDEBUG this) s = Ok () s' ∧ abs (<[this := rotn k ns]> own) s' ∧
           s' = mkState (heap s) (<[this := R']> (objs s)) (cout s).
Proof.
  revert own s ns. induction k as [|k IH]; intros own s ns Habs Ho.
  - destruct (abs_rep _ _ _ _ Habs Ho) as (R & HR & Hrep). exists s, R. simpl.
    split; [done|]. rewrite insert_id by done. by rewrite state_insert_id.
  - destruct (rotate_abs1 own s this ns Habs Ho) as (s1 & R1 & Hrun1 & Habs1 & Hs1).
    destruct (IH _ s1 (rot1 ns) Habs1) as (s' & R' & Hrun & Habs' & Hs'); [by simpl_ins|].
    exists s', R'. cbn [times]. rewrite (bind_eq _ _ _ _ _ Hrun1). split; [done|].
    rewrite insert_insert_eq in Habs'. split; [done|].
    rewrite Hs', Hs1. simpl. by rewrite insert_insert_eq.
Qed.

Lemma append_all_abs own (s : state T) this ns vs :
  alloc_fresh alloc → alloc_total alloc →
  abs own s → own !! this = Some ns →
  ∃ s' ns', append_all NDEBUG alloc this vs s = Ok () s' ∧
            abs (<[this := ns ++ ns']> own) s' ∧ ns'.*2 = vs ∧ cout s' = cout s.
Proof.
  intros Hfresh Htotal. revert own s ns.
  induction vs as [|v vs IH]; intros own s ns Habs Ho.
  - exists s, []. rewrite app_nil_r, insert_id by done. done.
  - destruct (Htotal (heap s)) as [l Hl].
    destruct (append_abs NDEBUG alloc own s this ns l v Habs Ho Hl (Hfresh _ _ Hl))
      as (s1 & Hrun1 & Habs1 & Hcout1).
    destruct (IH _ s1 (ns ++ [(l, v)]) Habs1) as (s' & ns' & Hrun & Habs' & Hvs & Hcout);
      [by simpl_ins|].
    exists s', ((l, v) :: ns'). cbn [append_all]. rewrite (bind_eq _ _ _ _ _ Hrun1).
    split; [done|]. rewrite insert_insert_eq, <- app_assoc in Habs'.
    split; [done|]. split; [by rewrite fmap_cons, Hvs|congruence].
Qed.

Lemma pop_front_n_abs own (s : state T) this ns :
  abs own s → own !! this = Some ns →
  ∃ s', pop_front_n NDEBUG (length ns) this s = Ok (replicate (length ns) true) s' ∧
        abs (<[this := []]> own) s'.
Proof.
  revert own s. induction ns as [|c ns IH]; intros own s Habs Ho.
  - exists s. rewrite insert_id by done. done.
  - destruct (pop_front_abs NDEBUG own s this c ns Habs Ho) as (s1 & Hrun1 & Habs1 & _).
    destruct (IH _ s1 Habs1) as (s' & Hrun & Habs'); [by simpl_ins|].
    exists s'. cbn [pop_front_n length]. rewrite (bind_eq _ _ _ _ _ Hrun1).
    rewrite (bind_eq _ _ _ _ _ Hrun). rewrite insert_insert_eq in Habs'. done.
Qed.

Lemma front_abs own (s : state T) this c rest :
  abs own s → own !! this = Some (c :: rest) → front this s = Ok c.2 s.
Proof.
  intros Habs Ho. destruct (abs_rep _ _ _ _ Habs Ho) as (R & HR & Hrep).
  by eapply front_rep.
Qed.

Lemma pop_append_abs own (s : state T) this ns :
  alloc_fresh alloc → alloc_total alloc →
  abs own s → own !! this = Some ns →
  ∃ s' ns', pop_append NDEBUG alloc this s = Ok () s' ∧
            abs (<[this := ns']> own) s' ∧ ns'.*2 = rot1 ns.*2.
Proof.
  intros Hfresh Htotal Habs Ho. unfold pop_append.
  rewrite (bind_eq _ _ _ _ _ (empty_abs _ _ _ _ Habs Ho)).
  destruct ns as [|c rest].
  - rewrite bool_decide_true by done.
    rewrite (bind_eq _ _ _ _ _ (pop_front_abs_nil NDEBUG _ _ _ Habs Ho)).
    exists s, []. rewrite insert_id by done. done.
  - rewrite bool_decide_false by done.
    rewrite (bind_eq _ _ _ _ _ (front_abs _ _ _ _ _ Habs Ho)).
    destruct (pop_front_abs NDEBUG own s this c rest Habs Ho) as (s1 & Hrun1 & Habs1 & _).
    rewrite (bind_eq _ _ _ _ _ Hrun1).
    destruct (Htotal (heap s1)) as [l Hl].
    destruct (append_abs NDEBUG alloc _ s1 this rest l c.2 Habs1) as (s' & Hrun & Habs' & _);
      [by simpl_ins|done|by apply Hfresh|].
    exists s', (rest ++ [(l, c.2)]). split; [done|].
    rewrite insert_insert_eq in Habs'. split; [done|].
    simpl. by rewrite fmap_app.
Qed.

Lemma times_pop_append_abs own (s : state T) this ns k :
  alloc_fresh alloc → alloc_total alloc →
  abs own s → own !! this = Some ns →
  ∃ s' ns', times k (pop_append NDEBUG alloc this) s = Ok () s' ∧
            abs (<[this := ns']> own) s' ∧ ns'.*2 = rotn k ns.*2.
Proof.
  intros Hfresh Htotal. revert own s ns.
  induction k as [|k IH]; intros own s ns Habs Ho.
  - exists s, ns. rewrite insert_id by done. done.
  - destruct (pop_append_abs own s this ns Hfresh Htotal Habs Ho)
      as (s1 & ns1 & Hrun1 & Habs1 & Hd1).
    destruct (IH _ s1 ns1 Habs1) as (s' & ns' & Hrun & Habs' & Hd); [by simpl_ins|].
    exists s', ns'. cbn [times]. rewrite (bind_eq _ _ _ _ _ Hrun1).
    rewrite insert_insert_eq in Habs'. split; [done|]. split; [done|].
    simpl. by rewrite Hd, Hd1.
Qed.

End Repeated.
Section Contracts.
Context {T : Type}.
Variable NDEBUG : bool.
Variable alloc : gmap loc (Node T) → option loc.

Local Abbreviation cells := (list (loc * T)).

(** C5. [pop_front] answers [false], changing nothing, exactly on an
    empty ring; on a ring [x :: rest] it answers [true], the size drops
    by one and the sequence becomes [rest]: a last element leaves the
    ring empty, otherwise the head is the removed node's successor, the
    tail is the same node and links to the new head.  So a ring filled
    by [n] appends gives [true] to [n] calls and [false] to the next. *)
Theorem pop_front_removes_head (s : state T) this xs :
  invariant s → to_list this s = Ok xs s →
  (xs = [] ↔ pop_front NDEBUG this s = Ok false s) ∧
  (∀ x rest, xs = x :: rest →
     ∃ s', pop_front NDEBUG this s = Ok true s' ∧
       size this s' = Ok (length xs - 1) s' ∧
       to_list this s' = Ok rest s' ∧
       (rest = [] →
          empty this s' = Ok true s' ∧
          objs s' !! this = Some (mkList None None 0)) ∧
       (rest ≠ [] →
          ∃ R R', objs s !! this = Some R ∧ objs s' !! this = Some R' ∧
            get_next (head_ R) s = Ok (head_ R') s ∧
            tail_ R' = tail_ R ∧
            get_next (tail_ R') s' = Ok (head_ R') s')) ∧
  (xs = [] → alloc_fresh alloc → alloc_total alloc →
     ∀ vs, ∃ s1 s2,
       append_all NDEBUG alloc this vs s = Ok () s1 ∧
       pop_front_n NDEBUG (length vs) this s1 = Ok (replicate (length vs) true) s2 ∧
       pop_front NDEBUG this s2 = Ok false s2 ∧
       empty this s2 = Ok true s2).
Proof.
  intros [own Habs]%invariant_state_wf Hxs.
  destruct (to_list_abs_inv _ _ _ _ _ Habs Hxs) as (ns & Ho & ->).
  assert (∀ c rest, ns = c :: rest →
    ∃ s', pop_front NDEBUG this s = Ok true s' ∧ abs (<[this := rest]> own) s') as Hcons.
  { intros c rest ->. destruct (pop_front_abs NDEBUG own s this c rest Habs Ho)
      as (s' & Hrun & Habs' & _). by exists s'. }
  split_and!.
  - split.
    + intros Hnil. apply fmap_nil_inv in Hnil. subst ns. by eapply pop_front_abs_nil.
    + intros Hrun. destruct ns as [|c rest]; [done|].
      destruct (Hcons c rest eq_refl) as (s' & Hrun' & _). congruence.
  - intros x rest Hx. destruct ns as [|c ns']; [done|]. rewrite fmap_cons in Hx.
    injection Hx as <- <-. destruct (Hcons c ns' eq_refl) as (s' & Hrun & Habs').
    assert (<[this := ns']> own !! this = Some ns') as Ho' by (by simpl_ins).
    exists s'. split; [done|].
    split. { rewrite (size_abs _ _ _ _ Habs' Ho'). simpl. by rewrite length_fmap, Nat.sub_0_r. }
    split; [by apply (to_list_abs _ _ _ _ Habs')|].
    destruct (abs_rep _ _ _ _ Habs' Ho') as (R' & HR' & Hrep').
    destruct (abs_rep _ _ _ _ Habs Ho) as (R & HR & Hrep).
    split.
    + intros Hnil. apply fmap_nil_inv in Hnil. subst ns'.
      split; [by rewrite (empty_abs _ _ _ _ Habs' Ho')|].
      rewrite HR'. f_equal. eapply ring_rep_inj; [done|]. apply (ring_rep_nil (heap s')).
    + intros Hne. destruct ns' as [|c1 rest']; [done|]. exists R, R'.
      split; [done|]. split; [done|].
      destruct (get_next_head_rep s R c c1 rest' Hrep) as [Hh Hn].
      pose proof Hrep' as (_ & _ & Hh' & Ht' & _). pose proof Hrep as (_ & _ & _ & Ht & _).
      rewrite Hh, Hh'. split; [exact Hn|]. split; [rewrite Ht, Ht'; reflexivity|].
      rewrite <- Hh'. by apply (get_next_tail_rep s' this R' (c1 :: rest') HR' Hrep').
  - intros Hnil Hfresh Htotal vs. apply fmap_nil_inv in Hnil. subst ns.
    destruct (append_all_abs NDEBUG alloc own s this [] vs Hfresh Htotal Habs Ho)
      as (s1 & ns' & Hrun1 & Habs1 & Hvs & _).
    destruct (pop_front_n_abs NDEBUG _ s1 this ns' Habs1) as (s2 & Hrun2 & Habs2);
      [by simpl_ins|].
    exists s1, s2. subst vs. rewrite length_fmap. split; [done|]. split; [done|].
    assert (<[this:=[]]> (<[this:=[] ++ ns']> own) !! this = Some []) as Ho2 by (by simpl_ins).
    split; [by eapply pop_front_abs_nil|]. by rewrite (empty_abs _ _ _ _ Habs2 Ho2).
Qed.

(** C6. [rotate] changes nothing on a ring of fewer than two elements;
    otherwise head and tail each move to their successor, with the size
    and every link as they were, and the sequence starts one element
    later.  Calling it [k] times gives the sequence, the size and the
    front element that [k] rounds of [pop_front] followed by [append] of
    the popped element give. *)
Theorem rotate_advances (s : state T) this xs :
  invariant s → to_list this s = Ok xs s →
  (length xs ≤ 1 → rotate NDEBUG this s = Ok () s) ∧
  (∀ x y rest, xs = x :: y :: rest →
     ∃ s' R R', rotate NDEBUG this s = Ok () s' ∧
       objs s !! this = Some R ∧ objs s' !! this = Some R' ∧
       get_next (head_ R) s = Ok (head_ R') s ∧
       get_next (tail_ R) s = Ok (tail_ R') s ∧
       sz_ R' = sz_ R ∧ heap s' = heap s ∧
       to_list this s' = Ok (y :: rest ++ [x]) s') ∧
  (alloc_fresh alloc → alloc_total alloc →
     ∀ k, ∃ s1 s2,
       times k (rotate NDEBUG this) s = Ok () s1 ∧
       times k (pop_append NDEBUG alloc this) s = Ok () s2 ∧
       to_list this s1 = Ok (rotn k xs) s1 ∧
       to_list this s2 = Ok (rotn k xs) s2 ∧
       size this s1 = Ok (length xs) s1 ∧
       size this s2 = Ok (length xs) s2 ∧
       (xs ≠ [] → ∃ z, front this s1 = Ok z s1 ∧ front this s2 = Ok z s2)).
Proof.
  intros [own Habs]%invariant_state_wf Hxs.
  destruct (to_list_abs_inv _ _ _ _ _ Habs Hxs) as (ns & Ho & ->).
  destruct (abs_rep _ _ _ _ Habs Ho) as (R & HR & Hrep).
  split_and!.
  - rewrite length_fmap. intros Hlen. by eapply rotate_abs_small.
  - intros x y rest Hx. destruct ns as [|c0 [|c1 ns']]; try done.
    rewrite !fmap_cons in Hx. injection Hx as <- <- <-.
    destruct (rotate_ring NDEBUG s this R _ c0 c1 ns' HR Hrep eq_refl)
      as (R' & Hrun & Hrep' & Hh' & Ht' & Hsz').
    eexists _, R, R'. split; [exact Hrun|]. split; [done|]. simpl.
    split; [by rewrite lookup_insert_eq|].
    destruct (get_next_head_rep s R c0 c1 ns' Hrep) as [Hh Hn].
    split; [by rewrite Hh, Hh'|].
    split. { rewrite (get_next_tail_rep s this R _ HR Hrep) by done. by rewrite Hh, Ht'. }
    split; [done|]. split; [done|].
    pose proof (to_list_rep (mkState (heap s) (<[this:=R']> (objs s)) (cout s)) this R' _
                  (lookup_insert_eq _ _ _) Hrep') as Hl.
    rewrite fmap_cons, fmap_app in Hl. exact Hl.
  - intros Hfresh Htotal k.
    destruct (times_rotate_abs NDEBUG own s this ns k Habs Ho) as (s1 & R1 & Hrun1 & Habs1 & _).
    destruct (times_pop_append_abs NDEBUG alloc own s this ns k Hfresh Htotal Habs Ho)
      as (s2 & ns2 & Hrun2 & Habs2 & Hd2).
    assert (<[this:=rotn k ns]> own !! this = Some (rotn k ns)) as Ho1 by (by simpl_ins).
    assert (<[this:=ns2]> own !! this = Some ns2) as Ho2 by (by simpl_ins).
    exists s1, s2. split; [done|]. split; [done|].
    split; [by rewrite (to_list_abs _ _ _ _ Habs1 Ho1), rotn_fmap|].
    split; [by rewrite (to_list_abs _ _ _ _ Habs2 Ho2), Hd2|].
    split; [by rewrite (size_abs _ _ _ _ Habs1 Ho1), rotn_length, length_fmap|].
    split.
    { rewrite (size_abs _ _ _ _ Habs2 Ho2). rewrite <- (length_fmap snd ns2), Hd2.
      by rewrite rotn_length. }
    intros Hne. pose proof (rotn_fmap snd k ns) as Hd1. rewrite <- Hd2 in Hd1.
    destruct (rotn k ns) as [|c1 r1] eqn:Hr1.
    { apply (f_equal length) in Hr1. rewrite rotn_length in Hr1. by destruct ns. }
    destruct ns2 as [|c2 r2]; [done|]. rewrite !fmap_cons in Hd1. injection Hd1 as Hc _.
    exists c1.2. split; [by eapply front_abs|]. rewrite Hc. by eapply front_abs.
Qed.

End Contracts.

Section Access.
Context {T : Type}.
Variable NDEBUG : bool.
Variable alloc : gmap loc (Node T) → option loc.

Local Abbreviation cells := (list (loc * T)).

(** C8. On a non-empty ring [front] returns the first element of the
    head-to-tail traversal and cannot fault; it reads through [head_]
    unguarded, so on an empty ring the read is through a null pointer. *)
Theorem front_is_first (s : state T) this xs :
  invariant s → to_list this s = Ok xs s →
  (∀ x rest, xs = x :: rest → front this s = Ok x s) ∧
  (xs ≠ [] → ∃ x, front this s = Ok x s ∧ head xs = Some x) ∧
  (xs = [] → front this s = Fault UB).
Proof.
  intros [own Habs]%invariant_state_wf Hxs.
  destruct (to_list_abs_inv _ _ _ _ _ Habs Hxs) as (ns & Ho & ->).
  destruct (abs_rep _ _ _ _ Habs Ho) as (R & HR & Hrep).
  split_and!.
  - intros x rest Hx. destruct ns as [|c ns']; [done|]. rewrite fmap_cons in Hx.
    injection Hx as <- _. by eapply front_rep.
  - intros Hne. destruct ns as [|c ns']; [done|]. exists c.2. split; [|done].
    by eapply front_rep.
  - intros Hnil. apply fmap_nil_inv in Hnil. by eapply front_rep_nil.
Qed.

(** C9. [append] whose allocation fails propagates the exception from
    a state equal to the one it was called in; when the allocation
    succeeds the size grows by one and the new element is last, in a
    node that is the tail and links to the head (to itself on a ring
    that was empty). *)
Theorem append_all_or_nothing (s : state T) this v xs :
  invariant s → to_list this s = Ok xs s →
  (alloc (heap s) = None → append NDEBUG alloc this v s = Throw s) ∧
  (∀ l, alloc (heap s) = Some l → heap s !! l = None →
     ∃ s' R', append NDEBUG alloc this v s = Ok () s' ∧
       size this s' = Ok (length xs + 1) s' ∧
       to_list this s' = Ok (xs ++ [v]) s' ∧
       objs s' !! this = Some R' ∧ tail_ R' = Some l ∧
       heap s' !! l = Some (mkNode v (head_ R')) ∧
       (xs = [] → head_ R' = Some l)).
Proof.
  intros [own Habs]%invariant_state_wf Hxs.
  destruct (to_list_abs_inv _ _ _ _ _ Habs Hxs) as (ns & Ho & ->).
  split.
  - intros Hal. unfold append, new_Node, bind. by rewrite Hal.
  - intros l Hal Hfresh.
    destruct (append_abs NDEBUG alloc own s this ns l v Habs Ho Hal Hfresh)
      as (s' & Hrun & Habs' & _).
    assert (<[this:=ns ++ [(l, v)]]> own !! this = Some (ns ++ [(l, v)])) as Ho'
      by (by simpl_ins).
    destruct (abs_rep _ _ _ _ Habs' Ho') as (R' & HR' & Hrep').
    exists s', R'. split; [done|].
    split; [by rewrite (size_abs _ _ _ _ Habs' Ho'), length_app, length_fmap|].
    split; [by rewrite (to_list_abs _ _ _ _ Habs' Ho'), fmap_app|].
    split; [done|].
    destruct (tail_rep_live s' R' _ Hrep' (l, v) (last_snoc _ _)) as [Ht Hlive].
    split; [done|]. split; [done|].
    intros Hnil. apply fmap_nil_inv in Hnil. subst ns. by destruct Hrep' as (_ & _ & -> & _).
Qed.

End Access.

(** C7. [display] writes the elements in head-to-tail order, as many as
    [size] counts, as [[e1 -> e2 -> ... -> en] (circular)], or
    [[] (empty)] for an empty ring, and ends the line; on an empty ring
    of integers filled with 1, 2, 3, 4, 5 it writes
    [[1 -> 2 -> 3 -> 4 -> 5] (circular)]. *)
Theorem display_format {T} (show : T → string) (s : state T) this xs :
  invariant s → to_list this s = Ok xs s →
  display show this s =
    Ok () (mkState (heap s) (objs s) (cout s +:+ rendering show xs +:+ nl)) ∧
  size this s = Ok (length xs) s ∧
  (∀ NDEBUG alloc (z : state Z) r,
     invariant z → to_list r z = Ok [] z → alloc_fresh alloc → alloc_total alloc →
     ∃ z', (append_all NDEBUG alloc r [1; 2; 3; 4; 5]%Z ;; display pretty r) z = Ok () z' ∧
           cout z' = cout z +:+ "[1 -> 2 -> 3 -> 4 -> 5] (circular)" +:+ nl).
Proof.
  intros [own Habs]%invariant_state_wf Hxs.
  destruct (to_list_abs_inv _ _ _ _ _ Habs Hxs) as (ns & Ho & ->).
  destruct (abs_rep _ _ _ _ Habs Ho) as (R & HR & Hrep).
  split_and!.
  - rewrite (display_rep s this R ns HR Hrep show). do 3 f_equal. by destruct ns.
  - rewrite length_fmap. by eapply size_abs.
  - clear. intros NDEBUG alloc z r [own Habs]%invariant_state_wf Hnil Hfresh Htotal.
    destruct (to_list_abs_inv _ _ _ _ _ Habs Hnil) as (ns & Ho & Hns).
    symmetry in Hns. apply fmap_nil_inv in Hns. subst ns.
    destruct (append_all_abs NDEBUG alloc own z r [] [1; 2; 3; 4; 5]%Z Hfresh Htotal Habs Ho)
      as (z1 & ns' & Hrun1 & Habs1 & Hvs & Hcout).
    assert (<[r:=[] ++ ns']> own !! r = Some ns') as Ho1 by (by simpl_ins).
    destruct (abs_rep _ _ _ _ Habs1 Ho1) as (R1 & HR1 & Hrep1).
    eexists. rewrite (bind_eq _ _ _ _ _ Hrun1).
    split; [apply (display_rep z1 r R1 ns' HR1 Hrep1 pretty)|].
    simpl. rewrite Hcout, Hvs. by destruct ns'.
Qed.
Section FullCircle.

Lemma size_abs_inv {T} own (s s0 : state T) this n :
  abs own s → size this s = Ok n s0 → ∃ ns, own !! this = Some ns ∧ n = length ns.
Proof.
  intros Habs Hsz. destruct (objs s !! this) as [R|] eqn:HR.
  - destruct (abs_is_Some own s this Habs) as [ns Ho]; [by rewrite HR|].
    exists ns. split; [done|]. rewrite (size_abs _ _ _ _ Habs Ho) in Hsz. by injection Hsz.
  - revert Hsz. run. done.
Qed.

Lemma times_rotate_full {T} NDEBUG own (s : state T) this ns :
  abs own s → own !! this = Some ns →
  times (length ns) (rotate NDEBUG this) s = Ok () s.
Proof.
  intros Habs Ho.
  destruct (times_rotate_abs NDEBUG own s this ns (length ns) Habs Ho)
    as (s' & R' & Hrun & Habs' & Hs').
  rewrite Hrun. f_equal. rewrite Hs'. apply state_insert_id.
  destruct (abs_rep _ _ _ _ Habs Ho) as (R & HR & Hrep). rewrite HR. f_equal.
  rewrite rotn_full in Habs'.
  destruct (abs_rep _ _ this ns Habs') as (R'' & HR'' & Hrep''); [by simpl_ins|].
  rewrite Hs' in HR''. simpl in HR''. rewrite lookup_insert_eq in HR''.
  injection HR'' as <-. by eapply ring_rep_inj.
Qed.

Lemma rot1_Forall {A} (P : A → Prop) (l : list A) : Forall P l → Forall P (rot1 l).
Proof.
  destruct l as [|x l]; [done|]. intros HP. apply Forall_cons in HP as [Hx Hl].
  simpl. apply Forall_app. split; [done|]. by apply Forall_singleton.
Qed.

Lemma toggle_loop_not_found NDEBUG fuel own (z : state Robot.t) ring id ns i :
  abs own z → own !! ring = Some ns →
  Forall (λ r, Robot.id r ≠ id) ns.*2 →
  i ≤ length ns → length ns - i ≤ fuel →
  ∃ z', toggle_loop NDEBUG fuel ring id i z = Ok false z' ∧
        times (length ns - i) (rotate NDEBUG ring) z = Ok () z'.
Proof.
  revert own z ns i. induction fuel as [|fuel IH]; intros own z ns i Habs Ho Hid Hi Hfuel.
  - exists z. replace (length ns - i) with 0 by lia. split; [|done].
    cbn [toggle_loop]. rewrite (bind_eq _ _ _ _ _ (size_abs _ _ _ _ Habs Ho)).
    by rewrite bool_decide_false by lia.
  - cbn [toggle_loop]. rewrite (bind_eq _ _ _ _ _ (size_abs _ _ _ _ Habs Ho)).
    destruct (decide (i < length ns)) as [Hlt|Hge].
    + rewrite bool_decide_true by done.
      destruct ns as [|c rest] eqn:Hns; [simpl in Hlt; lia|]. rewrite <- Hns in *.
      assert (Robot.id c.2 ≠ id) as Hc.
      { rewrite Hns, fmap_cons in Hid. by apply Forall_cons in Hid as [? _]. }
      rewrite Hns in Ho. rewrite (bind_eq _ _ _ _ _ (front_abs _ _ _ _ _ Habs Ho)).
      rewrite <- Hns in Ho. rewrite bool_decide_false by done.
      destruct (rotate_abs1 NDEBUG own z ring ns Habs Ho) as (z1 & R1 & Hrun1 & Habs1 & _).
      rewrite (bind_eq _ _ _ _ _ Hrun1).
      destruct (IH _ z1 (rot1 ns) (S i) Habs1) as (z' & Hloop & Htimes).
      * by simpl_ins.
      * rewrite rot1_fmap. by apply rot1_Forall.
      * rewrite rot1_length. lia.
      * rewrite rot1_length. lia.
      * exists z'. split; [done|]. rewrite rot1_length in Htimes.
        replace (length ns - i) with (S (length ns - S i)) by lia.
        cbn [times]. by rewrite (bind_eq _ _ _ _ _ Hrun1).
    + rewrite bool_decide_false by done. exists z. replace (length ns - i) with 0 by lia. done.
Qed.

(** C10. [rotate] called [size()] times leaves the state exactly as it
    was: same head, same tail, same links, same sequence.  Hence
    [togglePauseById] with an id that no robot carries gives the ring
    back unchanged, having written only its message. *)
Theorem rotate_full_circle {T} NDEBUG (s : state T) this n :
  invariant s → size this s = Ok n s →
  times n (rotate NDEBUG this) s = Ok () s ∧
  (∀ (z : state Robot.t) fuel ring id xs,
     invariant z → to_list ring z = Ok xs z →
     Forall (λ r, Robot.id r ≠ id) xs → length xs ≤ fuel →
     togglePauseById NDEBUG fuel ring id z =
       Ok () (mkState (heap z) (objs z)
                (cout z +:+ (if bool_decide (xs = []) then "No robots." else "Not found.")
                        +:+ nl))).
Proof.
  intros [own Habs]%invariant_state_wf Hsz. split.
  - destruct (size_abs_inv _ _ _ _ _ Habs Hsz) as (ns & Ho & ->).
    by eapply times_rotate_full.
  - clear. intros z fuel ring id xs [own Habs]%invariant_state_wf Hxs Hid Hfuel.
    destruct (to_list_abs_inv _ _ _ _ _ Habs Hxs) as (ns & Ho & ->).
    rewrite length_fmap in Hfuel.
    unfold togglePauseById. rewrite (bind_eq _ _ _ _ _ (size_abs _ _ _ _ Habs Ho)).
    destruct ns as [|c rest] eqn:Hns.
    + rewrite !bool_decide_true by done. done.
    + rewrite <- Hns in *. rewrite !bool_decide_false by (by rewrite Hns).
      destruct (toggle_loop_not_found NDEBUG fuel own z ring id ns 0 Habs Ho Hid)
        as (z' & Hloop & Htimes); [lia..|].
      rewrite Nat.sub_0_r, (times_rotate_full NDEBUG own z ring ns Habs Ho) in Htimes.
      injection Htimes as <-. by rewrite (bind_eq _ _ _ _ _ Hloop).
Qed.

End FullCircle.
(** * Arguments that name the same object *)

Section Aliasing.
Context {T : Type}.
Variable NDEBUG : bool.

Local Abbreviation cells := (list (loc * T)).

(** [a.mergeWith(a)]: the object ends up empty; its cells stay in the
    store, owned by no object. *)
Lemma mergeWith_self_abs own (s : state T) this ns :
  abs own s → own !! this = Some ns →
  ∃ s', mergeWith NDEBUG this this s = Ok () s' ∧ abs (<[this := []]> own) s'.
Proof.
  intros Habs Ho. destruct (abs_rep _ _ _ _ Habs Ho) as (R & HR & Hrep).
  pose proof Hrep as (Hnd & Hsz & Hh & Ht & Hch).
  destruct (last ns) as [ct|] eqn:Hlast.
  - destruct (tail_rep_live _ _ _ Hrep ct Hlast) as [Ht' Hct].
    destruct ns as [|c0 ns0] eqn:Hns; [done|]. rewrite <- Hns in *.
    assert (head_ R = Some c0.1) as Hh' by (by rewrite Hh, Hns).
    unfold mergeWith. run. rewrite !insert_insert_eq.
    erewrite debug_check_rep; [|simpl; apply lookup_insert_eq|apply ring_rep_nil].
    eexists. split; [reflexivity|].
    eapply abs_update; [done..|apply ring_rep_nil| |].
    + intros l Hl _. rewrite lookup_insert_ne; [done|]. intros <-. apply Hl.
      destruct (last_snoc_inv _ _ Hlast) as [a ->]. rewrite fmap_app.
      apply elem_of_app. right. apply list_elem_of_here.
    + intros l Hl. by apply not_elem_of_nil in Hl.
  - apply last_None in Hlast. subst ns. simpl in Hh. exists s.
    split; [by eapply mergeWith_other_empty|]. by rewrite insert_id.
Qed.

(** [splitIntoTwo] with the receiver among its outputs: clearing the
    outputs empties the receiver, and nothing is left to split. *)
Lemma splitIntoTwo_alias_abs own (s : state T) fuel this first second :
  this = first ∨ this = second →
  abs own s → is_Some (own !! first) → is_Some (own !! second) →
  ∃ s', splitIntoTwo fuel this first second s = Ok () s' ∧
        abs (<[second := []]> (<[first := []]> own)) s'.
Proof.
  intros Halias Habs [nsF HoF] [nsS HoS].
  destruct (clear_abs own s first nsF Habs HoF) as (s1 & Hc1 & Habs1 & _).
  assert (∃ nsS', <[first := []]> own !! second = Some nsS') as [nsS' HoS1].
  { destruct (decide (first = second)) as [->|Hne]; [exists []|exists nsS]; by simpl_ins. }
  destruct (clear_abs _ s1 second nsS' Habs1 HoS1) as (s2 & Hc2 & Habs2 & _).
  exists s2. split; [|done]. unfold splitIntoTwo.
  rewrite (bind_eq _ _ _ _ _ Hc1), (bind_eq _ _ _ _ _ Hc2).
  assert (<[second := []]> (<[first := []]> own) !! this = Some []) as Ho2.
  { destruct Halias as [->| ->]; [|by simpl_ins].
    destruct (decide (first = second)) as [->|Hne]; by simpl_ins. }
  destruct (abs_rep _ _ _ _ Habs2 Ho2) as (R & HR & (_ & _ & Hh & _)). simpl in Hh.
  rewrite (bind_eq _ _ _ _ _ (get_head_obj s2 this R HR)). by rewrite Hh.
Qed.

(** [splitIntoTwo] with one object for both outputs: it ends up with
    what was assigned last, the second half, or with the single cell of
    a ring of one; the cells of the first half stay in the store, owned
    by no object. *)
Lemma splitIntoTwo_same_abs own (s : state T) fuel this out ns nsF :
  this ≠ out → abs own s → own !! this = Some ns → own !! out = Some nsF →
  (length ns - 1) / 2 ≤ fuel →
  ∃ s', splitIntoTwo fuel this out out s = Ok () s' ∧
        abs (<[this := []]>
               (<[out := if decide (2 ≤ length ns)
                         then drop ((length ns + 1) / 2) ns else ns]> own)) s'.
Proof.
  intros Hne Habs Ho HoF Hfuel.
  destruct (clear_abs own s out nsF Habs HoF) as (s1 & Hc1 & Habs1 & _).
  destruct (clear_abs _ s1 out [] Habs1) as (s2 & Hc2 & Habs2 & _); [by simpl_ins|].
  rewrite insert_insert_eq in Habs2. set (own2 := <[out := []]> own) in *.
  assert (own2 !! this = Some ns) as Ho2 by (unfold own2; by simpl_ins).
  assert (own2 !! out = Some []) as HoF2 by (unfold own2; by simpl_ins).
  destruct (abs_rep _ _ _ _ Habs2 Ho2) as (R & HR & Hrep).
  destruct (abs_rep _ _ _ _ Habs2 HoF2) as (F & HF & HrF).
  rewrite (splitIntoTwo_after_clear s s1 s2 fuel this out out F F Hc1 Hc2 HF
             (proj1 (proj2 (proj2 HrF))) HF (proj1 (proj2 (proj2 HrF)))).
  destruct (splitIntoTwo_ring_clean_same s2 fuel this out R F ns Hne HR HF Hrep HrF Hfuel)
    as (h' & F' & Hrun & HrF' & Hframe).
  eexists. split; [exact Hrun|].
  set (ns' := if decide (2 ≤ length ns) then drop ((length ns + 1) / 2) ns else ns) in *.
  assert (∀ l, l ∈ ns'.*1 → l ∈ ns.*1) as Hsub.
  { intros l. unfold ns'. destruct (decide (2 ≤ length ns)); [|done].
    intros Hl.
    assert (ns.*1 = (take ((length ns + 1) / 2) ns).*1 ++ (drop ((length ns + 1) / 2) ns).*1)
      as -> by (by rewrite <- fmap_app, take_drop).
    apply elem_of_app. by right. }
  apply (abs_frame [this; out] own2 _ s2); [done|..].
  - intros r Hr. apply not_elem_of_cons in Hr as [Hr1 Hr]. apply not_elem_of_cons in Hr as [Hr2 _].
    unfold own2. simpl. by simpl_ins.
  - intros r Hr. apply elem_of_cons in Hr as [->|Hr]; [|apply list_elem_of_singleton in Hr as ->];
      simpl.
    + exists [], (mkList None None 0). simpl_ins. split_and!; try done. apply ring_rep_nil.
    + exists ns', F'. by simpl_ins.
  - intros l Hl _. simpl. apply Hframe. apply (Hl this); [apply list_elem_of_here|done].
  - intros r ns0 l Hr Ho' Hl. right. exists this, ns. split; [apply list_elem_of_here|].
    split; [done|].
    apply elem_of_cons in Hr as [->|Hr]; [|apply list_elem_of_singleton in Hr as ->].
    + simpl_ins in Ho'. injection Ho' as <-. by apply not_elem_of_nil in Hl.
    + simpl_ins in Ho'. injection Ho' as <-. by apply Hsub.
  - intros r r' ns1 ns2 l Hr Hr' Hrr Hown1 Hown2 Hl1 Hl2.
    apply elem_of_cons in Hr as [->|Hr]; [|apply list_elem_of_singleton in Hr as ->].
    + simpl_ins in Hown1. injection Hown1 as <-. by apply not_elem_of_nil in Hl1.
    + apply elem_of_cons in Hr' as [->|Hr']; [|apply list_elem_of_singleton in Hr'; done].
      simpl_ins in Hown2. injection Hown2 as <-. by apply not_elem_of_nil in Hl2.
Qed.

End Aliasing.
(** * Concrete states *)


Section Concrete.
Context {T : Type}.

Lemma bump_fresh : alloc_fresh (@bump T).
Proof.
  intros h l [= <-]. apply not_elem_of_dom. apply is_fresh.
Qed.

Lemma bump_total : alloc_total (@bump T).
Proof. intros h. by eexists. Qed.

Lemma fresh_objects_abs (names : list rid) :
  abs (foldr (λ r m, <[r := []]> m) ∅ names) (@fresh_objects T names).
Proof.
  unfold fresh_objects. split_and!; simpl.
  - induction names as [|r0 names IH]; intros r; simpl; [done|].
    destruct (decide (r0 = r)) as [->|Hne]; [by rewrite lookup_insert_eq|].
    rewrite !lookup_insert_ne by done. apply IH.
  - induction names as [|r0 names IH]; intros r ns; simpl; [done|].
    destruct (decide (r0 = r)) as [->|Hne].
    + rewrite !lookup_insert_eq. intros [= <-]. eexists. split; [done|]. apply ring_rep_nil.
    + rewrite !lookup_insert_ne by done. apply IH.
  - assert (∀ r ns, foldr (λ r m, <[r := []]> m) (∅ : gmap rid (list (loc * T))) names !! r
                      = Some ns → ns = []) as Hnil.
    { induction names as [|r0 names IH]; intros r ns; simpl; [done|].
      destruct (decide (r0 = r)) as [->|Hne].
      - rewrite lookup_insert_eq. by intros [= <-].
      - rewrite lookup_insert_ne by done. apply IH. }
    intros r r' ns ns' l _ Ho _ Hl. apply Hnil in Ho. subst ns. by apply not_elem_of_nil in Hl.
Qed.

Lemma fresh_objects_wf (names : list rid) : state_wf (@fresh_objects T names).
Proof. eexists. apply fresh_objects_abs. Qed.

Lemma append_all_wf NDEBUG (s : state T) this vs :
  state_wf s → is_Some (objs s !! this) →
  state_wf (run_state (append_all NDEBUG bump this vs) s).
Proof.
  intros [own Habs] Hthis. destruct (abs_is_Some _ _ _ Habs Hthis) as [ns Ho].
  destruct (append_all_abs NDEBUG bump own s this ns vs bump_fresh bump_total Habs Ho)
    as (s' & ns' & Hrun & Habs' & _).
  unfold run_state. rewrite Hrun. by eexists.
Qed.

End Concrete.

(** * The structural invariant *)

Section Invariant.
Context {T : Type}.
Variable NDEBUG : bool.
Variable alloc : gmap loc (Node T) → option loc.

Local Abbreviation cells := (list (loc * T)).


(** C4. Every mutator of the public interface takes a state that
    satisfies the structural invariant to another such state,
    whichever objects its arguments name; [_checkInvariant] runs
    through on every object of such a state, and freshly constructed
    objects satisfy it.  An [append] whose allocation fails leaves the
    state it found. *)
Theorem operations_keep_invariant (s : state T) :
  invariant s →
  (∀ r, is_Some (objs s !! r) → _checkInvariant r s = Ok () s) ∧
  (∀ this v, is_Some (objs s !! this) → alloc_fresh alloc →
     append NDEBUG alloc this v s = Throw s ∨
     ∃ s', append NDEBUG alloc this v s = Ok () s' ∧ invariant s') ∧
  (∀ this, is_Some (objs s !! this) →
     ∃ b s', pop_front NDEBUG this s = Ok b s' ∧ invariant s') ∧
  (∀ this, is_Some (objs s !! this) →
     ∃ s', rotate NDEBUG this s = Ok () s' ∧ invariant s') ∧
  (∀ this, is_Some (objs s !! this) →
     ∃ s', clear this s = Ok () s' ∧ invariant s') ∧
  (∀ this first second fuel n,
     is_Some (objs s !! first) → is_Some (objs s !! second) →
     size this s = Ok n s → (n - 1) / 2 ≤ fuel →
     ∃ s', splitIntoTwo fuel this first second s = Ok () s' ∧ invariant s' ∧
       (this ≠ first → this ≠ second → first ≠ second →
          size first s' = Ok ((n + 1) / 2) s' ∧ size second s' = Ok (n / 2) s')) ∧
  (∀ this other, is_Some (objs s !! this) → is_Some (objs s !! other) →
     ∃ s', mergeWith NDEBUG this other s = Ok () s' ∧ invariant s') ∧
  (∀ names, invariant (@fresh_objects T names)).
Proof.
  intros Hinv. pose proof (invariant_state_wf s Hinv) as Hwf. pose proof Hwf as [own Habs].
  assert (∀ own' (s' : state T), abs own' s' → invariant s') as Hpost.
  { intros own' s' Habs'. apply state_wf_invariant. by exists own'. }
  split; [intros r Hr; by apply checkInvariant_wf|]. split_and!.
  - intros this v Hthis Hfresh. destruct (abs_is_Some _ _ _ Habs Hthis) as [ns Ho].
    destruct (alloc (heap s)) as [l|] eqn:Hal.
    + right. destruct (append_abs NDEBUG alloc own s this ns l v Habs Ho Hal (Hfresh _ _ Hal))
        as (s' & Hrun & Habs' & _).
      exists s'. split; [done|]. by eapply Hpost.
    + left. unfold append, new_Node, bind. by rewrite Hal.
  - intros this Hthis. destruct (abs_is_Some _ _ _ Habs Hthis) as [ns Ho].
    destruct ns as [|c rest].
    + exists false, s. split; [by eapply pop_front_abs_nil|]. by eapply Hpost.
    + destruct (pop_front_abs NDEBUG own s this c rest Habs Ho) as (s' & Hrun & Habs' & _).
      exists true, s'. split; [done|]. by eapply Hpost.
  - intros this Hthis. destruct (abs_is_Some _ _ _ Habs Hthis) as [ns Ho].
    destruct (rotate_abs1 NDEBUG own s this ns Habs Ho) as (s' & R' & Hrun & Habs' & _).
    exists s'. split; [done|]. by eapply Hpost.
  - intros this Hthis. destruct (abs_is_Some _ _ _ Habs Hthis) as [ns Ho].
    destruct (clear_abs own s this ns Habs Ho) as (s' & Hrun & Habs' & _).
    exists s'. split; [done|]. by eapply Hpost.
  - intros this first second fuel n HF HS Hsz Hfuel.
    destruct (size_abs_inv _ _ _ _ _ Habs Hsz) as (ns & Ho & ->).
    destruct (abs_is_Some _ _ _ Habs HF) as [nsF HoF].
    destruct (abs_is_Some _ _ _ Habs HS) as [nsS HoS].
    destruct (decide (this = first)) as [Hn1|Hn1].
    { destruct (splitIntoTwo_alias_abs own s fuel this first second) as (s' & Hrun & Habs');
        [by left|done|by eexists|by eexists|].
      exists s'. split; [done|]. split; [by eapply Hpost|done]. }
    destruct (decide (this = second)) as [Hn2|Hn2].
    { destruct (splitIntoTwo_alias_abs own s fuel this first second) as (s' & Hrun & Habs');
        [by right|done|by eexists|by eexists|].
      exists s'. split; [done|]. split; [by eapply Hpost|done]. }
    destruct (decide (first = second)) as [Hn3|Hn3].
    { subst second.
      destruct (splitIntoTwo_same_abs own s fuel this first ns nsF Hn1 Habs Ho HoF Hfuel)
        as (s' & Hrun & Habs').
      exists s'. split; [done|]. split; [by eapply Hpost|done]. }
    destruct (splitIntoTwo_abs own s fuel this first second ns nsF nsS
                Hn1 Hn2 Hn3 Habs Ho HoF HoS Hfuel) as (s' & Hrun & Habs' & _).
    exists s'. split; [done|]. split; [by eapply Hpost|]. intros _ _ _.
    destruct (half_sizes (length ns)) as (Hsum & Hceil & Hle).
    split.
    + rewrite (size_abs _ _ first (take ((length ns + 1) / 2) ns) Habs') by (by simpl_ins).
      by rewrite length_take, Nat.min_l by lia.
    + rewrite (size_abs _ _ second (drop ((length ns + 1) / 2) ns) Habs') by (by simpl_ins).
      rewrite length_drop. f_equal. lia.
  - intros this other Hthis Hother.
    destruct (abs_is_Some _ _ _ Habs Hthis) as [nsA HoA].
    destruct (abs_is_Some _ _ _ Habs Hother) as [nsB HoB].
    destruct (decide (this = other)) as [<-|Hne].
    + destruct (mergeWith_self_abs NDEBUG own s this nsA Habs HoA) as (s' & Hrun & Habs').
      exists s'. split; [done|]. by eapply Hpost.
    + destruct (mergeWith_abs NDEBUG own s this other nsA nsB Hne Habs HoA HoB)
        as (s' & Hrun & Habs' & _).
      exists s'. split; [done|]. by eapply Hpost.
  - intros names. eapply Hpost. apply fresh_objects_abs.
Qed.

End Invariant.

Lemma demo_wf : state_wf demo.
Proof.
  assert (state_wf (run_state (append_all true bump 0 [1; 2; 3; 4; 5]%Z)
                      (fresh_objects [0; 1; 2]))) as H0.
  { apply append_all_wf; [apply fresh_objects_wf|]. vm_compute. by eexists. }
  assert (state_wf (run_state (append_all true bump 1 [7]%Z)
            (run_state (append_all true bump 0 [1; 2; 3; 4; 5]%Z)
               (fresh_objects [0; 1; 2])))) as H1.
  { apply append_all_wf; [done|]. vm_compute. by eexists. }
  assert (state_wf (run_state (append_all true bump 2 [8; 9]%Z)
            (run_state (append_all true bump 1 [7]%Z)
               (run_state (append_all true bump 0 [1; 2; 3; 4; 5]%Z)
                  (fresh_objects [0; 1; 2]))))) as H2.
  { apply append_all_wf; [done|]. vm_compute. by eexists. }
  replace demo with (run_state (append_all true bump 2 [8; 9]%Z)
            (run_state (append_all true bump 1 [7]%Z)
               (run_state (append_all true bump 0 [1; 2; 3; 4; 5]%Z)
                  (fresh_objects [0; 1; 2])))); [done|].
  vm_compute. reflexivity.
Qed.

Lemma robots_wf : state_wf robots.
Proof.
  apply append_all_wf; [apply fresh_objects_wf|]. vm_compute. by eexists.
Qed.

Lemma demo_inv : invariant demo.
Proof. apply state_wf_invariant, demo_wf. Qed.

Lemma robots_inv : invariant robots.
Proof. apply state_wf_invariant, robots_wf. Qed.

Lemma fresh_objects_inv {T} (names : list rid) : invariant (@fresh_objects T names).
Proof. apply state_wf_invariant, fresh_objects_wf. Qed.
(** * The scenarios of the written specification, run on the model *)

Example scenario_display :
  written (display pretty 0) (ring_of [1; 2; 3; 4; 5]%Z)
    = "[1 -> 2 -> 3 -> 4 -> 5] (circular)" +:+ nl.
Proof. vm_compute. reflexivity. Qed.

Example scenario_split :
  written (splitIntoTwo 2 0 1 2 ;; display pretty 1 ;; display pretty 2 ;; display pretty 0)
          (ring_of [1; 2; 3; 4; 5]%Z)
    = "[1 -> 2 -> 3] (circular)" +:+ nl +:+ "[4 -> 5] (circular)" +:+ nl
        +:+ "[] (empty)" +:+ nl.
Proof. vm_compute. reflexivity. Qed.

Example scenario_split_sizes :
  split_sizes <$> [0; 1; 2; 3; 4; 5; 6]
    = Some <$> [(0, 0); (1, 0); (1, 1); (2, 1); (2, 2); (3, 2); (3, 3)].
Proof. vm_compute. reflexivity. Qed.

Example scenario_pop_front :
  written (pop_front false 0 ;; display pretty 0) (ring_of [1; 2; 3]%Z)
    = "[2 -> 3] (circular)" +:+ nl.
Proof. vm_compute. reflexivity. Qed.

Example scenario_rotate :
  written (rotate false 0 ;; display pretty 0) (ring_of [1; 2; 3]%Z)
    = "[2 -> 3 -> 1] (circular)" +:+ nl.
Proof. vm_compute. reflexivity. Qed.

Example scenario_empty :
  (let* b := pop_front false 0 in display pretty 0 ;; ret b) (ring_of [])
    = Ok false (mkState ∅ (objs (ring_of [])) ("[] (empty)" +:+ nl)).
Proof. vm_compute. reflexivity. Qed.

Example scenario_merge_back :
  written (splitIntoTwo 2 0 1 2 ;; mergeWith false 1 2 ;; mergeWith false 0 1 ;;
           display pretty 0)
          (ring_of [1; 2; 3; 4; 5]%Z)
    = "[1 -> 2 -> 3 -> 4 -> 5] (circular)" +:+ nl.
Proof. vm_compute. reflexivity. Qed.

(** [togglePauseById] on an id that is present stops with that robot
    at the head, its flag flipped. *)
Example scenario_toggle_found :
  (togglePauseById false 3 0 2 ;; front 0) robots
    = Ok (Robot.mk 2 "bob" 3 1 false)
         (run_state (togglePauseById false 3 0 2) robots) ∧
  cout (run_state (togglePauseById false 3 0 2) robots)
    = "Resumed: Robot(bob, Battery=3)" +:+ nl.
Proof. vm_compute. split; reflexivity. Qed.

(** One object for both outputs keeps the second half only. *)
Example scenario_split_same_output :
  written (splitIntoTwo 2 0 1 1 ;; display pretty 1 ;; display pretty 0)
          (ring_of [1; 2; 3; 4; 5]%Z)
    = "[4 -> 5] (circular)" +:+ nl +:+ "[] (empty)" +:+ nl.
Proof. vm_compute. reflexivity. Qed.

(** A ring merged with itself ends up empty. *)
Example scenario_merge_self :
  written (mergeWith false 0 0 ;; display pretty 0) (ring_of [1; 2; 3]%Z)
    = "[] (empty)" +:+ nl.
Proof. vm_compute. reflexivity. Qed.

(** The loop of [splitIntoTwo] stops only when it has been followed far
    enough. *)
Example scenario_split_fuel :
  splitIntoTwo 1 0 1 2 (ring_of [1; 2; 3; 4; 5]%Z) = Fault OutOfFuel.
Proof. vm_compute. reflexivity. Qed.

(** [_checkInvariant] tests less than the invariant: it accepts
    [twice_around], which is no ring of six nodes, and rejects a half
    that [splitIntoTwo] makes of it. *)
Example check_weaker_than_invariant :
  _checkInvariant 0 twice_around = Ok () twice_around ∧
  ¬ invariant twice_around ∧
  (splitIntoTwo 6 0 1 2 ;; _checkInvariant 1) twice_around = Fault AssertFailed.
Proof.
  split; [vm_compute; reflexivity|]. split; [|vm_compute; reflexivity].
  intros [Hrings _].
  destruct (Hrings 0) as (R & HR & _ & _ & Hring); [vm_compute; eexists; reflexivity|].
  vm_compute in HR. injection HR as <-.
  destruct (Hring ltac:(simpl; lia)) as (_ & _ & _ & Hfirst).
  destruct (Hfirst 3 ltac:(simpl; lia)) as (p & Hp & Hne).
  vm_compute in Hp. injection Hp as <-. by apply Hne.
Qed.

(** * The theorems at the concrete states *)

Lemma splitIntoTwo_halves_demo :
  invariant demo ∧ to_list 0 demo = Ok [1; 2; 3; 4; 5]%Z demo ∧
  ∃ s' ys zs,
    splitIntoTwo 2 0 1 2 demo = Ok () s' ∧
    size 0 s' = Ok 0 s' ∧
    to_list 1 s' = Ok ys s' ∧ to_list 2 s' = Ok zs s' ∧
    length ys = 3 ∧ length zs = 2 ∧ ys ++ zs = [1; 2; 3; 4; 5]%Z.
Proof.
  assert (to_list 0 demo = Ok [1; 2; 3; 4; 5]%Z demo) as Hxs by (vm_compute; reflexivity).
  split; [exact demo_inv|]. split; [exact Hxs|].
  destruct (splitIntoTwo_halves demo 2 0 1 2 [1; 2; 3; 4; 5]%Z demo_inv
              ltac:(lia) ltac:(lia) ltac:(lia)
              ltac:(vm_compute; eexists; reflexivity) ltac:(vm_compute; eexists; reflexivity)
              Hxs ltac:(vm_compute; lia))
    as (s' & ys & zs & Hrun & _ & Hsz & Hys & Hzs & _ & _ & Hly & Hlz & _ & _ & Happ & _).
  exists s', ys, zs.
  exact (conj Hrun (conj Hsz (conj Hys (conj Hzs (conj Hly (conj Hlz Happ)))))).
Defined.

Lemma mergeWith_concat_demo :
  invariant demo ∧ to_list 1 demo = Ok [7]%Z demo ∧ to_list 2 demo = Ok [8; 9]%Z demo ∧
  ∃ s',
    mergeWith false 1 2 demo = Ok () s' ∧
    to_list 1 s' = Ok [7; 8; 9]%Z s' ∧ size 1 s' = Ok 3 s' ∧
    to_list 2 s' = Ok [] s' ∧ size 2 s' = Ok 0 s'.
Proof.
  assert (to_list 1 demo = Ok [7]%Z demo) as Hxs by (vm_compute; reflexivity).
  assert (to_list 2 demo = Ok [8; 9]%Z demo) as Hys by (vm_compute; reflexivity).
  split; [exact demo_inv|]. split; [exact Hxs|]. split; [exact Hys|].
  destruct (mergeWith_concat false demo 1 2 [7]%Z [8; 9]%Z demo_inv ltac:(lia) Hxs Hys)
    as (s' & Hrun & Hl & Hsz & Hl2 & Hsz2 & _).
  exists s'. exact (conj Hrun (conj Hl (conj Hsz (conj Hl2 Hsz2)))).
Defined.

Lemma merge_after_split_demo :
  invariant demo ∧ to_list 0 demo = Ok [1; 2; 3; 4; 5]%Z demo ∧
  ∃ s',
    (splitIntoTwo 2 0 1 2 ;; mergeWith false 1 2) demo = Ok () s' ∧
    to_list 1 s' = Ok [1; 2; 3; 4; 5]%Z s' ∧ size 2 s' = Ok 0 s'.
Proof.
  assert (to_list 0 demo = Ok [1; 2; 3; 4; 5]%Z demo) as Hxs by (vm_compute; reflexivity).
  split; [exact demo_inv|]. split; [exact Hxs|].
  destruct (merge_after_split false demo 2 0 1 2 [1; 2; 3; 4; 5]%Z demo_inv
              ltac:(lia) ltac:(lia) ltac:(lia)
              ltac:(vm_compute; eexists; reflexivity) ltac:(vm_compute; eexists; reflexivity)
              Hxs ltac:(vm_compute; lia))
    as (s' & Hrun & Hl & Hsz & _).
  exists s'. exact (conj Hrun (conj Hl Hsz)).
Defined.

Lemma operations_keep_invariant_demo :
  invariant demo ∧
  _checkInvariant 0 demo = Ok () demo ∧
  (∃ s', splitIntoTwo 2 0 1 2 demo = Ok () s' ∧ invariant s' ∧
         size 1 s' = Ok 3 s' ∧ size 2 s' = Ok 2 s') ∧
  (∃ s', splitIntoTwo 2 0 1 1 demo = Ok () s' ∧ invariant s') ∧
  (∃ s', mergeWith false 1 2 demo = Ok () s' ∧ invariant s') ∧
  (∃ s', mergeWith false 0 0 demo = Ok () s' ∧ invariant s') ∧
  (∃ b s', pop_front false 0 demo = Ok b s' ∧ invariant s') ∧
  (∃ s', rotate false 0 demo = Ok () s' ∧ invariant s') ∧
  (∃ s', clear 0 demo = Ok () s' ∧ invariant s') ∧
  (append false bump 0 6%Z demo = Throw demo ∨
   ∃ s', append false bump 0 6%Z demo = Ok () s' ∧ invariant s') ∧
  invariant (@fresh_objects Z [0; 1; 2]).
Proof.
  assert (size 0 demo = Ok 5 demo) as Hsz by (vm_compute; reflexivity).
  assert (is_Some (objs demo !! 0)) as H0 by (vm_compute; eexists; reflexivity).
  assert (is_Some (objs demo !! 1)) as H1 by (vm_compute; eexists; reflexivity).
  assert (is_Some (objs demo !! 2)) as H2 by (vm_compute; eexists; reflexivity).
  pose proof demo_inv as Hinv.
  split; [exact Hinv|].
  destruct (operations_keep_invariant false bump demo Hinv)
    as (Hcheck & Happ & Hpop & Hrot & Hclear & Hsplit & Hmerge & Hfresh).
  split; [exact (Hcheck 0 H0)|].
  split.
  { destruct (Hsplit 0 1 2 2 5 H1 H2 Hsz ltac:(vm_compute; lia))
      as (s' & Hrun & Hinv' & Hsizes).
    destruct (Hsizes ltac:(lia) ltac:(lia) ltac:(lia)) as [Hs1 Hs2].
    exists s'. exact (conj Hrun (conj Hinv' (conj Hs1 Hs2))). }
  split.
  { destruct (Hsplit 0 1 1 2 5 H1 H1 Hsz ltac:(vm_compute; lia))
      as (s' & Hrun & Hinv' & _).
    exists s'. exact (conj Hrun Hinv'). }
  split.
  { destruct (Hmerge 1 2 H1 H2) as (s' & Hrun & Hinv').
    exists s'. exact (conj Hrun Hinv'). }
  split.
  { destruct (Hmerge 0 0 H0 H0) as (s' & Hrun & Hinv').
    exists s'. exact (conj Hrun Hinv'). }
  split.
  { destruct (Hpop 0 H0) as (b & s' & Hrun & Hinv').
    exists b, s'. exact (conj Hrun Hinv'). }
  split.
  { destruct (Hrot 0 H0) as (s' & Hrun & Hinv').
    exists s'. exact (conj Hrun Hinv'). }
  split.
  { destruct (Hclear 0 H0) as (s' & Hrun & Hinv').
    exists s'. exact (conj Hrun Hinv'). }
  split; [exact (Happ 0 6%Z H0 bump_fresh)|].
  exact (Hfresh [0; 1; 2]).
Defined.

Lemma pop_front_removes_head_demo :
  invariant demo ∧ to_list 0 demo = Ok [1; 2; 3; 4; 5]%Z demo ∧
  (∃ s', pop_front false 0 demo = Ok true s' ∧
         size 0 s' = Ok 4 s' ∧ to_list 0 s' = Ok [2; 3; 4; 5]%Z s') ∧
  pop_front false 0 (fresh_objects [0]) = Ok false (@fresh_objects Z [0]) ∧
  (∃ s1 s2,
     append_all false bump 0 [4; 5; 6]%Z (fresh_objects [0]) = Ok () s1 ∧
     pop_front_n false 3 0 s1 = Ok [true; true; true] s2 ∧
     pop_front false 0 s2 = Ok false s2).
Proof.
  assert (to_list 0 demo = Ok [1; 2; 3; 4; 5]%Z demo) as Hxs by (vm_compute; reflexivity).
  assert (to_list 0 (fresh_objects [0]) = Ok [] (@fresh_objects Z [0])) as Hnil
    by (vm_compute; reflexivity).
  split; [exact demo_inv|]. split; [exact Hxs|].
  destruct (pop_front_removes_head false bump demo 0 [1; 2; 3; 4; 5]%Z demo_inv Hxs)
    as (_ & Hcons & _).
  destruct (pop_front_removes_head false bump (fresh_objects [0]) 0 []
              (fresh_objects_inv [0]) Hnil) as (Hiff & _ & Hfill).
  split.
  { destruct (Hcons 1%Z [2; 3; 4; 5]%Z eq_refl) as (s' & Hrun & Hsz & Hl & _).
    exists s'. exact (conj Hrun (conj Hsz Hl)). }
  split; [exact (proj1 Hiff eq_refl)|].
  destruct (Hfill eq_refl bump_fresh bump_total [4; 5; 6]%Z) as (s1 & s2 & H1 & H2 & H3 & _).
  exists s1, s2. exact (conj H1 (conj H2 H3)).
Defined.

Lemma rotate_advances_demo :
  invariant demo ∧ to_list 0 demo = Ok [1; 2; 3; 4; 5]%Z demo ∧
  to_list 1 demo = Ok [7]%Z demo ∧
  rotate false 1 demo = Ok () demo ∧
  (∃ s', rotate false 0 demo = Ok () s' ∧ to_list 0 s' = Ok [2; 3; 4; 5; 1]%Z s') ∧
  (∃ s1 s2,
     times 3 (rotate false 0) demo = Ok () s1 ∧
     times 3 (pop_append false bump 0) demo = Ok () s2 ∧
     to_list 0 s1 = Ok [4; 5; 1; 2; 3]%Z s1 ∧
     to_list 0 s2 = Ok [4; 5; 1; 2; 3]%Z s2).
Proof.
  assert (to_list 0 demo = Ok [1; 2; 3; 4; 5]%Z demo) as Hxs by (vm_compute; reflexivity).
  assert (to_list 1 demo = Ok [7]%Z demo) as Hxs1 by (vm_compute; reflexivity).
  split; [exact demo_inv|]. split; [exact Hxs|]. split; [exact Hxs1|].
  destruct (rotate_advances false bump demo 0 [1; 2; 3; 4; 5]%Z demo_inv Hxs)
    as (_ & Hstep & Hk).
  destruct (rotate_advances false bump demo 1 [7]%Z demo_inv Hxs1) as (Hsmall & _).
  split; [exact (Hsmall (le_n 1))|].
  split.
  { destruct (Hstep 1%Z 2%Z [3; 4; 5]%Z eq_refl)
      as (s' & R & R' & Hrun & _ & _ & _ & _ & _ & _ & Hl).
    exists s'. exact (conj Hrun Hl). }
  destruct (Hk bump_fresh bump_total 3) as (s1 & s2 & H1 & H2 & H3 & H4 & _).
  exists s1, s2. exact (conj H1 (conj H2 (conj H3 H4))).
Defined.

Lemma display_format_demo :
  invariant demo ∧ to_list 0 demo = Ok [1; 2; 3; 4; 5]%Z demo ∧
  display pretty 0 demo =
    Ok () (mkState (heap demo) (objs demo)
             (cout demo +:+ "[1 -> 2 -> 3 -> 4 -> 5] (circular)" +:+ nl)) ∧
  display pretty 0 (@fresh_objects Z [0]) =
    Ok () (mkState (heap (@fresh_objects Z [0])) (objs (@fresh_objects Z [0]))
             (cout (@fresh_objects Z [0]) +:+ "[] (empty)" +:+ nl)) ∧
  ∃ z', (append_all false bump 0 [1; 2; 3; 4; 5]%Z ;; display pretty 0) (fresh_objects [0])
          = Ok () z' ∧
        cout z' = cout (@fresh_objects Z [0]) +:+ "[1 -> 2 -> 3 -> 4 -> 5] (circular)" +:+ nl.
Proof.
  assert (to_list 0 demo = Ok [1; 2; 3; 4; 5]%Z demo) as Hxs by (vm_compute; reflexivity).
  assert (to_list 0 (fresh_objects [0]) = Ok [] (@fresh_objects Z [0])) as Hnil
    by (vm_compute; reflexivity).
  split; [exact demo_inv|]. split; [exact Hxs|].
  destruct (display_format pretty demo 0 [1; 2; 3; 4; 5]%Z demo_inv Hxs) as (Hd & _ & Hscen).
  destruct (display_format pretty (fresh_objects [0]) 0 [] (fresh_objects_inv [0]) Hnil)
    as (Hd0 & _).
  split; [exact Hd|]. split; [exact Hd0|].
  exact (Hscen false bump (fresh_objects [0]) 0 (fresh_objects_inv [0]) Hnil
           bump_fresh bump_total).
Defined.

Lemma front_is_first_demo :
  invariant demo ∧ to_list 0 demo = Ok [1; 2; 3; 4; 5]%Z demo ∧
  front 0 demo = Ok 1%Z demo ∧
  front 0 (@fresh_objects Z [0]) = Fault UB.
Proof.
  assert (to_list 0 demo = Ok [1; 2; 3; 4; 5]%Z demo) as Hxs by (vm_compute; reflexivity).
  assert (to_list 0 (fresh_objects [0]) = Ok [] (@fresh_objects Z [0])) as Hnil
    by (vm_compute; reflexivity).
  split; [exact demo_inv|]. split; [exact Hxs|].
  destruct (front_is_first demo 0 [1; 2; 3; 4; 5]%Z demo_inv Hxs) as (Hf & _).
  destruct (front_is_first (fresh_objects [0]) 0 [] (fresh_objects_inv [0]) Hnil)
    as (_ & _ & Hub).
  split; [exact (Hf 1%Z [2; 3; 4; 5]%Z eq_refl)|exact (Hub eq_refl)].
Defined.

Lemma append_all_or_nothing_demo :
  invariant demo ∧ to_list 0 demo = Ok [1; 2; 3; 4; 5]%Z demo ∧
  append false no_room 0 6%Z demo = Throw demo ∧
  ∃ s', append false bump 0 6%Z demo = Ok () s' ∧
        size 0 s' = Ok 6 s' ∧ to_list 0 s' = Ok [1; 2; 3; 4; 5; 6]%Z s'.
Proof.
  assert (to_list 0 demo = Ok [1; 2; 3; 4; 5]%Z demo) as Hxs by (vm_compute; reflexivity).
  split; [exact demo_inv|]. split; [exact Hxs|].
  destruct (append_all_or_nothing false no_room demo 0 6%Z [1; 2; 3; 4; 5]%Z demo_inv Hxs)
    as (Hthrow & _).
  destruct (append_all_or_nothing false bump demo 0 6%Z [1; 2; 3; 4; 5]%Z demo_inv Hxs)
    as (_ & Hok).
  split; [exact (Hthrow eq_refl)|].
  destruct (Hok (fresh (dom (heap demo))) eq_refl (bump_fresh _ _ eq_refl))
    as (s' & R' & Hrun & Hsz & Hl & _).
  exists s'. exact (conj Hrun (conj Hsz Hl)).
Defined.

Lemma rotate_full_circle_demo :
  invariant demo ∧ size 0 demo = Ok 5 demo ∧
  times 5 (rotate false 0) demo = Ok () demo ∧
  togglePauseById false 3 0 9 robots =
    Ok () (mkState (heap robots) (objs robots) (cout robots +:+ "Not found." +:+ nl)).
Proof.
  assert (size 0 demo = Ok 5 demo) as Hsz by (vm_compute; reflexivity).
  split; [exact demo_inv|]. split; [exact Hsz|].
  destruct (rotate_full_circle false demo 0 5 demo_inv Hsz) as (Hfull & Htoggle).
  split; [exact Hfull|].
  apply (Htoggle robots 3 0 9%Z
           [Robot.mk 1 "ann" 5 1 false; Robot.mk 2 "bob" 3 1 true; Robot.mk 3 "cy" 4 1 false]).
  - exact robots_inv.
  - vm_compute. reflexivity.
  - repeat constructor; simpl; lia.
  - simpl. lia.
Defined.

(** * Frames: what a call leaves alone *)

Section Frames.
Context {T : Type}.
Local Abbreviation cells := (list (loc * T)).

Lemma owned_insert_ne (own : gmap rid cells) r ns l :
  owned (<[r := ns]> own) l → l ∉ ns.*1 → owned own l.
Proof.
  intros (r' & ns' & Ho & Hl) Hn. destruct (decide (r' = r)) as [->|Hne].
  - simpl_ins in Ho. by injection Ho as <-.
  - simpl_ins in Ho. by exists r', ns'.
Qed.

Lemma owned_insert_eq (own : gmap rid cells) r ns l :
  l ∈ ns.*1 → owned (<[r := ns]> own) l.
Proof. intros Hl. exists r, ns. by simpl_ins. Qed.

Lemma owned_insert_other (own : gmap rid cells) r ns0 ns l :
  own !! r = Some ns0 → owned own l → l ∉ ns0.*1 → owned (<[r := ns]> own) l.
Proof.
  intros Ho (r' & ns' & Ho' & Hl) Hn. exists r', ns'. split; [|done].
  destruct (decide (r' = r)) as [->|Hne]; [|by simpl_ins].
  rewrite Ho in Ho'. by injection Ho' as <-.
Qed.

Lemma frames_refl (own : gmap rid cells) (s : state T) : frames own own s s.
Proof. by split_and!. Qed.

Lemma frames_trans (own own' own'' : gmap rid cells) (s s' s'' : state T) :
  (∀ l, Decision (owned own' l)) →
  frames own own' s s' → frames own' own'' s' s'' → frames own own'' s s''.
Proof.
  intros Hdec (F1 & G1 & N1) (F2 & G2 & N2). split_and!.
  - intros l H0 H2. destruct (Hdec l) as [H1|H1].
    + by rewrite G2, N1.
    + by rewrite F2, F1.
  - intros l H0 H2. destruct (Hdec l) as [H1|H1].
    + by apply G2.
    + rewrite F2 by done. by apply G1.
  - intros l H2 H0. destruct (Hdec l) as [H1|H1].
    + by apply N1.
    + rewrite <- F1 by done. by apply N2.
Qed.

Lemma owned_dec (own : gmap rid cells) l : Decision (owned own l).
Proof.
  destruct (decide (Exists (λ rn : rid * cells, l ∈ rn.2.*1) (map_to_list own))) as [He|Hn].
  - left. apply Exists_exists in He as ([r ns] & Hin & Hl).
    exists r, ns. split; [|done]. by apply elem_of_map_to_list.
  - right. intros (r & ns & Ho & Hl). apply Hn. apply Exists_exists.
    exists (r, ns). split; [|done]. by apply elem_of_map_to_list.
Qed.

(** A change to one ring. *)
Lemma frames_update (own : gmap rid cells) (s s' : state T) this ns ns' :
  own !! this = Some ns →
  (∀ l, l ∉ ns.*1 → l ∉ ns'.*1 → heap s' !! l = heap s !! l) →
  (∀ l, l ∈ ns.*1 → l ∉ ns'.*1 → heap s' !! l = None) →
  (∀ l, l ∈ ns'.*1 → l ∉ ns.*1 → heap s !! l = None) →
  frames own (<[this := ns']> own) s s'.
Proof.
  intros Ho F G N. split_and!.
  - intros l H0 H1. apply F.
    + intros Hl. apply H0. by exists this, ns.
    + intros Hl. apply H1. by apply owned_insert_eq.
  - intros l (r & ns0 & Ho0 & Hl) H1. destruct (decide (r = this)) as [->|Hne].
    + rewrite Ho in Ho0. injection Ho0 as <-. apply G; [done|].
      intros Hl'. apply H1. by apply owned_insert_eq.
    + exfalso. apply H1. exists r, ns0. by simpl_ins.
  - intros l (r & ns0 & Ho0 & Hl) H0. destruct (decide (r = this)) as [->|Hne].
    + simpl_ins in Ho0. injection Ho0 as <-. apply N; [done|].
      intros Hl'. apply H0. by exists this, ns.
    + simpl_ins in Ho0. exfalso. apply H0. by exists r, ns0.
Qed.

(** Under [abs], the nodes of a list object are the cells it owns. *)
Lemma node_of_own own (s : state T) r ns l :
  abs own s → own !! r = Some ns → node_of s r l ↔ l ∈ ns.*1.
Proof.
  intros Habs Ho. destruct (abs_rep _ _ _ _ Habs Ho) as (R & HR & Hrep).
  pose proof Hrep as (_ & Hsz & _). split.
  - intros (R' & i & HR' & Hi & Hw). rewrite HR in HR'. injection HR' as <-.
    rewrite (walk_on_ring s R ns i Hrep) in Hw by lia.
    rewrite decide_True in Hw by lia. injection Hw as Hc.
    unfold cell_at in Hc.
    destruct (ns !! i) as [c|] eqn:Hci; [|done]. injection Hc as <-.
    apply list_elem_of_fmap. exists c. split; [done|]. by eapply list_elem_of_lookup_2.
  - intros Hl. apply list_elem_of_fmap in Hl as (c & -> & Hc).
    apply list_elem_of_lookup_1 in Hc as [i Hi].
    pose proof (lookup_lt_Some _ _ _ Hi) as Hlt.
    exists R, i. split; [done|]. split; [lia|].
    rewrite (walk_on_ring s R ns i Hrep) by lia.
    rewrite decide_True by lia. unfold cell_at. by rewrite Hi.
Qed.

Lemma reachable_owned own (s : state T) l :
  abs own s → reachable s l ↔ owned own l.
Proof.
  intros Habs. split.
  - intros (r & Hn). pose proof Hn as (R & i & HR & _).
    destruct (abs_is_Some own s r Habs) as [ns Ho]; [by rewrite HR|].
    exists r, ns. split; [done|]. by apply (node_of_own own s r ns l Habs Ho).
  - intros (r & ns & Ho & Hl). exists r. by apply (node_of_own own s r ns l Habs Ho).
Qed.

(** The cells of a ring fix the nodes at their addresses. *)
Lemma chain_lookup_eq h h' (ns : cells) q l :
  chain h ns q → chain h' ns q → l ∈ ns.*1 → h' !! l = h !! l.
Proof.
  induction ns as [|c ns IH]; intros Hc Hc' Hl; [by apply not_elem_of_nil in Hl|].
  destruct Hc as [Hc Hr], Hc' as [Hc' Hr']. simpl in Hl.
  destruct (decide (l = c.1)) as [->|Hne]; [by rewrite Hc, Hc'|].
  apply elem_of_cons in Hl as [?|Hl]; [done|]. by apply IH.
Qed.

(** A state is fixed by the cells its rings own, the nodes outside them
    and the text written. *)
Lemma abs_determines own (s s' : state T) :
  abs own s → abs own s' →
  (∀ l, ¬ owned own l → heap s' !! l = heap s !! l) →
  cout s' = cout s → s' = s.
Proof.
  intros Habs Habs' Hframe Hcout.
  assert (heap s' = heap s) as Hh.
  { apply map_eq. intros l. destruct (owned_dec own l) as [(r & ns & Ho & Hl)|Hn].
    - destruct (abs_rep _ _ _ _ Habs Ho) as (R & _ & (_ & _ & _ & _ & Hch)).
      destruct (abs_rep _ _ _ _ Habs' Ho) as (R' & _ & (_ & _ & _ & _ & Hch')).
      by eapply chain_lookup_eq.
    - by apply Hframe. }
  assert (objs s' = objs s) as Hobj.
  { apply map_eq. intros r. destruct (own !! r) as [ns|] eqn:Ho.
    - destruct (abs_rep _ _ _ _ Habs Ho) as (R & HR & Hrep).
      destruct (abs_rep _ _ _ _ Habs' Ho) as (R' & HR' & Hrep').
      rewrite HR, HR'. f_equal. by eapply ring_rep_inj.
    - destruct Habs as (Hn & _), Habs' as (Hn' & _). by rewrite Hn, Hn'. }
  destruct s, s'. simpl in *. by subst.
Qed.

End Frames.

Section FrameOps.
Context {T : Type}.
Variable NDEBUG : bool.
Variable alloc : gmap loc (Node T) → option loc.
Local Abbreviation cells := (list (loc * T)).

Lemma append_frames own (s : state T) this ns l v :
  abs own s → own !! this = Some ns →
  alloc (heap s) = Some l → heap s !! l = None →
  ∃ s', append NDEBUG alloc this v s = Ok () s' ∧
        abs (<[this := ns ++ [(l, v)]]> own) s' ∧ cout s' = cout s ∧
        frames own (<[this := ns ++ [(l, v)]]> own) s s'.
Proof.
  intros Habs Ho Hal Hfresh.
  destruct (append_abs NDEBUG alloc own s this ns l v Habs Ho Hal Hfresh)
    as (s' & Hrun & Habs' & Hcout).
  exists s'. split_and!; try done.
  destruct (abs_rep _ _ _ _ Habs Ho) as (R & HR & Hrep).
  destruct (append_ring NDEBUG alloc s this R ns l v HR Hrep Hal Hfresh)
    as (h' & R' & Hrun2 & _ & Hframe).
  rewrite Hrun in Hrun2. injection Hrun2 as ->.
  apply frames_update with ns; [done|..]; simpl.
  - intros l' H1 H2. apply Hframe; [done|]. intros ->. apply H2.
    rewrite fmap_app. apply elem_of_app. right. apply list_elem_of_here.
  - intros l' H1 H2. exfalso. apply H2. rewrite fmap_app. apply elem_of_app. by left.
  - intros l' H1 H2. rewrite fmap_app in H1. apply elem_of_app in H1 as [?|H1]; [done|].
    apply list_elem_of_singleton in H1. by subst l'.
Qed.

Lemma pop_front_frames own (s : state T) this c0 rest :
  abs own s → own !! this = Some (c0 :: rest) →
  ∃ s', pop_front NDEBUG this s = Ok true s' ∧
        abs (<[this := rest]> own) s' ∧ cout s' = cout s ∧
        frames own (<[this := rest]> own) s s'.
Proof.
  intros Habs Ho.
  destruct (pop_front_abs NDEBUG own s this c0 rest Habs Ho) as (s' & Hrun & Habs' & Hcout & Hgone).
  exists s'. split_and!; try done.
  destruct (abs_rep _ _ _ _ Habs Ho) as (R & HR & Hrep).
  destruct (pop_front_ring NDEBUG s this R _ c0 rest HR Hrep eq_refl)
    as (h' & R' & Hrun2 & _ & Hframe & _).
  rewrite Hrun in Hrun2. injection Hrun2 as ->.
  pose proof Hrep as (Hnd & _). simpl in Hnd. apply NoDup_cons in Hnd as [Hnin _].
  apply frames_update with (c0 :: rest); [done|..]; simpl.
  - intros l' H1 H2. by apply Hframe.
  - intros l' H1 H2. apply elem_of_cons in H1 as [->|?]; done.
  - intros l' H1 H2. exfalso. apply H2. by apply list_elem_of_further.
Qed.

Lemma rot1_elem_of {A} (l : list A) x : x ∈ rot1 l ↔ x ∈ l.
Proof.
  destruct l as [|y l]; [done|]. simpl. rewrite elem_of_app, list_elem_of_singleton, elem_of_cons.
  tauto.
Qed.

Lemma rotate_frames own (s : state T) this ns :
  abs own s → own !! this = Some ns →
  ∃ s', rotate NDEBUG this s = Ok () s' ∧ abs (<[this := rot1 ns]> own) s' ∧
        cout s' = cout s ∧ heap s' = heap s ∧ frames own (<[this := rot1 ns]> own) s s'.
Proof.
  intros Habs Ho.
  destruct (rotate_abs1 NDEBUG own s this ns Habs Ho) as (s' & R' & Hrun & Habs' & ->).
  eexists. split_and!; try done.
  apply frames_update with ns; [done|..]; simpl.
  - done.
  - intros l H1 H2. exfalso. apply H2. rewrite rot1_fmap. by apply rot1_elem_of.
  - intros l H1 H2. exfalso. apply H2. rewrite rot1_fmap in H1. by apply rot1_elem_of.
Qed.

Lemma clear_frames own (s : state T) this ns :
  abs own s → own !! this = Some ns →
  ∃ s', clear this s = Ok () s' ∧ abs (<[this := []]> own) s' ∧ cout s' = cout s ∧
        frames own (<[this := []]> own) s s'.
Proof.
  intros Habs Ho.
  destruct (clear_abs own s this ns Habs Ho) as (s' & Hrun & Habs' & Hcout & Hheap & _).
  exists s'. split_and!; try done.
  apply frames_update with ns; [done|..]; rewrite ?Hheap.
  - intros l H1 _. rewrite lookup_free_cells. by rewrite decide_False.
  - intros l H1 _. rewrite lookup_free_cells. by rewrite decide_True.
  - intros l H1. by apply not_elem_of_nil in H1.
Qed.

Lemma mergeWith_frames own (s : state T) this other nsA nsB :
  this ≠ other → abs own s → own !! this = Some nsA → own !! other = Some nsB →
  ∃ s', mergeWith NDEBUG this other s = Ok () s' ∧
        abs (<[other := []]> (<[this := nsA ++ nsB]> own)) s' ∧
        cout s' = cout s ∧
        frames own (<[other := []]> (<[this := nsA ++ nsB]> own)) s s'.
Proof.
  intros Hne Habs HoA HoB.
  destruct (mergeWith_abs NDEBUG own s this other nsA nsB Hne Habs HoA HoB)
    as (s' & Hrun & Habs' & Hcout & _).
  exists s'. split_and!; try done.
  destruct (abs_rep _ _ _ _ Habs HoA) as (A & HA & HrA).
  destruct (abs_rep _ _ _ _ Habs HoB) as (B & HB & HrB).
  assert (∀ l, l ∈ nsA.*1 → l ∉ nsB.*1) as Hdisj.
  { intros l. by apply (abs_disjoint _ _ _ _ _ _ _ Habs Hne HoA HoB). }
  destruct (mergeWith_ring NDEBUG s this other A B nsA nsB Hne HA HB HrA HrB Hdisj)
    as (h' & A' & Hrun2 & _ & Hframe & _).
  rewrite Hrun in Hrun2. injection Hrun2 as ->.
  assert (∀ l, owned own l ↔ owned (<[other := []]> (<[this := nsA ++ nsB]> own)) l) as Hsame.
  { intros l. split.
    - intros (r & ns & Ho & Hl).
      destruct (decide (r = this)) as [->|H1]; [|destruct (decide (r = other)) as [->|H2]].
      + exists this, (nsA ++ nsB). simpl_ins. split; [done|].
        rewrite Ho in HoA. injection HoA as ->. rewrite fmap_app. apply elem_of_app. by left.
      + exists this, (nsA ++ nsB). simpl_ins. split; [done|].
        rewrite Ho in HoB. injection HoB as ->. rewrite fmap_app. apply elem_of_app. by right.
      + exists r, ns. by simpl_ins.
    - intros (r & ns & Ho & Hl).
      destruct (decide (r = other)) as [->|H2]; [|destruct (decide (r = this)) as [->|H1]].
      + simpl_ins in Ho. injection Ho as <-. by apply not_elem_of_nil in Hl.
      + simpl_ins in Ho. injection Ho as <-. rewrite fmap_app in Hl.
        apply elem_of_app in Hl as [Hl|Hl]; [by exists this, nsA|by exists other, nsB].
      + simpl_ins in Ho. by exists r, ns. }
  split_and!; simpl.
  - intros l H0 _. apply Hframe.
    + intros Hl. apply H0. by exists this, nsA.
    + intros Hl. apply H0. by exists other, nsB.
  - intros l H0 H1. exfalso. by apply H1, Hsame.
  - intros l H1 H0. exfalso. by apply H0, Hsame.
Qed.

Lemma splitIntoTwo_frames own (s : state T) fuel this first second ns nsF nsS :
  this ≠ first → this ≠ second → first ≠ second →
  abs own s → own !! this = Some ns → own !! first = Some nsF → own !! second = Some nsS →
  (length ns - 1) / 2 ≤ fuel →
  ∃ s', splitIntoTwo fuel this first second s = Ok () s' ∧
        abs (<[this := []]> (<[second := drop ((length ns + 1) / 2) ns]>
              (<[first := take ((length ns + 1) / 2) ns]> own))) s' ∧
        cout s' = cout s ∧
        frames own (<[this := []]> (<[second := drop ((length ns + 1) / 2) ns]>
              (<[first := take ((length ns + 1) / 2) ns]> own))) s s'.
Proof.
  intros Hn1 Hn2 Hn3 Habs Ho HoF HoS Hfuel.
  destruct (splitIntoTwo_abs own s fuel this first second ns nsF nsS
              Hn1 Hn2 Hn3 Habs Ho HoF HoS Hfuel) as (s' & Hrun & Habs' & Hcout & Hfreed).
  exists s'. split_and!; try done.
  (* the store outside the three rings *)
  assert (∀ l, l ∉ ns.*1 → l ∉ nsF.*1 → l ∉ nsS.*1 → heap s' !! l = heap s !! l) as Hframe.
  { destruct (clear_abs own s first nsF Habs HoF) as (s1 & Hc1 & Habs1 & _ & Hheap1 & _).
    assert (<[first := []]> own !! second = Some nsS) as HoS1 by (by simpl_ins).
    destruct (clear_abs _ s1 second nsS Habs1 HoS1) as (s2 & Hc2 & Habs2 & _ & Hheap2 & _).
    set (own2 := <[second := []]> (<[first := []]> own)) in *.
    assert (own2 !! this = Some ns) as Ho2 by (unfold own2; by simpl_ins).
    assert (own2 !! first = Some []) as HoF2 by (unfold own2; by simpl_ins).
    assert (own2 !! second = Some []) as HoS2 by (unfold own2; by simpl_ins).
    destruct (abs_rep _ _ _ _ Habs2 Ho2) as (R & HR & Hrep).
    destruct (abs_rep _ _ _ _ Habs2 HoF2) as (F & HF & HrF).
    destruct (abs_rep _ _ _ _ Habs2 HoS2) as (S & HS & HrS).
    pose proof Hrun as Hrun2.
    rewrite (splitIntoTwo_after_clear s s1 s2 fuel this first second F S Hc1 Hc2 HF
               (proj1 (proj2 (proj2 HrF))) HS (proj1 (proj2 (proj2 HrS)))) in Hrun2.
    destruct (splitIntoTwo_ring_clean s2 fuel this first second R F S ns
                Hn1 Hn2 Hn3 HR HF HS Hrep HrF HrS Hfuel)
      as (h' & F' & S' & Hrun3 & _ & _ & Hfr).
    rewrite Hrun2 in Hrun3. injection Hrun3 as ->. simpl.
    intros l H1 H2 H3. rewrite Hfr by done.
    rewrite Hheap2, Hheap1, !lookup_free_cells. by rewrite !decide_False. }
  set (own' := <[this := []]> (<[second := drop ((length ns + 1) / 2) ns]>
                 (<[first := take ((length ns + 1) / 2) ns]> own))).
  assert (∀ l, l ∈ ns.*1 → owned own' l) as Hkeep.
  { intros l Hl. rewrite <- (take_drop ((length ns + 1) / 2) ns), fmap_app in Hl.
    apply elem_of_app in Hl as [Hl|Hl].
    - exists first, (take ((length ns + 1) / 2) ns). unfold own'. by simpl_ins.
    - exists second, (drop ((length ns + 1) / 2) ns). unfold own'. by simpl_ins. }
  assert (∀ l, owned own' l → owned own l) as Hback.
  { intros l (r & ns0 & Ho0 & Hl). unfold own' in Ho0.
    destruct (decide (r = this)) as [->|H1]; [|destruct (decide (r = second)) as [->|H2];
      [|destruct (decide (r = first)) as [->|H3]]].
    - simpl_ins in Ho0. injection Ho0 as <-. by apply not_elem_of_nil in Hl.
    - simpl_ins in Ho0. injection Ho0 as <-. exists this, ns. split; [done|].
      rewrite <- (take_drop ((length ns + 1) / 2) ns), fmap_app. apply elem_of_app. by right.
    - simpl_ins in Ho0. injection Ho0 as <-. exists this, ns. split; [done|].
      rewrite <- (take_drop ((length ns + 1) / 2) ns), fmap_app. apply elem_of_app. by left.
    - simpl_ins in Ho0. by exists r, ns0. }
  split_and!.
  - intros l H0 _. apply Hframe; intros Hl; apply H0;
      [by exists this, ns|by exists first, nsF|by exists second, nsS].
  - intros l (r & ns0 & Ho0 & Hl) H1. apply Hfreed.
    destruct (decide (r = this)) as [->|H2]; [|destruct (decide (r = second)) as [->|H3];
      [|destruct (decide (r = first)) as [->|H4]]].
    + exfalso. apply H1, Hkeep. rewrite Ho in Ho0. by injection Ho0 as <-.
    + right. rewrite HoS in Ho0. by injection Ho0 as <-.
    + left. rewrite HoF in Ho0. by injection Ho0 as <-.
    + exfalso. apply H1. exists r, ns0. unfold own'. by simpl_ins.
  - intros l H1 H0. exfalso. by apply H0, Hback.
Qed.

(** What [frames] gives for the nodes that are lost or kept. *)
Lemma frames_no_garbage own own' (s s' : state T) :
  abs own s → abs own' s' → frames own own' s s' → no_garbage s → no_garbage s'.
Proof.
  intros Habs Habs' (F & G & N) Hng l Hlive.
  apply (reachable_owned own' s' l Habs').
  destruct (owned_dec own' l) as [|Hn']; [done|]. exfalso.
  destruct (owned_dec own l) as [Ho|Hn].
  - rewrite G in Hlive by done. by destruct Hlive.
  - rewrite F in Hlive by done. apply Hng in Hlive.
    by apply (reachable_owned own s l Habs) in Hlive.
Qed.

Lemma abs_other own own' (s s' : state T) r zs :
  abs own s → abs own' s' → own' !! r = own !! r →
  to_list r s = Ok zs s → to_list r s' = Ok zs s' ∧ objs s' !! r = objs s !! r.
Proof.
  intros Habs Habs' Heq Hzs.
  destruct (to_list_abs_inv _ _ _ _ _ Habs Hzs) as (ns & Ho & ->).
  rewrite <- Heq in Ho. split; [by apply (to_list_abs _ _ _ _ Habs')|].
  destruct (abs_rep _ _ _ _ Habs' Ho) as (R' & HR' & Hrep').
  rewrite Heq in Ho.
  destruct (abs_rep _ _ _ _ Habs Ho) as (R & HR & Hrep).
  rewrite HR, HR'. f_equal. by eapply ring_rep_inj.
Qed.

End FrameOps.

(** * Further properties of the container *)

Section Container.
Context {T : Type}.
Variable NDEBUG : bool.
Variable alloc : gmap loc (Node T) → option loc.
Local Abbreviation cells := (list (loc * T)).

(** X1. [size] is the number of elements a traversal meets, and [empty]
    answers whether there is none. *)
Theorem size_counts_elements (s : state T) this xs :
  invariant s → to_list this s = Ok xs s →
  size this s = Ok (length xs) s ∧
  empty this s = Ok (bool_decide (xs = [])) s ∧
  (∀ b n, empty this s = Ok b s → size this s = Ok n s → (b = true ↔ n = 0)).
Proof.
  intros [own Habs]%invariant_state_wf Hxs.
  destruct (to_list_abs_inv _ _ _ _ _ Habs Hxs) as (ns & Ho & ->).
  rewrite (size_abs _ _ _ _ Habs Ho), (empty_abs _ _ _ _ Habs Ho), length_fmap.
  split; [done|]. split.
  - f_equal. by destruct ns.
  - intros b n [= <-] [= <-]. by destruct ns.
Qed.


(** X3. [clear] empties the ring and releases each of its nodes; no other
    node of the store and no other list object is touched, nothing is
    written, and a second [clear] has nothing left to do. *)
Theorem clear_releases (s : state T) this :
  invariant s → is_Some (objs s !! this) →
  ∃ s', clear this s = Ok () s' ∧ invariant s' ∧
    to_list this s' = Ok [] s' ∧ size this s' = Ok 0 s' ∧ empty this s' = Ok true s' ∧
    (∀ l, node_of s this l → heap s' !! l = None) ∧
    (∀ l, ¬ node_of s this l → heap s' !! l = heap s !! l) ∧
    (∀ r, r ≠ this → objs s' !! r = objs s !! r) ∧
    cout s' = cout s ∧
    clear this s' = Ok () s'.
Proof.
  intros [own Habs]%invariant_state_wf Hthis.
  destruct (abs_is_Some _ _ _ Habs Hthis) as [ns Ho].
  destruct (clear_abs own s this ns Habs Ho) as (s' & Hrun & Habs' & Hcout & Hheap & Hobjs).
  assert (<[this := []]> own !! this = Some []) as Ho' by (by simpl_ins).
  exists s'. split_and!; try done.
  - apply state_wf_invariant. by eexists.
  - exact (to_list_abs _ _ this [] Habs' Ho').
  - exact (size_abs _ _ this [] Habs' Ho').
  - exact (empty_abs _ _ this [] Habs' Ho').
  - intros l Hl%(node_of_own own s this ns l Habs Ho).
    rewrite Hheap, lookup_free_cells. by rewrite decide_True.
  - intros l Hl. rewrite Hheap, lookup_free_cells. rewrite decide_False; [done|].
    intros Hin. by apply Hl, (node_of_own own s this ns l Habs Ho).
  - intros r Hr. rewrite Hobjs. by simpl_ins.
  - destruct (abs_rep _ _ _ _ Habs' Ho') as (R' & HR' & (_ & _ & Hh & _)).
    by eapply clear_empty_obj.
Qed.

(** X4. No mutator disturbs a ring that is not among its arguments: such a
    ring keeps its members and its sequence. *)
Theorem mutators_leave_other_rings (s : state T) r zs :
  invariant s → to_list r s = Ok zs s →
  (∀ this v, this ≠ r → is_Some (objs s !! this) → alloc_fresh alloc → alloc_total alloc →
     ∃ s', append NDEBUG alloc this v s = Ok () s' ∧
           to_list r s' = Ok zs s' ∧ objs s' !! r = objs s !! r) ∧
  (∀ this, this ≠ r → is_Some (objs s !! this) →
     ∃ b s', pop_front NDEBUG this s = Ok b s' ∧
             to_list r s' = Ok zs s' ∧ objs s' !! r = objs s !! r) ∧
  (∀ this, this ≠ r → is_Some (objs s !! this) →
     ∃ s', rotate NDEBUG this s = Ok () s' ∧
           to_list r s' = Ok zs s' ∧ objs s' !! r = objs s !! r) ∧
  (∀ this, this ≠ r → is_Some (objs s !! this) →
     ∃ s', clear this s = Ok () s' ∧
           to_list r s' = Ok zs s' ∧ objs s' !! r = objs s !! r) ∧
  (∀ this first second fuel n, this ≠ r → first ≠ r → second ≠ r →
     is_Some (objs s !! first) → is_Some (objs s !! second) →
     size this s = Ok n s → (n - 1) / 2 ≤ fuel →
     ∃ s', splitIntoTwo fuel this first second s = Ok () s' ∧
           to_list r s' = Ok zs s' ∧ objs s' !! r = objs s !! r) ∧
  (∀ this other, this ≠ r → other ≠ r →
     is_Some (objs s !! this) → is_Some (objs s !! other) →
     ∃ s', mergeWith NDEBUG this other s = Ok () s' ∧
           to_list r s' = Ok zs s' ∧ objs s' !! r = objs s !! r).
Proof.
  intros [own Habs]%invariant_state_wf Hzs.
  assert (∀ own' (s' : state T), abs own' s' → own' !! r = own !! r →
            to_list r s' = Ok zs s' ∧ objs s' !! r = objs s !! r) as Hkeep.
  { intros own' s' Habs' Heq. by eapply abs_other. }
  split_and!.
  - intros this v Hne Hthis Hfresh Htotal.
    destruct (abs_is_Some _ _ _ Habs Hthis) as [ns Ho].
    destruct (Htotal (heap s)) as [l Hal].
    destruct (append_abs NDEBUG alloc own s this ns l v Habs Ho Hal (Hfresh _ _ Hal))
      as (s' & Hrun & Habs' & _).
    exists s'. split; [done|]. eapply Hkeep; [done|]. by simpl_ins.
  - intros this Hne Hthis. destruct (abs_is_Some _ _ _ Habs Hthis) as [ns Ho].
    destruct ns as [|c rest].
    + exists false, s. split; [by eapply pop_front_abs_nil|]. by eapply Hkeep.
    + destruct (pop_front_abs NDEBUG own s this c rest Habs Ho) as (s' & Hrun & Habs' & _).
      exists true, s'. split; [done|]. eapply Hkeep; [done|]. by simpl_ins.
  - intros this Hne Hthis. destruct (abs_is_Some _ _ _ Habs Hthis) as [ns Ho].
    destruct (rotate_abs1 NDEBUG own s this ns Habs Ho) as (s' & R' & Hrun & Habs' & _).
    exists s'. split; [done|]. eapply Hkeep; [done|]. by simpl_ins.
  - intros this Hne Hthis. destruct (abs_is_Some _ _ _ Habs Hthis) as [ns Ho].
    destruct (clear_abs own s this ns Habs Ho) as (s' & Hrun & Habs' & _).
    exists s'. split; [done|]. eapply Hkeep; [done|]. by simpl_ins.
  - intros this first second fuel n Hr1 Hr2 Hr3 HF HS Hsz Hfuel.
    destruct (size_abs_inv _ _ _ _ _ Habs Hsz) as (ns & Ho & ->).
    destruct (abs_is_Some _ _ _ Habs HF) as [nsF HoF].
    destruct (abs_is_Some _ _ _ Habs HS) as [nsS HoS].
    destruct (decide (this = first)) as [Hn1|Hn1].
    { destruct (splitIntoTwo_alias_abs own s fuel this first second) as (s' & Hrun & Habs');
        [by left|done|by eexists|by eexists|].
      exists s'. split; [done|]. eapply Hkeep; [done|]. by simpl_ins. }
    destruct (decide (this = second)) as [Hn2|Hn2].
    { destruct (splitIntoTwo_alias_abs own s fuel this first second) as (s' & Hrun & Habs');
        [by right|done|by eexists|by eexists|].
      exists s'. split; [done|]. eapply Hkeep; [done|]. by simpl_ins. }
    destruct (decide (first = second)) as [Hn3|Hn3].
    { subst second.
      destruct (splitIntoTwo_same_abs own s fuel this first ns nsF Hn1 Habs Ho HoF Hfuel)
        as (s' & Hrun & Habs').
      exists s'. split; [done|]. eapply Hkeep; [done|]. by simpl_ins. }
    destruct (splitIntoTwo_abs own s fuel this first second ns nsF nsS
                Hn1 Hn2 Hn3 Habs Ho HoF HoS Hfuel) as (s' & Hrun & Habs' & _).
    exists s'. split; [done|]. eapply Hkeep; [done|]. by simpl_ins.
  - intros this other Hr1 Hr2 Hthis Hother.
    destruct (abs_is_Some _ _ _ Habs Hthis) as [nsA HoA].
    destruct (abs_is_Some _ _ _ Habs Hother) as [nsB HoB].
    destruct (decide (this = other)) as [<-|Hne].
    + destruct (mergeWith_self_abs NDEBUG own s this nsA Habs HoA) as (s' & Hrun & Habs').
      exists s'. split; [done|]. eapply Hkeep; [done|]. by simpl_ins.
    + destruct (mergeWith_abs NDEBUG own s this other nsA nsB Hne Habs HoA HoB)
        as (s' & Hrun & Habs' & _).
      exists s'. split; [done|]. eapply Hkeep; [done|]. by simpl_ins.
Qed.

(** X5. No mutator loses a node: when every live node is reachable from
    some list object before the call, the same holds after it, given
    that the arguments name distinct objects. *)
Theorem mutators_never_leak (s : state T) :
  invariant s → no_garbage s →
  (∀ this v, is_Some (objs s !! this) → alloc_fresh alloc → alloc_total alloc →
     ∃ s', append NDEBUG alloc this v s = Ok () s' ∧ no_garbage s') ∧
  (∀ this, is_Some (objs s !! this) →
     ∃ b s', pop_front NDEBUG this s = Ok b s' ∧ no_garbage s') ∧
  (∀ this, is_Some (objs s !! this) →
     ∃ s', rotate NDEBUG this s = Ok () s' ∧ no_garbage s') ∧
  (∀ this, is_Some (objs s !! this) →
     ∃ s', clear this s = Ok () s' ∧ no_garbage s') ∧
  (∀ this first second fuel n, this ≠ first → this ≠ second → first ≠ second →
     is_Some (objs s !! first) → is_Some (objs s !! second) →
     size this s = Ok n s → (n - 1) / 2 ≤ fuel →
     ∃ s', splitIntoTwo fuel this first second s = Ok () s' ∧ no_garbage s') ∧
  (∀ this other, this ≠ other →
     is_Some (objs s !! this) → is_Some (objs s !! other) →
     ∃ s', mergeWith NDEBUG this other s = Ok () s' ∧ no_garbage s').
Proof.
  intros [own Habs]%invariant_state_wf Hng.
  assert (∀ own' (s' : state T), abs own' s' → frames own own' s s' → no_garbage s') as Hpost.
  { intros own' s' Habs' Hfr. exact (frames_no_garbage own own' s s' Habs Habs' Hfr Hng). }
  split_and!.
  - intros this v Hthis Hfresh Htotal.
    destruct (abs_is_Some _ _ _ Habs Hthis) as [ns Ho].
    destruct (Htotal (heap s)) as [l Hal].
    destruct (append_frames NDEBUG alloc own s this ns l v Habs Ho Hal (Hfresh _ _ Hal))
      as (s' & Hrun & Habs' & _ & Hfr).
    exists s'. split; [done|]. by eapply Hpost.
  - intros this Hthis. destruct (abs_is_Some _ _ _ Habs Hthis) as [ns Ho].
    destruct ns as [|c rest].
    + exists false, s. split; [exact (pop_front_abs_nil NDEBUG own s this Habs Ho)|done].
    + destruct (pop_front_frames NDEBUG own s this c rest Habs Ho) as (s' & Hrun & Habs' & _ & Hfr).
      exists true, s'. split; [done|]. by eapply Hpost.
  - intros this Hthis. destruct (abs_is_Some _ _ _ Habs Hthis) as [ns Ho].
    destruct (rotate_frames NDEBUG own s this ns Habs Ho) as (s' & Hrun & Habs' & _ & _ & Hfr).
    exists s'. split; [done|]. by eapply Hpost.
  - intros this Hthis. destruct (abs_is_Some _ _ _ Habs Hthis) as [ns Ho].
    destruct (clear_frames own s this ns Habs Ho) as (s' & Hrun & Habs' & _ & Hfr).
    exists s'. split; [done|]. by eapply Hpost.
  - intros this first second fuel n Hn1 Hn2 Hn3 HF HS Hsz Hfuel.
    destruct (size_abs_inv _ _ _ _ _ Habs Hsz) as (ns & Ho & ->).
    destruct (abs_is_Some _ _ _ Habs HF) as [nsF HoF].
    destruct (abs_is_Some _ _ _ Habs HS) as [nsS HoS].
    destruct (splitIntoTwo_frames own s fuel this first second ns nsF nsS
                Hn1 Hn2 Hn3 Habs Ho HoF HoS Hfuel) as (s' & Hrun & Habs' & _ & Hfr).
    exists s'. split; [done|]. by eapply Hpost.
  - intros this other Hne Hthis Hother.
    destruct (abs_is_Some _ _ _ Habs Hthis) as [nsA HoA].
    destruct (abs_is_Some _ _ _ Habs Hother) as [nsB HoB].
    destruct (mergeWith_frames NDEBUG own s this other nsA nsB Hne Habs HoA HoB)
      as (s' & Hrun & Habs' & _ & Hfr).
    exists s'. split; [done|]. by eapply Hpost.
Qed.

End Container.

(** * Debug and release builds *)

Section Inversion.
Context {T : Type}.
Local Abbreviation cells := (list (loc * T)).

Lemma bind_ok_inv {A B} (m : M T A) (k : A → M T B) s b s' :
  bind m k s = Ok b s' → ∃ a s1, m s = Ok a s1 ∧ k a s1 = Ok b s'.
Proof. unfold bind. destruct (m s) as [a s1| |]; [by eauto|done..]. Qed.

Lemma get_head_inv (s s' : state T) r p : get_head r s = Ok p s' → s' = s.
Proof. unfold get_head, bind, obj, ret. destruct (objs s !! r); [|done]. by intros [= _ <-]. Qed.

Lemma get_tail_inv (s s' : state T) r p : get_tail r s = Ok p s' → s' = s.
Proof. unfold get_tail, bind, obj, ret. destruct (objs s !! r); [|done]. by intros [= _ <-]. Qed.

Lemma get_sz_inv (s s' : state T) r n : get_sz r s = Ok n s' → s' = s.
Proof. unfold get_sz, bind, obj, ret. destruct (objs s !! r); [|done]. by intros [= _ <-]. Qed.

Lemma set_head_inv (s s' : state T) r p u :
  set_head r p s = Ok u s' → heap s' = heap s ∧ cout s' = cout s.
Proof.
  destruct u. unfold set_head, bind, obj, put_obj. destruct (objs s !! r) eqn:E; simpl; rewrite ?E; [|done].
  by intros [= <-].
Qed.

Lemma set_tail_inv (s s' : state T) r p u :
  set_tail r p s = Ok u s' → heap s' = heap s ∧ cout s' = cout s.
Proof.
  destruct u. unfold set_tail, bind, obj, put_obj. destruct (objs s !! r) eqn:E; simpl; rewrite ?E; [|done].
  by intros [= <-].
Qed.

Lemma set_sz_inv (s s' : state T) r n u :
  set_sz r n s = Ok u s' → heap s' = heap s ∧ cout s' = cout s.
Proof.
  destruct u. unfold set_sz, bind, obj, put_obj. destruct (objs s !! r) eqn:E; simpl; rewrite ?E; [|done].
  by intros [= <-].
Qed.

(** A write through a pointer changes no address's liveness. *)
Lemma set_next_inv (s s' : state T) p q u :
  set_next p q s = Ok u s' → dom (heap s') = dom (heap s) ∧ cout s' = cout s.
Proof.
  destruct u. unfold set_next, bind, deref, ret. destruct p as [l|]; [|done].
  destruct (heap s !! l) as [n|] eqn:Hl; [|done]. intros [= <-]. simpl. split; [|done].
  apply dom_insert_lookup_L. by rewrite Hl.
Qed.

End Inversion.

Tactic Notation "inv_bind" hyp(H) "as" ident(a) ident(s1) ident(H1) :=
  apply bind_ok_inv in H as (a & s1 & H1 & H).

Section CheckPure.
Context {T : Type}.

(** [_checkInvariant] only reads. *)
Lemma checkInvariant_state (s s' : state T) r u :
  _checkInvariant r s = Ok u s' → s' = s.
Proof.
  unfold _checkInvariant. intros H.
  inv_bind H as h s1 Hh. apply get_head_inv in Hh as ->. destruct (is_null h).
  - inv_bind H as t s1 Ht. apply get_tail_inv in Ht as ->.
    inv_bind H as sz s1 Hsz. apply get_sz_inv in Hsz as ->.
    unfold assert in H. destruct (_ && _); [by injection H|done].
  - inv_bind H as t s1 Ht. apply get_tail_inv in Ht as ->.
    inv_bind H as u1 s1 Hc.
    assert (s1 = s) as ->.
    { destruct (is_null t); [done|]. inv_bind Hc as tn s2 Htn. apply get_next_state in Htn as ->.
      unfold assert in Hc. destruct (ptr_eqb _ _); [by injection Hc|done]. }
    inv_bind H as sz s1 Hsz. apply get_sz_inv in Hsz as ->.
    inv_bind H as cur s1 Hw. apply walk_state in Hw as ->.
    unfold assert in H. destruct (ptr_eqb _ _); [by injection H|done].
Qed.

Lemma agrees_refl {A} (m : M T A) : agrees m m.
Proof. by intros s a s'. Qed.

Lemma agrees_bind {A B} (m1 m2 : M T A) (k1 k2 : A → M T B) :
  agrees m1 m2 → (∀ a, agrees (k1 a) (k2 a)) → agrees (bind m1 k1) (bind m2 k2).
Proof.
  intros Hm Hk s b s' H. inv_bind H as a s1 Ha. unfold bind. rewrite (Hm _ _ _ Ha). by apply Hk.
Qed.

Lemma agrees_debug_check r : agrees (debug_check (T:=T) false r) (debug_check true r).
Proof.
  intros s [] s' H. simpl in *. apply checkInvariant_state in H as ->. done.
Qed.

End CheckPure.

Ltac agrees_auto :=
  repeat first
    [ apply agrees_refl
    | apply agrees_debug_check
    | apply agrees_bind; [|intros ?]
    | match goal with |- agrees (if ?c then _ else _) _ => destruct c end ].

Section Builds.
Context {T : Type}.
Variable alloc : gmap loc (Node T) → option loc.

Lemma append_agrees this v : agrees (append (T:=T) false alloc this v) (append true alloc this v).
Proof. unfold append. agrees_auto. Qed.

Lemma pop_front_agrees this : agrees (pop_front (T:=T) false this) (pop_front true this).
Proof. unfold pop_front. agrees_auto. Qed.

Lemma rotate_agrees this : agrees (rotate (T:=T) false this) (rotate true this).
Proof. unfold rotate. agrees_auto. Qed.

Lemma mergeWith_agrees this other : agrees (mergeWith (T:=T) false this other) (mergeWith true this other).
Proof. unfold mergeWith. agrees_auto. Qed.

(** X6. In a state that satisfies the invariant the checks compiled in
    without [NDEBUG] never fire and change nothing: each checked
    mutator behaves as in a build that leaves them out. *)
Theorem debug_build_agrees (s : state T) :
  invariant s →
  (∀ this v, is_Some (objs s !! this) → alloc_fresh alloc →
     append false alloc this v s = append true alloc this v s) ∧
  (∀ this, is_Some (objs s !! this) →
     pop_front false this s = pop_front true this s) ∧
  (∀ this, is_Some (objs s !! this) →
     rotate false this s = rotate true this s) ∧
  (∀ this other, is_Some (objs s !! this) → is_Some (objs s !! other) →
     mergeWith false this other s = mergeWith true this other s).
Proof.
  intros [own Habs]%invariant_state_wf. split_and!.
  - intros this v Hthis Hfresh. destruct (abs_is_Some _ _ _ Habs Hthis) as [ns Ho].
    destruct (alloc (heap s)) as [l|] eqn:Hal.
    + destruct (append_abs false alloc own s this ns l v Habs Ho Hal (Hfresh _ _ Hal))
        as (s' & Hrun & _).
      by rewrite Hrun, (append_agrees this v _ _ _ Hrun).
    + unfold append, new_Node, bind. by rewrite Hal.
  - intros this Hthis. destruct (abs_is_Some _ _ _ Habs Hthis) as [ns Ho].
    destruct ns as [|c rest].
    + by rewrite !(pop_front_abs_nil _ own s this Habs Ho).
    + destruct (pop_front_abs false own s this c rest Habs Ho) as (s' & Hrun & _).
      by rewrite Hrun, (pop_front_agrees this _ _ _ Hrun).
  - intros this Hthis. destruct (abs_is_Some _ _ _ Habs Hthis) as [ns Ho].
    destruct (rotate_abs1 false own s this ns Habs Ho) as (s' & R' & Hrun & _).
    by rewrite Hrun, (rotate_agrees this _ _ _ Hrun).
  - intros this other Hthis Hother.
    destruct (abs_is_Some _ _ _ Habs Hthis) as [nsA HoA].
    destruct (abs_is_Some _ _ _ Habs Hother) as [nsB HoB].
    destruct (decide (this = other)) as [<-|Hne].
    + destruct (mergeWith_self_abs false own s this nsA Habs HoA) as (s' & Hrun & _).
      by rewrite Hrun, (mergeWith_agrees this this _ _ _ Hrun).
    + destruct (mergeWith_abs false own s this other nsA nsB Hne Habs HoA HoB)
        as (s' & Hrun & _).
      by rewrite Hrun, (mergeWith_agrees this other _ _ _ Hrun).
Qed.

End Builds.

(** * Arguments that name the same object, in detail *)

Section Aliased.
Context {T : Type}.
Variable NDEBUG : bool.
Local Abbreviation cells := (list (loc * T)).

Lemma mergeWith_self_run (s : state T) this R (ns : cells) :
  objs s !! this = Some R → ring_rep (heap s) R ns →
  mergeWith NDEBUG this this s =
    Ok () (mkState (heap s) (<[this := mkList None None 0]> (objs s)) (cout s)).
Proof.
  intros HR Hrep. pose proof Hrep as (Hnd & Hsz & Hh & Ht & Hch).
  destruct (last ns) as [ct|] eqn:Hlast.
  - destruct (tail_rep_live _ _ _ Hrep ct Hlast) as [Ht' Hct].
    destruct ns as [|c0 ns0] eqn:Hns; [done|]. rewrite <- Hns in *.
    assert (head_ R = Some c0.1) as Hh' by (by rewrite Hh, Hns).
    unfold mergeWith. run. rewrite !insert_insert_eq.
    erewrite debug_check_rep; [|simpl; apply lookup_insert_eq|apply ring_rep_nil].
    do 2 f_equal. rewrite Hh' in Hct. by apply insert_id.
  - apply last_None in Hlast. subst ns. simpl in Hh.
    rewrite (mergeWith_other_empty NDEBUG s this this R HR Hh). f_equal.
    destruct R as [h t n]. simpl in *. subst. symmetry. by apply state_insert_id.
Qed.

Lemma split_relink_dom (s s' : state T) this first second slow fast :
  split_relink this first second slow fast s = Ok () s' → dom (heap s') = dom (heap s).
Proof.
  unfold split_relink. intros H.
  inv_bind H as h s1 H1. apply get_head_inv in H1 as ->.
  inv_bind H as fn s1 H1. apply get_next_state in H1 as ->.
  inv_bind H as fnn s1 H1. apply get_next_state in H1 as ->.
  inv_bind H as head2 s1 H1. apply get_next_state in H1 as ->.
  inv_bind H as u1 s1 H1. apply set_next_inv in H1 as [D1 _].
  inv_bind H as u2 s2 H2. apply set_next_inv in H2 as [D2 _].
  inv_bind H as sz s3 H3. apply get_sz_inv in H3 as ->.
  inv_bind H as u3 s3 H3. apply set_head_inv in H3 as [D3 _].
  inv_bind H as u4 s4 H4. apply set_tail_inv in H4 as [D4 _].
  inv_bind H as u5 s5 H5. apply set_sz_inv in H5 as [D5 _].
  inv_bind H as u6 s6 H6. apply set_head_inv in H6 as [D6 _].
  inv_bind H as u7 s7 H7. apply set_tail_inv in H7 as [D7 _].
  inv_bind H as u8 s8 H8. apply set_sz_inv in H8 as [D8 _].
  inv_bind H as u9 s9 H9. apply set_tail_inv in H9 as [D9 _].
  inv_bind H as u10 s10 H10. apply set_head_inv in H10 as [D10 _].
  apply set_sz_inv in H as [D11 _].
  by rewrite D11, D10, D9, D8, D7, D6, D5, D4, D3, D2, D1.
Qed.

(** X7. [a.mergeWith(a)]: the object ends up empty although none of its
    nodes is released; they stay in the store, reachable from no list
    object. *)
Theorem mergeWith_self_loses_ring (s : state T) this :
  invariant s → is_Some (objs s !! this) →
  ∃ s', mergeWith NDEBUG this this s = Ok () s' ∧ invariant s' ∧
    to_list this s' = Ok [] s' ∧ size this s' = Ok 0 s' ∧
    heap s' = heap s ∧ cout s' = cout s ∧
    (∀ l, node_of s this l → is_Some (heap s' !! l) ∧ ¬ reachable s' l).
Proof.
  intros [own Habs]%invariant_state_wf Hthis.
  destruct (abs_is_Some _ _ _ Habs Hthis) as [ns Ho].
  destruct (abs_rep _ _ _ _ Habs Ho) as (R & HR & Hrep).
  destruct (mergeWith_self_abs NDEBUG own s this ns Habs Ho) as (s' & Hrun & Habs').
  pose proof (mergeWith_self_run s this R ns HR Hrep) as Hrun2.
  rewrite Hrun in Hrun2. injection Hrun2 as Hs'.
  assert (<[this := []]> own !! this = Some []) as Ho' by (by simpl_ins).
  exists s'. split_and!; try done.
  - apply state_wf_invariant. by eexists.
  - exact (to_list_abs _ _ this [] Habs' Ho').
  - exact (size_abs _ _ this [] Habs' Ho').
  - by rewrite Hs'.
  - by rewrite Hs'.
  - intros l Hl%(node_of_own own s this ns l Habs Ho). split.
    + rewrite Hs'. simpl. exact (abs_live own s this ns l Habs Ho Hl).
    + intros (r & ns0 & Ho0 & Hl0)%(reachable_owned _ _ _ Habs').
      destruct (decide (r = this)) as [->|Hne].
      * simpl_ins in Ho0. injection Ho0 as <-. by apply not_elem_of_nil in Hl0.
      * simpl_ins in Ho0. by apply (abs_disjoint _ _ _ _ _ _ _ Habs Hne Ho0 Ho Hl0).
Qed.

(** X8. [splitIntoTwo] with the receiver as one of its outputs: the
    outputs are cleared first, which destroys the receiver's elements;
    every object involved ends up empty and all their nodes are
    released, whatever the step budget. *)
Theorem splitIntoTwo_into_receiver (s : state T) fuel this first second :
  invariant s → this = first ∨ this = second →
  is_Some (objs s !! first) → is_Some (objs s !! second) →
  ∃ s', splitIntoTwo fuel this first second s = Ok () s' ∧ invariant s' ∧
    to_list first s' = Ok [] s' ∧ to_list second s' = Ok [] s' ∧
    (∀ l, node_of s first l ∨ node_of s second l → heap s' !! l = None) ∧
    (∀ l, ¬ node_of s first l → ¬ node_of s second l → heap s' !! l = heap s !! l).
Proof.
  intros [own Habs]%invariant_state_wf Halias HF HS.
  destruct (abs_is_Some _ _ _ Habs HF) as [nsF HoF].
  destruct (abs_is_Some _ _ _ Habs HS) as [nsS HoS].
  destruct (clear_abs own s first nsF Habs HoF) as (s1 & Hc1 & Habs1 & _ & Hheap1 & _).
  assert (∃ nsS', <[first := []]> own !! second = Some nsS' ∧
                  ∀ l, l ∈ nsS.*1 → l ∈ nsS'.*1 ∨ l ∈ nsF.*1) as (nsS' & HoS1 & Hsub).
  { destruct (decide (first = second)) as [->|Hne].
    - exists []. split; [by simpl_ins|]. intros l Hl. right.
      rewrite HoF in HoS. by injection HoS as ->.
    - exists nsS. split; [by simpl_ins|]. intros l Hl. by left. }
  assert (∀ l, l ∈ nsS'.*1 → l ∈ nsS.*1) as Hsub'.
  { intros l Hl. destruct (decide (first = second)) as [->|Hne].
    - simpl_ins in HoS1. injection HoS1 as <-. by apply not_elem_of_nil in Hl.
    - simpl_ins in HoS1. rewrite HoS in HoS1. by injection HoS1 as <-. }
  destruct (clear_abs _ s1 second nsS' Habs1 HoS1) as (s2 & Hc2 & Habs2 & _ & Hheap2 & _).
  assert (splitIntoTwo fuel this first second s = Ok () s2) as Hrun.
  { unfold splitIntoTwo.
    rewrite (bind_eq _ _ _ _ _ Hc1), (bind_eq _ _ _ _ _ Hc2).
    assert (<[second := []]> (<[first := []]> own) !! this = Some []) as Ho2.
    { destruct Halias as [->| ->]; [|by simpl_ins].
      destruct (decide (first = second)) as [->|Hne]; by simpl_ins. }
    destruct (abs_rep _ _ _ _ Habs2 Ho2) as (R & HR & (_ & _ & Hh & _)). simpl in Hh.
    rewrite (bind_eq _ _ _ _ _ (get_head_obj s2 this R HR)). by rewrite Hh. }
  exists s2. split_and!; try done.
  - apply state_wf_invariant. by eexists.
  - apply (to_list_abs _ _ first [] Habs2).
    destruct (decide (first = second)) as [->|Hne]; by simpl_ins.
  - apply (to_list_abs _ _ second [] Habs2). by simpl_ins.
  - intros l Hl. rewrite Hheap2, Hheap1, !lookup_free_cells.
    destruct (decide (l ∈ nsS'.*1)); [done|]. rewrite decide_True; [done|].
    destruct Hl as [Hl|Hl].
    + by apply (node_of_own own s first nsF l Habs HoF).
    + apply (node_of_own own s second nsS l Habs HoS) in Hl.
      by destruct (Hsub l Hl).
  - intros l H1 H2. rewrite Hheap2, Hheap1, !lookup_free_cells.
    rewrite !decide_False; [done| |].
    + intros Hl. by apply H1, (node_of_own own s first nsF l Habs HoF).
    + intros Hl. by apply H2, (node_of_own own s second nsS l Habs HoS), Hsub'.
Qed.

(** X9. [splitIntoTwo] with one object given for both outputs: the object
    ends up with what is assigned to it last, the second half (or the
    only element of a ring of one); the nodes of the first half are not
    released and are left reachable from no list object. *)
Theorem splitIntoTwo_same_output (s : state T) fuel this out xs :
  invariant s → this ≠ out → is_Some (objs s !! out) →
  to_list this s = Ok xs s → (length xs - 1) / 2 ≤ fuel →
  ∃ s', splitIntoTwo fuel this out out s = Ok () s' ∧ invariant s' ∧
    to_list this s' = Ok [] s' ∧
    to_list out s' =
      Ok (if decide (2 ≤ length xs) then drop ((length xs + 1) / 2) xs else xs) s' ∧
    (2 ≤ length xs →
     ∀ R i l, objs s !! this = Some R → i < (length xs + 1) / 2 →
       walk i (head_ R) s = Ok (Some l) s →
       is_Some (heap s' !! l) ∧ ¬ reachable s' l).
Proof.
  intros [own Habs]%invariant_state_wf Hne HF Hxs Hfuel.
  destruct (to_list_abs_inv _ _ _ _ _ Habs Hxs) as (ns & Ho & ->).
  rewrite length_fmap in *.
  destruct (abs_is_Some _ _ _ Habs HF) as [nsF HoF].
  destruct (splitIntoTwo_same_abs own s fuel this out ns nsF Hne Habs Ho HoF Hfuel)
    as (s' & Hrun & Habs').
  set (k := (length ns + 1) / 2) in *.
  set (ns' := if decide (2 ≤ length ns) then drop k ns else ns) in *.
  assert (<[this := []]> (<[out := ns']> own) !! this = Some []) as Ho1 by (by simpl_ins).
  assert (<[this := []]> (<[out := ns']> own) !! out = Some ns') as Ho2 by (by simpl_ins).
  exists s'. split_and!; try done.
  - apply state_wf_invariant. by eexists.
  - exact (to_list_abs _ _ this [] Habs' Ho1).
  - rewrite (to_list_abs _ _ out ns' Habs' Ho2). f_equal. unfold ns'.
    destruct (decide (2 ≤ length ns)); [|done]. by rewrite fmap_drop.
  - intros Hlen R i l HR Hi Hw.
    assert (k ≤ length ns) as Hk by apply half_sizes.
    destruct (abs_rep _ _ _ _ Habs Ho) as (R0 & HR0 & Hrep).
    rewrite HR in HR0. injection HR0 as <-.
    rewrite (walk_on_ring s R ns i Hrep) in Hw by lia.
    rewrite decide_True in Hw by lia. injection Hw as Hc. unfold cell_at in Hc.
    destruct (ns !! i) as [c|] eqn:Hci; [|done]. injection Hc as <-.
    assert (c.1 ∈ (take k ns).*1) as Hin1.
    { apply list_elem_of_fmap. exists c. split; [done|].
      apply (list_elem_of_lookup_2 _ i). by rewrite lookup_take_lt. }
    assert (c.1 ∈ ns.*1) as Hin.
    { rewrite <- (take_drop k ns), fmap_app. apply elem_of_app. by left. }
    assert (c.1 ∉ (drop k ns).*1) as Hnin2.
    { pose proof Hrep as (Hnd & _).
      rewrite <- (take_drop k ns), fmap_app in Hnd.
      apply NoDup_app in Hnd as (_ & Hdisj & _). by apply Hdisj. }
    split.
    + (* the node is still live *)
      destruct (clear_abs own s out nsF Habs HoF) as (s1 & Hc1 & Habs1 & _ & Hheap1 & _).
      destruct (clear_abs _ s1 out [] Habs1) as (s2 & Hc2 & Habs2 & _ & Hheap2 & _);
        [by simpl_ins|].
      rewrite insert_insert_eq in Habs2. set (own2 := <[out := []]> own) in *.
      assert (own2 !! this = Some ns) as Ho2' by (unfold own2; by simpl_ins).
      assert (own2 !! out = Some []) as HoF2 by (unfold own2; by simpl_ins).
      destruct (abs_rep _ _ _ _ Habs2 Ho2') as (R2 & HR2 & Hrep2).
      destruct (abs_rep _ _ _ _ Habs2 HoF2) as (F & HF2 & HrF).
      pose proof Hrun as Hrun2.
      rewrite (splitIntoTwo_after_clear s s1 s2 fuel this out out F F Hc1 Hc2 HF2
                 (proj1 (proj2 (proj2 HrF))) HF2 (proj1 (proj2 (proj2 HrF)))) in Hrun2.
      rewrite (splitIntoTwo_to_relink s2 fuel this out out R2 F F ns HR2 HF2 HF2 Hrep2
                 (proj1 (proj2 (proj2 HrF))) (proj1 (proj2 (proj2 HrF))) Hlen Hfuel) in Hrun2.
      apply split_relink_dom in Hrun2.
      apply elem_of_dom. rewrite Hrun2. apply elem_of_dom.
      exact (abs_live own2 s2 this ns c.1 Habs2 Ho2' Hin).
    + intros (r & ns0 & Ho0 & Hl0)%(reachable_owned _ _ _ Habs').
      destruct (decide (r = this)) as [->|Hn1]; [|destruct (decide (r = out)) as [->|Hn2]].
      * simpl_ins in Ho0. injection Ho0 as <-. by apply not_elem_of_nil in Hl0.
      * simpl_ins in Ho0. injection Ho0 as <-. unfold ns' in Hl0.
        by rewrite decide_True in Hl0 by done.
      * simpl_ins in Ho0. by apply (abs_disjoint _ _ _ _ _ _ _ Habs Hn1 Ho0 Ho Hl0).
Qed.

End Aliased.

(** * The ring as a queue *)

Section Queue.
Context {T : Type}.
Variable NDEBUG : bool.
Variable alloc : gmap loc (Node T) → option loc.
Local Abbreviation cells := (list (loc * T)).

Lemma append_all_frames own (s : state T) this ns vs :
  alloc_fresh alloc → alloc_total alloc →
  abs own s → own !! this = Some ns →
  ∃ s' ns', append_all NDEBUG alloc this vs s = Ok () s' ∧
            abs (<[this := ns ++ ns']> own) s' ∧ ns'.*2 = vs ∧ cout s' = cout s ∧
            frames own (<[this := ns ++ ns']> own) s s'.
Proof.
  intros Hfresh Htotal. revert own s ns.
  induction vs as [|v vs IH]; intros own s ns Habs Ho.
  - exists s, []. rewrite app_nil_r, insert_id by done. split_and!; try done; apply frames_refl.
  - destruct (Htotal (heap s)) as [l Hal].
    destruct (append_frames NDEBUG alloc own s this ns l v Habs Ho Hal (Hfresh _ _ Hal))
      as (s1 & Hrun1 & Habs1 & Hcout1 & Hfr1).
    destruct (IH _ s1 (ns ++ [(l, v)]) Habs1) as (s' & ns' & Hrun & Habs' & Hvs & Hcout & Hfr);
      [by simpl_ins|].
    rewrite insert_insert_eq, <- app_assoc in Habs', Hfr. simpl in Habs', Hfr.
    exists s', ((l, v) :: ns'). split_and!.
    + cbn [append_all]. by rewrite (bind_eq _ _ _ _ _ Hrun1).
    + done.
    + by rewrite fmap_cons, Hvs.
    + congruence.
    + eapply frames_trans; [intros l0; apply owned_dec|exact Hfr1|exact Hfr].
Qed.

Lemma take_front_n_frames own (s : state T) this ns :
  abs own s → own !! this = Some ns →
  ∃ s', take_front_n NDEBUG (length ns) this s = Ok ns.*2 s' ∧
        abs (<[this := []]> own) s' ∧ cout s' = cout s ∧
        frames own (<[this := []]> own) s s'.
Proof.
  revert own s. induction ns as [|c rest IH]; intros own s Habs Ho.
  - exists s. rewrite insert_id by done. split_and!; try done; apply frames_refl.
  - destruct (pop_front_frames NDEBUG own s this c rest Habs Ho)
      as (s1 & Hrun1 & Habs1 & Hcout1 & Hfr1).
    destruct (IH _ s1 Habs1) as (s' & Hrun & Habs' & Hcout & Hfr); [by simpl_ins|].
    rewrite insert_insert_eq in Habs', Hfr.
    exists s'. split_and!.
    + cbn [take_front_n length fmap list_fmap].
      rewrite (bind_eq _ _ _ _ _ (front_abs _ _ _ _ _ Habs Ho)).
      rewrite (bind_eq _ _ _ _ _ Hrun1), (bind_eq _ _ _ _ _ Hrun). done.
    + done.
    + congruence.
    + eapply frames_trans; [intros l0; apply owned_dec|exact Hfr1|exact Hfr].
Qed.

(** X10. The ring is a queue: elements appended at the tail come out at the
    front in the order they went in, behind those already there; and a
    ring that was empty is afterwards back in its first state, store
    included. *)
Theorem fifo_round_trip (s : state T) this xs vs :
  invariant s → alloc_fresh alloc → alloc_total alloc →
  to_list this s = Ok xs s →
  ∃ s', (append_all NDEBUG alloc this vs ;;
         take_front_n NDEBUG (length xs + length vs) this) s = Ok (xs ++ vs) s' ∧
        to_list this s' = Ok [] s' ∧
        (xs = [] → s' = s).
Proof.
  intros [own Habs]%invariant_state_wf Hfresh Htotal Hxs.
  destruct (to_list_abs_inv _ _ _ _ _ Habs Hxs) as (ns & Ho & ->).
  destruct (append_all_frames own s this ns vs Hfresh Htotal Habs Ho)
    as (s1 & ns' & Hrun1 & Habs1 & Hvs & Hcout1 & Hfr1).
  destruct (take_front_n_frames _ s1 this (ns ++ ns') Habs1) as (s' & Hrun & Habs' & Hcout & Hfr);
    [by simpl_ins|].
  rewrite insert_insert_eq in Habs', Hfr.
  exists s'. split_and!.
  - rewrite (bind_eq _ _ _ _ _ Hrun1).
    replace (length ns.*2 + length vs) with (length (ns ++ ns')).
    + rewrite Hrun. by rewrite fmap_app, Hvs.
    + rewrite length_app, length_fmap, <- Hvs, length_fmap. lia.
  - apply (to_list_abs _ _ this [] Habs'). by simpl_ins.
  - intros Hnil. destruct ns as [|c ns]; [|by rewrite fmap_cons in Hnil].
    rewrite insert_id in Habs' by done. rewrite (insert_id own this []) in Hfr by done.
    apply (abs_determines own); [done..| |congruence].
    assert (frames own own s s') as (F & _).
    { eapply frames_trans; [intros l0; apply owned_dec|exact Hfr1|exact Hfr]. }
    intros l Hl. by apply F.
Qed.

Lemma rotn_add {A} a b (l : list A) : rotn (a + b) l = rotn b (rotn a l).
Proof. revert l. induction a as [|a IH]; intros l; [done|]. simpl. apply IH. Qed.

Lemma rotn_mul {A} q (l : list A) : rotn (q * length l) l = l.
Proof.
  induction q as [|q IH]; [done|]. simpl. by rewrite rotn_add, rotn_full.
Qed.

Lemma rotn_mod {A} k (l : list A) : rotn k l = rotn (k mod length l) l.
Proof.
  rewrite (Nat.div_mod_eq k (length l)) at 1.
  by rewrite rotn_add, Nat.mul_comm, rotn_mul.
Qed.

(** X11. Round robin: after [k] calls of [rotate] the element at the front
    is the one at position [k mod size()] of the original sequence, the
    others follow in their cyclic order, and no node has been touched. *)
Theorem rotate_round_robin (s : state T) this xs k :
  invariant s → to_list this s = Ok xs s → xs ≠ [] →
  ∃ s' x, times k (rotate NDEBUG this) s = Ok () s' ∧
    xs !! (k mod length xs) = Some x ∧
    front this s' = Ok x s' ∧
    to_list this s' = Ok (drop (k mod length xs) xs ++ take (k mod length xs) xs) s' ∧
    size this s' = Ok (length xs) s' ∧
    heap s' = heap s.
Proof.
  intros [own Habs]%invariant_state_wf Hxs Hne.
  destruct (to_list_abs_inv _ _ _ _ _ Habs Hxs) as (ns & Ho & ->).
  rewrite length_fmap.
  assert (length ns ≠ 0) as Hlen by (by destruct ns).
  pose proof (Nat.mod_upper_bound k (length ns) Hlen) as Hlt.
  set (j := k mod length ns) in *.
  destruct (times_rotate_abs NDEBUG own s this ns k Habs Ho) as (s' & R' & Hrun & Habs' & Hs').
  rewrite rotn_mod, rotn_drop_take in Habs' by (fold j; lia). fold j in Habs'.
  destruct (lookup_lt_is_Some_2 ns j Hlt) as [c Hc].
  assert (<[this := drop j ns ++ take j ns]> own !! this = Some (c :: drop (S j) ns ++ take j ns))
    as Ho'.
  { simpl_ins. by rewrite (drop_S _ _ _ Hc). }
  exists s', c.2. split_and!.
  - done.
  - by rewrite list_lookup_fmap, Hc.
  - by apply (front_abs _ _ _ _ _ Habs' Ho').
  - rewrite (to_list_abs _ _ this _ Habs' Ho'). f_equal.
    by rewrite <- fmap_drop, <- fmap_take, <- fmap_app, (drop_S _ _ _ Hc).
  - rewrite (size_abs _ _ this _ Habs' Ho'). f_equal.
    cbn [length]. rewrite length_app, length_drop, length_take. lia.
  - by rewrite Hs'.
Qed.

End Queue.

(** * The console layer *)

Section Elements.
Context {T : Type}.
Local Abbreviation cells := (list (loc * T)).

Lemma abs_cout own (s : state T) c : abs own s → abs own (mkState (heap s) (objs s) c).
Proof. intros Habs. exact Habs. Qed.

Lemma get_head_abs own (s : state T) this c rest :
  abs own s → own !! this = Some (c :: rest) → get_head this s = Ok (Some c.1) s.
Proof.
  intros Habs Ho. destruct (abs_rep _ _ _ _ Habs Ho) as (R & HR & (_ & _ & Hh & _)).
  rewrite (get_head_obj s this R HR). by rewrite Hh.
Qed.

Lemma get_data_abs own (s : state T) this c rest :
  abs own s → own !! this = Some (c :: rest) → get_data (Some c.1) s = Ok c.2 s.
Proof.
  intros Habs Ho. destruct (abs_rep _ _ _ _ Habs Ho) as (R & HR & (_ & _ & _ & _ & [Hc _])).
  run. done.
Qed.

(** A write to a member of the head element. *)
Lemma upd_head_abs own (s : state T) this c rest (f : T → T) :
  abs own s → own !! this = Some (c :: rest) →
  ∃ s', upd_data (Some c.1) f s = Ok () s' ∧
        abs (<[this := (c.1, f c.2) :: rest]> own) s' ∧
        cout s' = cout s ∧ objs s' = objs s ∧
        (∀ l, l ≠ c.1 → heap s' !! l = heap s !! l).
Proof.
  intros Habs Ho. destruct (abs_rep _ _ _ _ Habs Ho) as (R & HR & Hrep).
  pose proof Hrep as (Hnd & Hsz & Hh & Ht & [Hc Hch]).
  simpl in Hnd. apply NoDup_cons in Hnd as [Hnin Hnd].
  eexists. split; [run; reflexivity|].
  split_and!; try done.
  - rewrite <- (insert_id (objs s) this R HR).
    eapply (abs_update own s this (c :: rest)); [done..| | |].
    + split_and!; simpl; try done.
      * by apply NoDup_cons.
      * rewrite Ht. by destruct rest.
      * split; [by rewrite lookup_insert_eq|]. by apply chain_insert_notin.
    + intros l Hl _. rewrite lookup_insert_ne; [done|]. intros <-. apply Hl. apply list_elem_of_here.
    + intros l Hl. by right.
  - intros l Hl. simpl. by rewrite lookup_insert_ne.
Qed.

End Elements.

(** ** Pause and resume *)

Section Toggle.
Variable NDEBUG : bool.
Local Abbreviation cells := (list (loc * Robot.t)).

Lemma toggled_toggled r : toggled (toggled r) = r.
Proof. destruct r as [i n b d p]. unfold toggled. simpl. by rewrite negb_involutive. Qed.

(** The pass of the loop that finds the id at the head. *)
Lemma toggle_loop_hit fuel (z : state Robot.t) ring id i R l d nx :
  objs z !! ring = Some R → head_ R = Some l → heap z !! l = Some (mkNode d nx) →
  Robot.id d = id → i < sz_ R →
  toggle_loop NDEBUG fuel ring id i z =
    Ok true (mkState (<[l := mkNode (toggled d) nx]> (heap z)) (objs z)
               (cout z +:+ (if Robot.paused d then "Resumed: " else "Paused: ")
                       +:+ show_Robot (toggled d) +:+ nl)).
Proof.
  intros HR Hh Hl Hid Hi.
  destruct fuel; cbn [toggle_loop]; unfold front; run;
    rewrite ?string_app_assoc; unfold toggled; by destruct (Robot.paused d).
Qed.

Lemma toggle_loop_found fuel own (z : state Robot.t) ring id (pre : cells) c post i :
  abs own z → own !! ring = Some (pre ++ c :: post) →
  Forall (λ r, Robot.id r ≠ id) pre.*2 → Robot.id c.2 = id →
  i + length pre < length (pre ++ c :: post) → length pre ≤ fuel →
  ∃ z', toggle_loop NDEBUG fuel ring id i z = Ok true z' ∧
        abs (<[ring := (c.1, toggled c.2) :: post ++ pre]> own) z' ∧
        cout z' = cout z +:+ (if Robot.paused c.2 then "Resumed: " else "Paused: ")
                         +:+ show_Robot (toggled c.2) +:+ nl.
Proof.
  revert fuel own z post i.
  induction pre as [|p pre IH]; intros fuel own z post i Habs Ho Hpre Hid Hi Hfuel.
  - simpl in Ho, Hi.
    destruct (abs_rep _ _ _ _ Habs Ho) as (R & HR & Hrep).
    pose proof Hrep as (_ & Hsz & Hh & _ & [Hc _]). simpl in Hsz, Hh.
    destruct (upd_head_abs own z ring c post toggled Habs Ho)
      as (z1 & Hupd & Habs1 & _).
    revert Hupd. unfold upd_data, bind, deref, ret. rewrite Hc. simpl. intros [= <-].
    rewrite (toggle_loop_hit fuel z ring id i R c.1 c.2 _ HR Hh Hc Hid) by lia.
    eexists. split; [reflexivity|]. rewrite app_nil_r. split; [|done].
    exact Habs1.
  - destruct fuel as [|fuel]; [simpl in Hfuel; lia|].
    simpl in Ho. rewrite fmap_cons in Hpre. apply Forall_cons in Hpre as [Hp Hpre].
    destruct (rotate_abs1 NDEBUG own z ring _ Habs Ho) as (z1 & R1 & Hrot & Habs1 & Hz1).
    simpl in Habs1. rewrite <- app_assoc in Habs1. simpl in Habs1.
    destruct (IH fuel _ z1 (post ++ [p]) (S i) Habs1) as (z' & Hloop & Habs' & Hcout').
    + by simpl_ins.
    + done.
    + done.
    + simpl in Hi. rewrite !length_app in *. simpl in *. rewrite length_app. simpl. lia.
    + simpl in Hfuel. lia.
    + rewrite insert_insert_eq, <- app_assoc in Habs'. simpl in Habs'.
      exists z'. split_and!.
      * cbn [toggle_loop]. rewrite (bind_eq _ _ _ _ _ (size_abs _ _ _ _ Habs Ho)).
        rewrite bool_decide_true by (simpl in *; lia).
        rewrite (bind_eq _ _ _ _ _ (front_abs _ _ _ _ _ Habs Ho)).
        rewrite bool_decide_false by done.
        by rewrite (bind_eq _ _ _ _ _ Hrot).
      * done.
      * rewrite Hcout', Hz1. done.
Qed.

Lemma togglePauseById_found_abs fuel own (z : state Robot.t) ring id (pre : cells) c post :
  abs own z → own !! ring = Some (pre ++ c :: post) →
  Forall (λ r, Robot.id r ≠ id) pre.*2 → Robot.id c.2 = id → length pre ≤ fuel →
  ∃ z', togglePauseById NDEBUG fuel ring id z = Ok () z' ∧
        abs (<[ring := (c.1, toggled c.2) :: post ++ pre]> own) z' ∧
        cout z' = cout z +:+ (if Robot.paused c.2 then "Resumed: " else "Paused: ")
                         +:+ show_Robot (toggled c.2) +:+ nl.
Proof.
  intros Habs Ho Hpre Hid Hfuel.
  destruct (toggle_loop_found fuel own z ring id pre c post 0 Habs Ho Hpre Hid)
    as (z' & Hloop & Habs' & Hcout); [rewrite length_app; simpl; lia|done|].
  exists z'. split; [|done]. unfold togglePauseById.
  rewrite (bind_eq _ _ _ _ _ (size_abs _ _ _ _ Habs Ho)).
  rewrite bool_decide_false by (rewrite length_app; simpl; lia).
  by rewrite (bind_eq _ _ _ _ _ Hloop).
Qed.

Lemma fmap_snd_split (ns : cells) pre r post :
  ns.*2 = pre ++ r :: post →
  ∃ npre c npost, ns = npre ++ c :: npost ∧ npre.*2 = pre ∧ c.2 = r ∧ npost.*2 = post.
Proof.
  intros H. apply fmap_app_inv in H as (npre & rest & -> & Hrest & ->).
  symmetry in Hrest. apply fmap_cons_inv in Hrest as (c & npost & -> & -> & ->).
  by exists npre, c, npost.
Qed.

(** X12. [togglePauseById] with an id that some robot carries: the ring is
    rotated until the first such robot in traversal order is at the
    head, that robot's [paused] flag is inverted and nothing else of any
    robot changes; the line written names the new state. *)
Theorem togglePauseById_first_match (z : state Robot.t) fuel ring id pre r post :
  invariant z → to_list ring z = Ok (pre ++ r :: post) z →
  Forall (λ x, Robot.id x ≠ id) pre → Robot.id r = id → length pre ≤ fuel →
  ∃ z', togglePauseById NDEBUG fuel ring id z = Ok () z' ∧ invariant z' ∧
    to_list ring z' = Ok (toggled r :: post ++ pre) z' ∧
    front ring z' = Ok (toggled r) z' ∧
    cout z' = cout z +:+ (if Robot.paused r then "Resumed: " else "Paused: ")
                     +:+ show_Robot (toggled r) +:+ nl.
Proof.
  intros [own Habs]%invariant_state_wf Hxs Hpre Hid Hfuel.
  destruct (to_list_abs_inv _ _ _ _ _ Habs Hxs) as (ns & Ho & Hns).
  symmetry in Hns. apply fmap_snd_split in Hns as (npre & c & npost & -> & <- & <- & <-).
  rewrite length_fmap in Hfuel.
  destruct (togglePauseById_found_abs fuel own z ring id npre c npost Habs Ho Hpre Hid Hfuel)
    as (z' & Hrun & Habs' & Hcout).
  assert (<[ring := (c.1, toggled c.2) :: npost ++ npre]> own !! ring
          = Some ((c.1, toggled c.2) :: npost ++ npre)) as Ho' by (by simpl_ins).
  exists z'. split_and!; try done.
  - apply state_wf_invariant. by eexists.
  - rewrite (to_list_abs _ _ _ _ Habs' Ho'). by rewrite fmap_cons, fmap_app.
  - exact (front_abs _ _ _ _ _ Habs' Ho').
Qed.

(** X13. [togglePauseById] called twice with the same id restores every
    [paused] flag: the ring holds the robots it held, unchanged, with
    the first one carrying the id now at the head. *)
Theorem togglePauseById_twice (z : state Robot.t) fuel ring id pre r post :
  invariant z → to_list ring z = Ok (pre ++ r :: post) z →
  Forall (λ x, Robot.id x ≠ id) pre → Robot.id r = id → length pre ≤ fuel →
  ∃ z', (togglePauseById NDEBUG fuel ring id ;; togglePauseById NDEBUG fuel ring id) z
          = Ok () z' ∧ invariant z' ∧
    to_list ring z' = Ok (r :: post ++ pre) z' ∧
    cout z' = cout z +:+ (if Robot.paused r then "Resumed: " else "Paused: ")
                     +:+ show_Robot (toggled r) +:+ nl
                     +:+ (if Robot.paused r then "Paused: " else "Resumed: ")
                     +:+ show_Robot r +:+ nl.
Proof.
  intros [own Habs]%invariant_state_wf Hxs Hpre Hid Hfuel.
  destruct (to_list_abs_inv _ _ _ _ _ Habs Hxs) as (ns & Ho & Hns).
  symmetry in Hns. apply fmap_snd_split in Hns as (npre & c & npost & -> & <- & <- & <-).
  rewrite length_fmap in Hfuel.
  destruct (togglePauseById_found_abs fuel own z ring id npre c npost Habs Ho Hpre Hid Hfuel)
    as (z1 & Hrun1 & Habs1 & Hcout1).
  destruct (togglePauseById_found_abs fuel _ z1 ring id [] (c.1, toggled c.2) (npost ++ npre)
              Habs1) as (z' & Hrun & Habs' & Hcout); [by simpl_ins|done|done|simpl; lia|].
  simpl in Habs', Hcout. rewrite insert_insert_eq, toggled_toggled, app_nil_r in Habs'.
  rewrite toggled_toggled in Hcout.
  assert (<[ring := (c.1, c.2) :: npost ++ npre]> own !! ring
          = Some ((c.1, c.2) :: npost ++ npre)) as Ho' by (by simpl_ins).
  exists z'. split_and!.
  - by rewrite (bind_eq _ _ _ _ _ Hrun1).
  - apply state_wf_invariant. by eexists.
  - rewrite (to_list_abs _ _ _ _ Habs' Ho'). by rewrite fmap_cons, fmap_app.
  - rewrite Hcout, Hcout1. rewrite !string_app_assoc. by destruct (Robot.paused c.2).
Qed.

End Toggle.

(** ** One turn *)

Section Turns.
Variable NDEBUG : bool.
Local Abbreviation cells := (list (loc * Robot.t)).

Lemma runOneTurn_nil_run (z : state Robot.t) ring R :
  objs z !! ring = Some R → sz_ R = 0 →
  runOneTurn NDEBUG ring z =
    Ok 0%Z (mkState (heap z) (objs z) (cout z +:+ "No robots." +:+ nl)).
Proof. intros HR Hsz. unfold runOneTurn. run. by rewrite ?string_app_assoc. Qed.

Lemma runOneTurn_paused_run (z : state Robot.t) ring R l d nx :
  objs z !! ring = Some R → sz_ R ≠ 0 → head_ R = Some l →
  heap z !! l = Some (mkNode d nx) → Robot.paused d = true →
  runOneTurn NDEBUG ring z =
    (rotate NDEBUG ring ;; ret 1%Z)
      (mkState (heap z) (objs z) (cout z +:+ "Skipped (paused): " +:+ show_Robot d +:+ nl)).
Proof.
  intros HR Hsz Hh Hl Hp. unfold runOneTurn. run. rewrite Hp. run.
  by rewrite ?string_app_assoc.
Qed.

Lemma runOneTurn_tick_run (z : state Robot.t) ring R l d nx :
  objs z !! ring = Some R → sz_ R ≠ 0 → head_ R = Some l →
  heap z !! l = Some (mkNode d nx) → Robot.paused d = false →
  (INT_MIN ≤ Robot.battery d - Robot.drain d ≤ INT_MAX)%Z →
  runOneTurn NDEBUG ring z =
    (if bool_decide (Robot.battery d - Robot.drain d ≤ 0)%Z then
       print ("Removed: " +:+ show_Robot (ticked d) +:+ " (returned to dock)" +:+ nl) ;;
       let* _ := pop_front NDEBUG ring in ret 4%Z
     else rotate NDEBUG ring ;; ret 1%Z)
      (mkState (<[l := mkNode (ticked d) nx]> (heap z)) (objs z)
         (cout z +:+ "Tick: " +:+ Robot.name d +:+ " battery " +:+ pretty (Robot.battery d)
                 +:+ " -> " +:+ pretty (Robot.battery d - Robot.drain d)%Z +:+ nl)).
Proof.
  intros HR Hsz Hh Hl Hp Hrange. unfold runOneTurn, int_sub. run.
  rewrite Hp. run.
  rewrite ?string_app_assoc. unfold ticked.
  destruct (bool_decide (Robot.battery d - Robot.drain d ≤ 0)%Z); reflexivity.
Qed.

Lemma runOneTurn_overflow_run (z : state Robot.t) ring R l d nx :
  objs z !! ring = Some R → sz_ R ≠ 0 → head_ R = Some l →
  heap z !! l = Some (mkNode d nx) → Robot.paused d = false →
  ¬ (INT_MIN ≤ Robot.battery d - Robot.drain d ≤ INT_MAX)%Z →
  runOneTurn NDEBUG ring z = Fault UB.
Proof.
  intros HR Hsz Hh Hl Hp Hrange. unfold runOneTurn, int_sub. run.
  rewrite Hp. run. done.
Qed.

Lemma runOneTurn_nil_abs own (z : state Robot.t) ring :
  abs own z → own !! ring = Some [] →
  runOneTurn NDEBUG ring z =
    Ok 0%Z (mkState (heap z) (objs z) (cout z +:+ "No robots." +:+ nl)).
Proof.
  intros Habs Ho. destruct (abs_rep _ _ _ _ Habs Ho) as (R & HR & (_ & Hsz & _)).
  by eapply runOneTurn_nil_run.
Qed.

Lemma runOneTurn_skip_abs own (z : state Robot.t) ring c rest :
  abs own z → own !! ring = Some (c :: rest) → Robot.paused c.2 = true →
  ∃ z', runOneTurn NDEBUG ring z = Ok 1%Z z' ∧ abs (<[ring := rest ++ [c]]> own) z' ∧
        heap z' = heap z ∧
        cout z' = cout z +:+ "Skipped (paused): " +:+ show_Robot c.2 +:+ nl.
Proof.
  intros Habs Ho Hp. destruct (abs_rep _ _ _ _ Habs Ho) as (R & HR & Hrep).
  pose proof Hrep as (_ & Hsz & Hh & _ & [Hc _]). simpl in Hsz, Hh.
  rewrite (runOneTurn_paused_run z ring R c.1 c.2 _ HR) by (done || lia).
  set (z2 := mkState (heap z) (objs z) _).
  destruct (rotate_abs1 NDEBUG own z2 ring (c :: rest) (abs_cout own z _ Habs) Ho)
    as (z' & R' & Hrot & Habs' & Hz').
  exists z'. split_and!.
  - by rewrite (bind_eq _ _ _ _ _ Hrot).
  - done.
  - by rewrite Hz'.
  - by rewrite Hz'.
Qed.

Lemma runOneTurn_tick_abs own (z : state Robot.t) ring c rest :
  abs own z → own !! ring = Some (c :: rest) → Robot.paused c.2 = false →
  (INT_MIN ≤ Robot.battery c.2 - Robot.drain c.2 ≤ INT_MAX)%Z →
  let tick := "Tick: " +:+ Robot.name c.2 +:+ " battery " +:+ pretty (Robot.battery c.2)
                +:+ " -> " +:+ pretty (Robot.battery c.2 - Robot.drain c.2)%Z +:+ nl in
  ((Robot.battery c.2 - Robot.drain c.2 ≤ 0)%Z →
     ∃ z', runOneTurn NDEBUG ring z = Ok 4%Z z' ∧ abs (<[ring := rest]> own) z' ∧
           heap z' !! c.1 = None ∧
           cout z' = cout z +:+ tick +:+ "Removed: " +:+ show_Robot (ticked c.2)
                            +:+ " (returned to dock)" +:+ nl) ∧
  ((0 < Robot.battery c.2 - Robot.drain c.2)%Z →
     ∃ z', runOneTurn NDEBUG ring z = Ok 1%Z z' ∧
           abs (<[ring := rest ++ [(c.1, ticked c.2)]]> own) z' ∧
           cout z' = cout z +:+ tick).
Proof.
  intros Habs Ho Hp Hrange tick. destruct (abs_rep _ _ _ _ Habs Ho) as (R & HR & Hrep).
  pose proof Hrep as (_ & Hsz & Hh & _ & [Hc _]). simpl in Hsz, Hh.
  rewrite (runOneTurn_tick_run z ring R c.1 c.2 _ HR) by (done || lia).
  destruct (upd_head_abs own z ring c rest ticked Habs Ho) as (z1 & Hupd & Habs1 & _).
  revert Hupd. unfold upd_data, bind, deref, ret. rewrite Hc. simpl. intros [= <-].
  simpl in Habs1.
  assert (<[ring := (c.1, ticked c.2) :: rest]> own !! ring
          = Some ((c.1, ticked c.2) :: rest)) as Ho1 by (by simpl_ins).
  set (z1 := mkState (<[c.1 := mkNode (ticked c.2) (hd_loc rest (Some c.1))]> (heap z))
                     (objs z) (cout z)) in *.
  split.
  - intros Hle. rewrite bool_decide_true by done.
    pose (z3 := mkState (heap z1) (objs z1)
                  ((cout z +:+ tick) +:+ ("Removed: " +:+ show_Robot (ticked c.2)
                                            +:+ " (returned to dock)" +:+ nl))).
    destruct (pop_front_abs NDEBUG _ z3 ring (c.1, ticked c.2) rest
                (abs_cout _ z1 _ Habs1) Ho1) as (z' & Hpop & Habs' & Hcout' & Hgone).
    rewrite insert_insert_eq in Habs'.
    exists z'. split_and!.
    + change (bind (pop_front NDEBUG ring) (λ _, ret 4%Z) z3 = Ok 4%Z z').
      by rewrite (bind_eq _ _ _ _ _ Hpop).
    + done.
    + done.
    + rewrite Hcout'. unfold z3. simpl. by rewrite !string_app_assoc.
  - intros Hgt. rewrite bool_decide_false by lia.
    pose (z2 := mkState (heap z1) (objs z1) (cout z +:+ tick)).
    destruct (rotate_abs1 NDEBUG _ z2 ring ((c.1, ticked c.2) :: rest)
                (abs_cout _ z1 _ Habs1) Ho1) as (z' & R' & Hrot & Habs' & Hz').
    rewrite insert_insert_eq in Habs'. simpl in Habs'.
    exists z'. split_and!.
    + change (bind (rotate NDEBUG ring) (λ _, ret 1%Z) z2 = Ok 1%Z z').
      by rewrite (bind_eq _ _ _ _ _ Hrot).
    + done.
    + by rewrite Hz'.
Qed.

Lemma runOneTurn_overflow_abs own (z : state Robot.t) ring c rest :
  abs own z → own !! ring = Some (c :: rest) → Robot.paused c.2 = false →
  ¬ (INT_MIN ≤ Robot.battery c.2 - Robot.drain c.2 ≤ INT_MAX)%Z →
  runOneTurn NDEBUG ring z = Fault UB.
Proof.
  intros Habs Ho Hp Hrange. destruct (abs_rep _ _ _ _ Habs Ho) as (R & HR & Hrep).
  pose proof Hrep as (_ & Hsz & Hh & _ & [Hc _]). simpl in Hsz, Hh.
  by rewrite (runOneTurn_overflow_run z ring R c.1 c.2 _ HR) by (done || lia).
Qed.

(** X14. [runOneTurn] with a paused robot at the head: the robot is
    skipped, with its battery as it was, the ring moves on by one place
    and the turn counts 1. *)
Theorem runOneTurn_skips_paused (z : state Robot.t) ring r rest :
  invariant z → to_list ring z = Ok (r :: rest) z → Robot.paused r = true →
  ∃ z', runOneTurn NDEBUG ring z = Ok 1%Z z' ∧ invariant z' ∧
    to_list ring z' = Ok (rest ++ [r]) z' ∧
    heap z' = heap z ∧
    cout z' = cout z +:+ "Skipped (paused): " +:+ show_Robot r +:+ nl.
Proof.
  intros [own Habs]%invariant_state_wf Hxs Hp.
  destruct (to_list_abs_inv _ _ _ _ _ Habs Hxs) as (ns & Ho & Hns).
  symmetry in Hns. apply fmap_cons_inv in Hns as (c & nrest & -> & -> & ->).
  destruct (runOneTurn_skip_abs own z ring c nrest Habs Ho Hp) as (z' & Hrun & Habs' & Hh & Hc).
  exists z'. split_and!; try done.
  - apply state_wf_invariant. by eexists.
  - rewrite (to_list_abs _ _ ring (nrest ++ [c]) Habs') by (by simpl_ins).
    by rewrite fmap_app.
Qed.

(** X15. [runOneTurn] with an active robot at the head, when the
    subtraction stays within [int]: the battery goes down by the drain;
    a robot left with charge moves to the back of the ring and the turn
    counts 1; a robot left with none is removed, its node released, the
    robot behind it becomes the head and the turn counts 4. *)
Theorem runOneTurn_ticks (z : state Robot.t) ring r rest :
  invariant z → to_list ring z = Ok (r :: rest) z → Robot.paused r = false →
  (INT_MIN ≤ Robot.battery r - Robot.drain r ≤ INT_MAX)%Z →
  let tick := "Tick: " +:+ Robot.name r +:+ " battery " +:+ pretty (Robot.battery r)
                +:+ " -> " +:+ pretty (Robot.battery r - Robot.drain r)%Z +:+ nl in
  ((0 < Robot.battery r - Robot.drain r)%Z →
     ∃ z', runOneTurn NDEBUG ring z = Ok 1%Z z' ∧ invariant z' ∧
           to_list ring z' = Ok (rest ++ [ticked r]) z' ∧
           cout z' = cout z +:+ tick) ∧
  ((Robot.battery r - Robot.drain r ≤ 0)%Z →
     ∃ z', runOneTurn NDEBUG ring z = Ok 4%Z z' ∧ invariant z' ∧
           to_list ring z' = Ok rest z' ∧ size ring z' = Ok (length rest) z' ∧
           (∀ l, get_head ring z = Ok (Some l) z → heap z' !! l = None) ∧
           cout z' = cout z +:+ tick +:+ "Removed: " +:+ show_Robot (ticked r)
                            +:+ " (returned to dock)" +:+ nl).
Proof.
  intros [own Habs]%invariant_state_wf Hxs Hp Hrange tick.
  destruct (to_list_abs_inv _ _ _ _ _ Habs Hxs) as (ns & Ho & Hns).
  symmetry in Hns. apply fmap_cons_inv in Hns as (c & nrest & -> & -> & ->).
  destruct (runOneTurn_tick_abs own z ring c nrest Habs Ho Hp Hrange) as [Hrem Hgo].
  split.
  - intros Hgt. destruct (Hgo Hgt) as (z' & Hrun & Habs' & Hcout).
    exists z'. split_and!; try done.
    + apply state_wf_invariant. by eexists.
    + rewrite (to_list_abs _ _ ring (nrest ++ [(c.1, ticked c.2)]) Habs') by (by simpl_ins).
      by rewrite fmap_app.
  - intros Hle. destruct (Hrem Hle) as (z' & Hrun & Habs' & Hgone & Hcout).
    exists z'. split_and!; try done.
    + apply state_wf_invariant. by eexists.
    + apply (to_list_abs _ _ ring nrest Habs'). by simpl_ins.
    + rewrite (size_abs _ _ ring nrest Habs') by (by simpl_ins). by rewrite length_fmap.
    + intros l Hl. rewrite (get_head_abs _ _ _ _ _ Habs Ho) in Hl. by injection Hl as <-.
Qed.

(** X16. The two ends of [runOneTurn]: on an empty ring it says so, returns
    0 and changes nothing else; and when [battery - drain] of the active
    head robot does not fit an [int], the subtraction is undefined
    behaviour. *)
Theorem runOneTurn_edges (z : state Robot.t) ring :
  invariant z →
  (to_list ring z = Ok [] z →
     runOneTurn NDEBUG ring z =
       Ok 0%Z (mkState (heap z) (objs z) (cout z +:+ "No robots." +:+ nl))) ∧
  (∀ r rest, to_list ring z = Ok (r :: rest) z → Robot.paused r = false →
     ¬ (INT_MIN ≤ Robot.battery r - Robot.drain r ≤ INT_MAX)%Z →
     runOneTurn NDEBUG ring z = Fault UB).
Proof.
  intros [own Habs]%invariant_state_wf. split.
  - intros Hxs. destruct (to_list_abs_inv _ _ _ _ _ Habs Hxs) as (ns & Ho & Hns).
    symmetry in Hns. apply fmap_nil_inv in Hns as ->. by eapply runOneTurn_nil_abs.
  - intros r rest Hxs Hp Hrange.
    destruct (to_list_abs_inv _ _ _ _ _ Habs Hxs) as (ns & Ho & Hns).
    symmetry in Hns. apply fmap_cons_inv in Hns as (c & nrest & -> & -> & ->).
    by eapply runOneTurn_overflow_abs.
Qed.

End Turns.

(** ** Many turns *)

Section ManyTurns.
Variable NDEBUG : bool.
Local Abbreviation cells := (list (loc * Robot.t)).

Lemma tick_safe_range r :
  tick_safe r → (INT_MIN ≤ Robot.battery r - Robot.drain r ≤ INT_MAX)%Z.
Proof. unfold tick_safe, INT_MIN, INT_MAX. lia. Qed.

Lemma tick_safe_ticked r :
  tick_safe r → (0 < Robot.battery r - Robot.drain r)%Z → tick_safe (ticked r).
Proof. unfold tick_safe, ticked, INT_MIN, INT_MAX. simpl. lia. Qed.

(** One turn, whatever is at the head. *)
Lemma runOneTurn_safe_abs own (z : state Robot.t) ring (ns : cells) :
  abs own z → own !! ring = Some ns → Forall tick_safe ns.*2 →
  ∃ g z' (ns' : cells),
    runOneTurn NDEBUG ring z = Ok g z' ∧ abs (<[ring := ns']> own) z' ∧
    Forall tick_safe ns'.*2 ∧
    (g = 0 ∨ g = 1 ∨ g = 4)%Z ∧
    length ns' + (if decide (g = 4%Z) then 1 else 0) = length ns ∧
    filter (λ r, Robot.paused r) ns'.*2 ≡ₚ filter (λ r, Robot.paused r) ns.*2 ∧
    (Forall (λ r, (0 < Robot.battery r)%Z) ns.*2 →
     Forall (λ r, (0 < Robot.battery r)%Z) ns'.*2).
Proof.
  intros Habs Ho Hsafe. destruct ns as [|c rest].
  - eexists 0%Z, _, []. split; [by eapply runOneTurn_nil_abs|].
    rewrite insert_id by done. split; [by apply abs_cout|]. split_and!; try done. by left.
  - rewrite fmap_cons in *. apply Forall_cons in Hsafe as [Hc Hrest].
    destruct (Robot.paused c.2) eqn:Hp.
    + destruct (runOneTurn_skip_abs NDEBUG own z ring c rest Habs Ho Hp)
        as (z' & Hrun & Habs' & _).
      exists 1%Z, z', (rest ++ [c]). rewrite fmap_app. split_and!; try done.
      * apply Forall_app. split; [done|]. by apply Forall_singleton.
      * right. by left.
      * rewrite length_app. simpl. lia.
      * rewrite filter_app, filter_cons_True by (by rewrite Hp).
        rewrite (filter_cons_True _ c.2 []) by (by rewrite Hp).
        rewrite filter_nil. symmetry. apply Permutation_cons_append.
      * intros [H1 H2]%Forall_cons. apply Forall_app. split; [done|]. by apply Forall_singleton.
    + destruct (runOneTurn_tick_abs NDEBUG own z ring c rest Habs Ho Hp (tick_safe_range _ Hc))
        as [Hrem Hgo].
      destruct (decide (Robot.battery c.2 - Robot.drain c.2 ≤ 0)%Z) as [Hle|Hgt].
      * destruct (Hrem Hle) as (z' & Hrun & Habs' & _).
        exists 4%Z, z', rest. split_and!; try done.
        -- right. by right.
        -- simpl. lia.
        -- rewrite filter_cons_False; [done|]. rewrite Hp. simpl. tauto.
        -- by intros [H1 H2]%Forall_cons.
      * destruct (Hgo ltac:(lia)) as (z' & Hrun & Habs' & _).
        exists 1%Z, z', (rest ++ [(c.1, ticked c.2)]). rewrite fmap_app. split_and!; try done.
        -- apply Forall_app. split; [done|]. apply Forall_singleton.
           apply tick_safe_ticked; [done|lia].
        -- right. by left.
        -- rewrite length_app. simpl. lia.
        -- rewrite filter_app. rewrite (filter_cons_False _ c.2) by (rewrite Hp; simpl; tauto).
           rewrite (filter_cons_False _ (ticked c.2) []) by (simpl; rewrite Hp; simpl; tauto).
           by rewrite filter_nil, app_nil_r.
        -- intros [H1 H2]%Forall_cons. apply Forall_app. split; [done|].
           apply Forall_singleton. simpl. lia.
Qed.

Lemma runOneTurn_n_safe_abs k own (z : state Robot.t) ring (ns : cells) :
  abs own z → own !! ring = Some ns → Forall tick_safe ns.*2 →
  ∃ gs z' (ns' : cells),
    runOneTurn_n NDEBUG k ring z = Ok gs z' ∧ abs (<[ring := ns']> own) z' ∧
    Forall tick_safe ns'.*2 ∧ length gs = k ∧
    Forall (λ g, g = 0 ∨ g = 1 ∨ g = 4)%Z gs ∧
    length ns' + length (filter (λ g, g = 4%Z) gs) = length ns ∧
    filter (λ r, Robot.paused r) ns'.*2 ≡ₚ filter (λ r, Robot.paused r) ns.*2 ∧
    (Forall (λ r, (0 < Robot.battery r)%Z) ns.*2 →
     Forall (λ r, (0 < Robot.battery r)%Z) ns'.*2).
Proof.
  revert own z ns. induction k as [|k IH]; intros own z ns Habs Ho Hsafe.
  - exists [], z, ns. rewrite insert_id by done. split_and!; try done; simpl; lia.
  - destruct (runOneTurn_safe_abs own z ring ns Habs Ho Hsafe)
      as (g & z1 & ns1 & Hrun1 & Habs1 & Hsafe1 & Hg & Hlen1 & Hperm1 & Hpos1).
    destruct (IH _ z1 ns1 Habs1) as (gs & z' & ns' & Hrun & Habs' & Hsafe' & Hk & Hgs
                                     & Hlen & Hperm & Hpos); [by simpl_ins|done|].
    rewrite insert_insert_eq in Habs'.
    exists (g :: gs), z', ns'. split_and!; try done.
    + cbn [runOneTurn_n]. by rewrite (bind_eq _ _ _ _ _ Hrun1), (bind_eq _ _ _ _ _ Hrun).
    + simpl. lia.
    + by apply Forall_cons.
    + destruct (decide (g = 4%Z)) as [Hg4|Hg4].
      * rewrite filter_cons_True by done. simpl. lia.
      * rewrite filter_cons_False by done. lia.
    + by rewrite Hperm.
    + intros H. by apply Hpos, Hpos1.
Qed.

(** X17. Any number of turns on robots whose fields keep the subtraction
    within [int]: every turn returns, counting 0, 1 or 4; robots are
    only ever removed, one for each turn that counts 4; the paused
    robots are all still there, exactly as they were; and when all
    batteries were positive, no robot with a flat battery is left in
    the ring. *)
Theorem turns_run_safely (z : state Robot.t) ring xs k :
  invariant z → to_list ring z = Ok xs z → Forall tick_safe xs →
  ∃ gs z' ys,
    runOneTurn_n NDEBUG k ring z = Ok gs z' ∧ invariant z' ∧
    to_list ring z' = Ok ys z' ∧ Forall tick_safe ys ∧
    length gs = k ∧ Forall (λ g, g = 0 ∨ g = 1 ∨ g = 4)%Z gs ∧
    length ys + length (filter (λ g, g = 4%Z) gs) = length xs ∧
    filter (λ r, Robot.paused r) ys ≡ₚ filter (λ r, Robot.paused r) xs ∧
    (Forall (λ r, (0 < Robot.battery r)%Z) xs → Forall (λ r, (0 < Robot.battery r)%Z) ys).
Proof.
  intros [own Habs]%invariant_state_wf Hxs Hsafe.
  destruct (to_list_abs_inv _ _ _ _ _ Habs Hxs) as (ns & Ho & ->).
  destruct (runOneTurn_n_safe_abs k own z ring ns Habs Ho Hsafe)
    as (gs & z' & ns' & Hrun & Habs' & Hsafe' & Hk & Hgs & Hlen & Hperm & Hpos).
  exists gs, z', ns'.*2. rewrite !length_fmap. split_and!; try done.
  - apply state_wf_invariant. by eexists.
  - apply (to_list_abs _ _ ring ns' Habs'). by simpl_ins.
Qed.






End ManyTurns.

(** ** The split and merge options of the menu *)

Section Menu.
Variable NDEBUG : bool.
Local Abbreviation cells := (list (loc * Robot.t)).

Lemma bind_print_mk {T B} txt (k : unit → M T B) h o c :
  bind (print txt) k (mkState h o c) = k () (mkState h o (c +:+ txt)).
Proof. reflexivity. Qed.

Lemma display_mk {T} (show : T → string) own h o c0 c r (ns : list (loc * T)) :
  abs own (mkState h o c0) → own !! r = Some ns →
  display show r (mkState h o c) =
    Ok () (mkState h o (c +:+ rendering show ns.*2 +:+ nl)).
Proof.
  intros Habs Ho. destruct (abs_rep _ _ _ _ Habs Ho) as (R & HR & Hrep).
  rewrite (display_rep (mkState h o c) r R ns HR Hrep show). simpl.
  do 3 f_equal. by destruct ns.
Qed.

Lemma main_merge_abs own (z : state Robot.t) ring a b (nsR nsA nsB : cells) :
  ring ≠ a → ring ≠ b → a ≠ b →
  abs own z → own !! ring = Some nsR → own !! a = Some nsA → own !! b = Some nsB →
  let own' := <[ring := nsR ++ nsA ++ nsB]> (<[a := []]> (<[b := []]> own)) in
  ∃ z', main_merge NDEBUG ring a b z = Ok () z' ∧ abs own' z' ∧
        frames own own' z z' ∧
        cout z' = cout z +:+ "Merged. Current ring:" +:+ nl
                         +:+ rendering show_Robot (nsR ++ nsA ++ nsB).*2 +:+ nl.
Proof.
  intros Hn1 Hn2 Hn3 Habs HoR HoA HoB own'.
  destruct (mergeWith_frames NDEBUG own z a b nsA nsB Hn3 Habs HoA HoB)
    as (z1 & Hrun1 & Habs1 & Hcout1 & Hfr1).
  destruct (mergeWith_frames NDEBUG _ z1 ring a nsR (nsA ++ nsB) Hn1 Habs1)
    as (z2 & Hrun2 & Habs2 & Hcout2 & Hfr2); [by simpl_ins..|].
  assert (<[a := []]> (<[ring := nsR ++ nsA ++ nsB]>
            (<[b := []]> (<[a := nsA ++ nsB]> own))) = own') as Hown.
  { unfold own'. apply map_eq. intros r.
    destruct (decide (r = ring)) as [->|?]; [by simpl_ins|].
    destruct (decide (r = a)) as [->|?]; [by simpl_ins|].
    destruct (decide (r = b)) as [->|?]; by simpl_ins. }
  rewrite Hown in Habs2, Hfr2.
  assert (own' !! ring = Some (nsR ++ nsA ++ nsB)) as Ho' by (unfold own'; by simpl_ins).
  unfold main_merge. rewrite (bind_eq _ _ _ _ _ Hrun1), (bind_eq _ _ _ _ _ Hrun2).
  destruct z2 as [h o c]. simpl in *.
  rewrite bind_print_mk, (display_mk show_Robot own' h o c _ ring _ Habs2 Ho').
  eexists. split; [reflexivity|]. split_and!.
  - exact Habs2.
  - eapply frames_trans; [intros l; apply owned_dec|exact Hfr1|exact Hfr2].
  - simpl. rewrite Hcout2, Hcout1. by rewrite !string_app_assoc.
Qed.

Lemma main_split_abs own (z : state Robot.t) fuel ring a b (ns nsA nsB : cells) :
  ring ≠ a → ring ≠ b → a ≠ b →
  abs own z → own !! ring = Some ns → own !! a = Some nsA → own !! b = Some nsB →
  (length ns - 1) / 2 ≤ fuel →
  let k := (length ns + 1) / 2 in
  let own' := <[ring := []]> (<[b := drop k ns]> (<[a := take k ns]> own)) in
  ∃ z', main_split fuel ring a b z = Ok () z' ∧ abs own' z' ∧
        frames own own' z z' ∧
        cout z' = cout z +:+ "Ring A:" +:+ nl +:+ rendering show_Robot (take k ns).*2 +:+ nl
                         +:+ "Ring B:" +:+ nl +:+ rendering show_Robot (drop k ns).*2 +:+ nl.
Proof.
  intros Hn1 Hn2 Hn3 Habs Ho HoA HoB Hfuel k own'.
  destruct (clear_frames own z a nsA Habs HoA) as (z1 & Hc1 & Habs1 & Hcout1 & Hfr1).
  destruct (clear_frames _ z1 b nsB Habs1) as (z2 & Hc2 & Habs2 & Hcout2 & Hfr2);
    [by simpl_ins|].
  destruct (splitIntoTwo_frames _ z2 fuel ring a b ns [] [] Hn1 Hn2 Hn3 Habs2)
    as (z3 & Hsp & Habs3 & Hcout3 & Hfr3); [by simpl_ins..|done|].
  fold k in Habs3, Hfr3.
  assert (<[ring := []]> (<[b := drop k ns]> (<[a := take k ns]>
            (<[b := []]> (<[a := []]> own)))) = own') as Hown.
  { unfold own'. apply map_eq. intros r.
    destruct (decide (r = ring)) as [->|?]; [by simpl_ins|].
    destruct (decide (r = b)) as [->|?]; [by simpl_ins|].
    destruct (decide (r = a)) as [->|?]; by simpl_ins. }
  rewrite Hown in Habs3, Hfr3.
  assert (own' !! a = Some (take k ns)) as Ha' by (unfold own'; by simpl_ins).
  assert (own' !! b = Some (drop k ns)) as Hb' by (unfold own'; by simpl_ins).
  unfold main_split.
  rewrite (bind_eq _ _ _ _ _ Hc1), (bind_eq _ _ _ _ _ Hc2), (bind_eq _ _ _ _ _ Hsp).
  destruct z3 as [h o c]. simpl in *.
  rewrite bind_print_mk, (bind_eq _ _ _ _ _ (display_mk show_Robot own' h o c _ a _ Habs3 Ha')).
  rewrite bind_print_mk, (display_mk show_Robot own' h o c _ b _ Habs3 Hb').
  eexists. split; [reflexivity|]. split_and!.
  - exact Habs3.
  - eapply frames_trans; [intros l; apply owned_dec|exact Hfr1|].
    eapply frames_trans; [intros l; apply owned_dec|exact Hfr2|exact Hfr3].
  - simpl. rewrite Hcout3, Hcout2, Hcout1. by rewrite !string_app_assoc.
Qed.

(** X19. Menu option 7: afterwards [ring] holds its robots followed by those
    of [a] and then those of [b], both of which are empty, and that
    sequence is what is shown. *)
Theorem main_merge_concat (z : state Robot.t) ring a b xs ys zs :
  invariant z → ring ≠ a → ring ≠ b → a ≠ b →
  to_list ring z = Ok xs z → to_list a z = Ok ys z → to_list b z = Ok zs z →
  ∃ z', main_merge NDEBUG ring a b z = Ok () z' ∧ invariant z' ∧
    to_list ring z' = Ok (xs ++ ys ++ zs) z' ∧
    to_list a z' = Ok [] z' ∧ to_list b z' = Ok [] z' ∧
    cout z' = cout z +:+ "Merged. Current ring:" +:+ nl
                     +:+ rendering show_Robot (xs ++ ys ++ zs) +:+ nl.
Proof.
  intros [own Habs]%invariant_state_wf Hn1 Hn2 Hn3 Hxs Hys Hzs.
  destruct (to_list_abs_inv _ _ _ _ _ Habs Hxs) as (nsR & HoR & ->).
  destruct (to_list_abs_inv _ _ _ _ _ Habs Hys) as (nsA & HoA & ->).
  destruct (to_list_abs_inv _ _ _ _ _ Habs Hzs) as (nsB & HoB & ->).
  destruct (main_merge_abs own z ring a b nsR nsA nsB Hn1 Hn2 Hn3 Habs HoR HoA HoB)
    as (z' & Hrun & Habs' & _ & Hcout).
  rewrite !fmap_app in Hcout.
  exists z'. split_and!; try done.
  - apply state_wf_invariant. by eexists.
  - rewrite (to_list_abs _ _ ring (nsR ++ nsA ++ nsB) Habs') by (by simpl_ins).
    by rewrite !fmap_app.
  - apply (to_list_abs _ _ a [] Habs'). by simpl_ins.
  - apply (to_list_abs _ _ b [] Habs'). by simpl_ins.
Qed.

(** X20. Menu option 6 followed by menu option 7: the robots are shown in
    two halves and then merged back; [ring] holds its sequence again,
    [a] and [b] are empty, and when they were empty to begin with the
    store and the list objects are exactly as before. *)
Theorem main_split_then_merge (z : state Robot.t) fuel ring a b xs :
  invariant z → ring ≠ a → ring ≠ b → a ≠ b →
  is_Some (objs z !! a) → is_Some (objs z !! b) →
  to_list ring z = Ok xs z → (length xs - 1) / 2 ≤ fuel →
  ∃ z', (main_split fuel ring a b ;; main_merge NDEBUG ring a b) z = Ok () z' ∧
    invariant z' ∧
    to_list ring z' = Ok xs z' ∧ to_list a z' = Ok [] z' ∧ to_list b z' = Ok [] z' ∧
    cout z' = cout z
      +:+ "Ring A:" +:+ nl
      +:+ rendering show_Robot (take ((length xs + 1) / 2) xs) +:+ nl
      +:+ "Ring B:" +:+ nl
      +:+ rendering show_Robot (drop ((length xs + 1) / 2) xs) +:+ nl
      +:+ "Merged. Current ring:" +:+ nl +:+ rendering show_Robot xs +:+ nl ∧
    (to_list a z = Ok [] z → to_list b z = Ok [] z →
     heap z' = heap z ∧ objs z' = objs z).
Proof.
  intros [own Habs]%invariant_state_wf Hn1 Hn2 Hn3 HA HB Hxs Hfuel.
  destruct (to_list_abs_inv _ _ _ _ _ Habs Hxs) as (ns & Ho & ->).
  rewrite length_fmap in *.
  destruct (abs_is_Some _ _ _ Habs HA) as [nsA HoA].
  destruct (abs_is_Some _ _ _ Habs HB) as [nsB HoB].
  set (k := (length ns + 1) / 2) in *.
  destruct (main_split_abs own z fuel ring a b ns nsA nsB Hn1 Hn2 Hn3 Habs Ho HoA HoB Hfuel)
    as (z1 & Hrun1 & Habs1 & Hfr1 & Hcout1).
  fold k in Habs1, Hfr1, Hcout1.
  destruct (main_merge_abs _ z1 ring a b [] (take k ns) (drop k ns) Hn1 Hn2 Hn3 Habs1)
    as (z' & Hrun & Habs' & Hfr & Hcout); [by simpl_ins..|].
  simpl in Habs', Hfr, Hcout. rewrite take_drop in Habs', Hfr, Hcout.
  set (own1 := <[ring := []]> (<[b := drop k ns]> (<[a := take k ns]> own))) in *.
  assert (<[ring := ns]> (<[a := []]> (<[b := []]> own1))
          = <[a := []]> (<[b := []]> own)) as Hown.
  { unfold own1. apply map_eq. intros r.
    destruct (decide (r = ring)) as [->|?]; [by simpl_ins|].
    destruct (decide (r = a)) as [->|?]; [by simpl_ins|].
    destruct (decide (r = b)) as [->|?]; by simpl_ins. }
  rewrite Hown in Habs', Hfr.
  exists z'. split_and!.
  - by rewrite (bind_eq _ _ _ _ _ Hrun1).
  - apply state_wf_invariant. by eexists.
  - apply (to_list_abs _ _ ring ns Habs'). by simpl_ins.
  - apply (to_list_abs _ _ a [] Habs'). by simpl_ins.
  - apply (to_list_abs _ _ b [] Habs'). by simpl_ins.
  - rewrite Hcout, Hcout1. rewrite <- fmap_take, <- fmap_drop. by rewrite !string_app_assoc.
  - intros HA0 HB0.
    destruct (to_list_abs_inv _ _ _ _ _ Habs HA0) as (nsA' & HoA' & HnA).
    destruct (to_list_abs_inv _ _ _ _ _ Habs HB0) as (nsB' & HoB' & HnB).
    symmetry in HnA, HnB. apply fmap_nil_inv in HnA, HnB. subst nsA' nsB'.
    rewrite (insert_id own b []) in Habs', Hfr by done.
    rewrite (insert_id own a []) in Habs', Hfr by done.
    assert (frames own own z z') as (F & _).
    { eapply frames_trans; [intros l; apply owned_dec|exact Hfr1|exact Hfr]. }
    assert (mkState (heap z') (objs z') (cout z) = z) as Heq.
    { apply (abs_determines own); [done|by apply abs_cout| |done].
      intros l Hl. simpl. by apply F. }
    split; [exact (f_equal heap Heq)|exact (f_equal objs Heq)].
Qed.

End Menu.

(** * End of lifetime *)

Section Lifetime.
Context {T : Type}.
Local Abbreviation cells := (list (loc * T)).

Lemma destroy_abs own (s : state T) this ns :
  abs own s → own !! this = Some ns →
  ∃ s', destroy this s = Ok () s' ∧ abs (delete this own) s' ∧ cout s' = cout s ∧
        frames own (delete this own) s s' ∧ objs s' = delete this (objs s).
Proof.
  intros Habs Ho.
  destruct (clear_frames own s this ns Habs Ho) as (s1 & Hrun1 & Habs1 & Hcout1 & Hfr1).
  destruct (clear_abs own s this ns Habs Ho) as (s1' & Hrun1' & _ & _ & _ & Hobjs1).
  rewrite Hrun1 in Hrun1'. injection Hrun1' as <-.
  assert (objs s1 !! this = Some (mkList None None 0)) as HR1 by (rewrite Hobjs1; by simpl_ins).
  eexists. split; [unfold destroy; rewrite (bind_eq _ _ _ _ _ Hrun1), HR1; reflexivity|].
  assert (∀ l, owned (delete this own) l ↔ owned (<[this := []]> own) l) as Hsame.
  { intros l. split; intros (r & ns0 & Ho0 & Hl).
    - destruct (decide (r = this)) as [->|Hne]; [by rewrite lookup_delete_eq in Ho0|].
      rewrite lookup_delete_ne in Ho0 by congruence. exists r, ns0. by simpl_ins.
    - destruct (decide (r = this)) as [->|Hne].
      + simpl_ins in Ho0. injection Ho0 as <-. by apply not_elem_of_nil in Hl.
      + simpl_ins in Ho0. exists r, ns0. by rewrite lookup_delete_ne by congruence. }
  split_and!; cbn [heap objs cout].
  - destruct Habs1 as (A1 & A2 & A3). split_and!; cbn [heap objs cout].
    + intros r Hr. destruct (decide (r = this)) as [->|Hne]; [by rewrite lookup_delete_eq|].
      assert (this ≠ r) as Hne' by congruence.
      rewrite (lookup_delete_ne own this r Hne') in Hr.
      rewrite (lookup_delete_ne (objs s1) this r Hne'). apply A1. by simpl_ins.
    + intros r ns0 Hr. destruct (decide (r = this)) as [->|Hne];
        [by rewrite lookup_delete_eq in Hr|].
      assert (this ≠ r) as Hne' by congruence.
      rewrite (lookup_delete_ne own this r Hne') in Hr.
      rewrite (lookup_delete_ne (objs s1) this r Hne'). apply A2. by simpl_ins.
    + intros r r' ns0 ns0' l Hrr Hr Hr' Hl.
      destruct (decide (r = this)) as [->|Hne]; [by rewrite lookup_delete_eq in Hr|].
      destruct (decide (r' = this)) as [->|Hne']; [by rewrite lookup_delete_eq in Hr'|].
      rewrite lookup_delete_ne in Hr by congruence. rewrite lookup_delete_ne in Hr' by congruence.
      
      apply (A3 r r' ns0 ns0' l Hrr); by simpl_ins.
  - done.
  - destruct Hfr1 as (F & G & N). split_and!.
    + intros l H0 H1. apply F; [done|]. by rewrite <- Hsame.
    + intros l H0 H1. apply G; [done|]. by rewrite <- Hsame.
    + intros l H1 H0. apply N; [|done]. by rewrite <- Hsame.
  - by rewrite Hobjs1, delete_insert_eq.
Qed.

Lemma destroy_all_abs (rs : list rid) own (s : state T) :
  abs own s → NoDup rs → (∀ r, is_Some (own !! r) ↔ r ∈ rs) →
  ∃ s', destroy_all rs s = Ok () s' ∧ abs ∅ s' ∧ cout s' = cout s ∧ frames own ∅ s s'.
Proof.
  revert own s. induction rs as [|r rs IH]; intros own s Habs Hnd Hdom.
  - assert (own = ∅) as ->.
    { apply map_empty. intros r. apply eq_None_not_Some. rewrite Hdom. apply not_elem_of_nil. }
    exists s. split_and!; try done; apply frames_refl.
  - apply NoDup_cons in Hnd as [Hnin Hnd].
    destruct (proj2 (Hdom r) (list_elem_of_here _ _)) as [ns Ho].
    destruct (destroy_abs own s r ns Habs Ho) as (s1 & Hrun1 & Habs1 & Hcout1 & Hfr1 & _).
    destruct (IH _ s1 Habs1 Hnd) as (s' & Hrun & Habs' & Hcout & Hfr).
    { intros r'. destruct (decide (r' = r)) as [->|Hne].
      - rewrite lookup_delete_eq. split; [by intros []|done].
      - rewrite lookup_delete_ne by congruence. rewrite Hdom, elem_of_cons.
        split; [by intros [?|?]|by right]. }
    exists s'. split_and!.
    + cbn [destroy_all]. by rewrite (bind_eq _ _ _ _ _ Hrun1).
    + done.
    + congruence.
    + eapply frames_trans; [intros l; apply owned_dec|exact Hfr1|exact Hfr].
Qed.

(** X21. When the list objects go out of scope nothing stays behind: in a
    state without lost nodes, the destructors of all the objects leave
    the free store empty. *)
Theorem destroy_all_frees_store (s : state T) (rs : list rid) :
  invariant s → no_garbage s → NoDup rs → (∀ r, is_Some (objs s !! r) ↔ r ∈ rs) →
  ∃ s', destroy_all rs s = Ok () s' ∧ heap s' = ∅ ∧ objs s' = ∅ ∧ cout s' = cout s.
Proof.
  intros [own Habs]%invariant_state_wf Hng Hnd Hdom.
  destruct (destroy_all_abs rs own s Habs Hnd) as (s' & Hrun & Habs' & Hcout & Hfr).
  { intros r. rewrite <- Hdom. split.
    - intros [ns Ho]. destruct (abs_rep _ _ _ _ Habs Ho) as (R & HR & _). by rewrite HR.
    - by apply abs_is_Some. }
  exists s'. split_and!; try done.
  - apply map_empty. intros l. apply eq_None_not_Some. intros Hlive.
    apply (frames_no_garbage own ∅ s s' Habs Habs' Hfr Hng) in Hlive.
    apply (reachable_owned ∅ s' l Habs') in Hlive as (r & ns & Ho & _).
    by rewrite lookup_empty in Ho.
  - apply map_empty. intros r. destruct Habs' as (A1 & _). apply A1, lookup_empty.
Qed.

End Lifetime.

(** * How calls compose *)

Section Algebra.
Context {T : Type}.
Variable NDEBUG : bool.
Local Abbreviation cells := (list (loc * T)).

(** Two runs from one state that end with the same ownership and the
    same text end in the same state. *)
Lemma frames_join own own' (s s1 s2 : state T) :
  abs own' s1 → abs own' s2 → frames own own' s s1 → frames own own' s s2 →
  cout s2 = cout s1 → s2 = s1.
Proof.
  intros Habs1 Habs2 (F1 & G1 & _) (F2 & G2 & _) Hcout.
  apply (abs_determines own'); [done..| |done].
  intros l Hl. destruct (owned_dec own l) as [Ho|Hn].
  - by rewrite G1, G2.
  - by rewrite F1, F2.
Qed.

(** X22. [mergeWith] is associative, down to the state: merging [b]
    into [a] and then [c] into [a] ends in exactly the state that
    merging [c] into [b] and then [b] into [a] ends in, with [a]
    holding the three sequences in order and [b] and [c] empty. *)
Theorem mergeWith_assoc (s : state T) a b c xs ys zs :
  invariant s → a ≠ b → a ≠ c → b ≠ c →
  to_list a s = Ok xs s → to_list b s = Ok ys s → to_list c s = Ok zs s →
  ∃ s', (mergeWith NDEBUG a b ;; mergeWith NDEBUG a c) s = Ok () s' ∧
        (mergeWith NDEBUG b c ;; mergeWith NDEBUG a b) s = Ok () s' ∧
        invariant s' ∧
        to_list a s' = Ok (xs ++ ys ++ zs) s' ∧
        to_list b s' = Ok [] s' ∧ to_list c s' = Ok [] s'.
Proof.
  intros [own Habs]%invariant_state_wf Hab Hac Hbc Hxs Hys Hzs.
  destruct (to_list_abs_inv _ _ _ _ _ Habs Hxs) as (nsA & HoA & ->).
  destruct (to_list_abs_inv _ _ _ _ _ Habs Hys) as (nsB & HoB & ->).
  destruct (to_list_abs_inv _ _ _ _ _ Habs Hzs) as (nsC & HoC & ->).
  set (own' := <[a := nsA ++ nsB ++ nsC]> (<[b := []]> (<[c := []]> own))).
  (* left to right *)
  destruct (mergeWith_frames NDEBUG own s a b nsA nsB Hab Habs HoA HoB)
    as (s1 & Hrun1 & Habs1 & Hcout1 & Hfr1).
  destruct (mergeWith_frames NDEBUG _ s1 a c (nsA ++ nsB) nsC Hac Habs1)
    as (s2 & Hrun2 & Habs2 & Hcout2 & Hfr2); [by simpl_ins..|].
  assert (<[c := []]> (<[a := (nsA ++ nsB) ++ nsC]>
            (<[b := []]> (<[a := nsA ++ nsB]> own))) = own') as Hown2.
  { unfold own'. rewrite <- app_assoc. apply map_eq. intros r.
    destruct (decide (r = a)) as [->|?]; [by simpl_ins|].
    destruct (decide (r = b)) as [->|?]; [by simpl_ins|].
    destruct (decide (r = c)) as [->|?]; by simpl_ins. }
  rewrite Hown2 in Habs2, Hfr2.
  (* right to left *)
  destruct (mergeWith_frames NDEBUG own s b c nsB nsC Hbc Habs HoB HoC)
    as (t1 & Hrun3 & Habt1 & Hcout3 & Hfr3).
  destruct (mergeWith_frames NDEBUG _ t1 a b nsA (nsB ++ nsC) Hab Habt1)
    as (t2 & Hrun4 & Habt2 & Hcout4 & Hfr4); [by simpl_ins..|].
  assert (<[b := []]> (<[a := nsA ++ nsB ++ nsC]>
            (<[c := []]> (<[b := nsB ++ nsC]> own))) = own') as Hown4.
  { unfold own'. apply map_eq. intros r.
    destruct (decide (r = a)) as [->|?]; [by simpl_ins|].
    destruct (decide (r = b)) as [->|?]; [by simpl_ins|].
    destruct (decide (r = c)) as [->|?]; by simpl_ins. }
  rewrite Hown4 in Habt2, Hfr4.
  assert (frames own own' s s2) as Hf2.
  { eapply frames_trans; [intros l; apply owned_dec|exact Hfr1|exact Hfr2]. }
  assert (frames own own' s t2) as Hf4.
  { eapply frames_trans; [intros l; apply owned_dec|exact Hfr3|exact Hfr4]. }
  assert (t2 = s2) as -> by (apply (frames_join own own' s); [done..|congruence]).
  exists s2. split_and!.
  - by rewrite (bind_eq _ _ _ _ _ Hrun1).
  - by rewrite (bind_eq _ _ _ _ _ Hrun3).
  - apply state_wf_invariant. by eexists.
  - rewrite (to_list_abs _ _ a (nsA ++ nsB ++ nsC) Habs2) by (unfold own'; by simpl_ins).
    by rewrite !fmap_app.
  - apply (to_list_abs _ _ b [] Habs2). unfold own'. by simpl_ins.
  - apply (to_list_abs _ _ c [] Habs2). unfold own'. by simpl_ins.
Qed.

End Algebra.

Section Idle.
Variable NDEBUG : bool.
Local Abbreviation cells := (list (loc * Robot.t)).

Lemma paused_turns_abs k own (z : state Robot.t) ring (ns : cells) :
  abs own z → own !! ring = Some ns → ns ≠ [] →
  Forall (λ r, Robot.paused r = true) ns.*2 →
  ∃ z', runOneTurn_n NDEBUG k ring z = Ok (replicate k 1%Z) z' ∧
        abs (<[ring := rotn k ns]> own) z' ∧ heap z' = heap z.
Proof.
  revert own z ns. induction k as [|k IH]; intros own z ns Habs Ho Hne Hp.
  - exists z. rewrite insert_id by done. by split_and!.
  - destruct ns as [|c rest]; [done|]. pose proof Hp as Hp'.
    rewrite fmap_cons in Hp'. apply Forall_cons in Hp' as [Hc _].
    destruct (runOneTurn_skip_abs NDEBUG own z ring c rest Habs Ho Hc)
      as (z1 & Hrun1 & Habs1 & Hheap1 & _).
    destruct (IH _ z1 (rest ++ [c]) Habs1) as (z' & Hrun & Habs' & Hheap).
    + by simpl_ins.
    + by destruct rest.
    + change (rest ++ [c]) with (rot1 (c :: rest)). rewrite rot1_fmap. by apply rot1_Forall.
    + rewrite insert_insert_eq in Habs'.
      exists z'. split_and!.
      * cbn [runOneTurn_n replicate].
        by rewrite (bind_eq _ _ _ _ _ Hrun1), (bind_eq _ _ _ _ _ Hrun).
      * done.
      * congruence.
Qed.

(** X23. A ring in which every robot is paused makes no progress:
    however many turns are run, each one counts 1, no battery changes
    and no robot leaves; the ring is only rotated, one place per turn,
    and the store stays as it is. *)
Theorem paused_ring_idles (z : state Robot.t) ring xs k :
  invariant z → to_list ring z = Ok xs z → xs ≠ [] →
  Forall (λ r, Robot.paused r = true) xs →
  ∃ z', runOneTurn_n NDEBUG k ring z = Ok (replicate k 1%Z) z' ∧ invariant z' ∧
        to_list ring z' = Ok (rotn k xs) z' ∧
        size ring z' = Ok (length xs) z' ∧
        heap z' = heap z.
Proof.
  intros [own Habs]%invariant_state_wf Hxs Hne Hp.
  destruct (to_list_abs_inv _ _ _ _ _ Habs Hxs) as (ns & Ho & ->).
  destruct (paused_turns_abs k own z ring ns Habs Ho) as (z' & Hrun & Habs' & Hheap);
    [by destruct ns|done|].
  assert (<[ring := rotn k ns]> own !! ring = Some (rotn k ns)) as Ho' by (by simpl_ins).
  exists z'. split_and!; try done.
  - apply state_wf_invariant. by eexists.
  - rewrite (to_list_abs _ _ ring _ Habs' Ho'). by rewrite rotn_fmap.
  - rewrite (size_abs _ _ ring _ Habs' Ho'). by rewrite rotn_length, length_fmap.
Qed.

End Idle.

Section Relink.
Context {T : Type}.
Variable NDEBUG : bool.
Local Abbreviation cells := (list (loc * T)).

Lemma abs_data own (s : state T) r ns (c : loc * T) :
  abs own s → own !! r = Some ns → c ∈ ns → data <$> heap s !! c.1 = Some c.2.
Proof.
  intros Habs Ho Hc. destruct (abs_rep _ _ _ _ Habs Ho) as (R & _ & (_ & _ & _ & _ & Hch)).
  apply list_elem_of_lookup_1 in Hc as [i Hi].
  by rewrite (chain_lookup _ _ _ _ _ Hch Hi).
Qed.

(** When the cells only change hands, every address keeps its element. *)
Lemma frames_data own own' (s s' : state T) :
  abs own s → abs own' s' → frames own own' s s' →
  (∀ c r ns, own !! r = Some ns → c ∈ ns → ∃ r' ns', own' !! r' = Some ns' ∧ c ∈ ns') →
  (∀ l, owned own' l → owned own l) →
  ∀ l, data <$> heap s' !! l = data <$> heap s !! l.
Proof.
  intros Habs Habs' (F & _) Hkeep Hback l.
  destruct (owned_dec own l) as [(r & ns & Ho & Hl)|Hn].
  - apply list_elem_of_fmap in Hl as (c & -> & Hc).
    destruct (Hkeep c r ns Ho Hc) as (r' & ns' & Ho' & Hc').
    by rewrite (abs_data own s r ns c), (abs_data own' s' r' ns' c).
  - rewrite F; [done..|]. intros Ho. by apply Hn, Hback.
Qed.

(** X24. [mergeWith], and [splitIntoTwo] into empty outputs, only
    relink: the same addresses are live before and after, each with
    the element it had; nothing is allocated, released, copied or
    moved. *)
Theorem splice_keeps_elements (s : state T) :
  invariant s →
  (∀ this other, this ≠ other →
     is_Some (objs s !! this) → is_Some (objs s !! other) →
     ∃ s', mergeWith NDEBUG this other s = Ok () s' ∧
           ∀ l, data <$> heap s' !! l = data <$> heap s !! l) ∧
  (∀ this first second fuel n, this ≠ first → this ≠ second → first ≠ second →
     to_list first s = Ok [] s → to_list second s = Ok [] s →
     size this s = Ok n s → (n - 1) / 2 ≤ fuel →
     ∃ s', splitIntoTwo fuel this first second s = Ok () s' ∧
           ∀ l, data <$> heap s' !! l = data <$> heap s !! l).
Proof.
  intros [own Habs]%invariant_state_wf. split.
  - intros this other Hne Hthis Hother.
    destruct (abs_is_Some _ _ _ Habs Hthis) as [nsA HoA].
    destruct (abs_is_Some _ _ _ Habs Hother) as [nsB HoB].
    destruct (mergeWith_frames NDEBUG own s this other nsA nsB Hne Habs HoA HoB)
      as (s' & Hrun & Habs' & _ & Hfr).
    exists s'. split; [done|].
    apply (frames_data own _ s s' Habs Habs' Hfr).
    + intros c r ns Ho Hc.
      destruct (decide (r = this)) as [->|H1]; [|destruct (decide (r = other)) as [->|H2]].
      * exists this, (nsA ++ nsB). simpl_ins. split; [done|].
        rewrite Ho in HoA. injection HoA as ->. apply elem_of_app. by left.
      * exists this, (nsA ++ nsB). simpl_ins. split; [done|].
        rewrite Ho in HoB. injection HoB as ->. apply elem_of_app. by right.
      * exists r, ns. by simpl_ins.
    + intros l (r & ns & Ho & Hl).
      destruct (decide (r = other)) as [->|H2]; [|destruct (decide (r = this)) as [->|H1]].
      * simpl_ins in Ho. injection Ho as <-. by apply not_elem_of_nil in Hl.
      * simpl_ins in Ho. injection Ho as <-. rewrite fmap_app in Hl.
        apply elem_of_app in Hl as [Hl|Hl]; [by exists this, nsA|by exists other, nsB].
      * simpl_ins in Ho. by exists r, ns.
  - intros this first second fuel n Hn1 Hn2 Hn3 HF HS Hsz Hfuel.
    destruct (size_abs_inv _ _ _ _ _ Habs Hsz) as (ns & Ho & ->).
    destruct (to_list_abs_inv _ _ _ _ _ Habs HF) as (nsF & HoF & HnF).
    destruct (to_list_abs_inv _ _ _ _ _ Habs HS) as (nsS & HoS & HnS).
    symmetry in HnF, HnS. apply fmap_nil_inv in HnF, HnS. subst nsF nsS.
    destruct (splitIntoTwo_frames own s fuel this first second ns [] []
                Hn1 Hn2 Hn3 Habs Ho HoF HoS Hfuel) as (s' & Hrun & Habs' & _ & Hfr).
    exists s'. split; [done|].
    set (k := (length ns + 1) / 2) in *.
    apply (frames_data own _ s s' Habs Habs' Hfr).
    + intros c r ns0 Ho0 Hc.
      destruct (decide (r = this)) as [->|H1]; [|destruct (decide (r = second)) as [->|H2];
        [|destruct (decide (r = first)) as [->|H3]]].
      * rewrite Ho in Ho0. injection Ho0 as <-.
        rewrite <- (take_drop k ns) in Hc. apply elem_of_app in Hc as [Hc|Hc].
        -- exists first, (take k ns). by simpl_ins.
        -- exists second, (drop k ns). by simpl_ins.
      * rewrite HoS in Ho0. injection Ho0 as <-. by apply not_elem_of_nil in Hc.
      * rewrite HoF in Ho0. injection Ho0 as <-. by apply not_elem_of_nil in Hc.
      * exists r, ns0. by simpl_ins.
    + intros l (r & ns0 & Ho0 & Hl).
      destruct (decide (r = this)) as [->|H1]; [|destruct (decide (r = second)) as [->|H2];
        [|destruct (decide (r = first)) as [->|H3]]].
      * simpl_ins in Ho0. injection Ho0 as <-. by apply not_elem_of_nil in Hl.
      * simpl_ins in Ho0. injection Ho0 as <-. exists this, ns. split; [done|].
        rewrite <- (take_drop k ns), fmap_app. apply elem_of_app. by right.
      * simpl_ins in Ho0. injection Ho0 as <-. exists this, ns. split; [done|].
        rewrite <- (take_drop k ns), fmap_app. apply elem_of_app. by left.
      * simpl_ins in Ho0. by exists r, ns0.
Qed.

End Relink.

Section References.
Context {T : Type}.
Variable NDEBUG : bool.
Variable alloc : gmap loc (Node T) → option loc.
Local Abbreviation cells := (list (loc * T)).

(** X25. References to elements stay valid: [append] leaves every
    node that was live at its address with its element, [pop_front]
    does so for every node but the head it releases, and [rotate]
    changes no node at all. *)
Theorem references_stay_valid (s : state T) this :
  invariant s → is_Some (objs s !! this) →
  (∀ v, alloc_fresh alloc → alloc_total alloc →
     ∃ s', append NDEBUG alloc this v s = Ok () s' ∧
           ∀ l, is_Some (heap s !! l) → data <$> heap s' !! l = data <$> heap s !! l) ∧
  (∃ b s', pop_front NDEBUG this s = Ok b s' ∧
           (∀ l, get_head this s ≠ Ok (Some l) s →
                 data <$> heap s' !! l = data <$> heap s !! l) ∧
           (∀ l, b = true → get_head this s = Ok (Some l) s → heap s' !! l = None)) ∧
  (∃ s', rotate NDEBUG this s = Ok () s' ∧ heap s' = heap s).
Proof.
  intros [own Habs]%invariant_state_wf Hthis.
  destruct (abs_is_Some _ _ _ Habs Hthis) as [ns Ho]. split_and!.
  - intros v Hfresh Htotal. destruct (Htotal (heap s)) as [l0 Hal].
    destruct (append_frames NDEBUG alloc own s this ns l0 v Habs Ho Hal (Hfresh _ _ Hal))
      as (s' & Hrun & Habs' & _ & (F & _ & N)).
    exists s'. split; [done|]. intros l Hlive.
    destruct (owned_dec own l) as [(r & ns0 & Ho0 & Hl)|Hn].
    + apply list_elem_of_fmap in Hl as (c & -> & Hc).
      rewrite (abs_data own s r ns0 c Habs Ho0 Hc).
      destruct (decide (r = this)) as [->|Hne].
      * rewrite Ho in Ho0. injection Ho0 as <-.
        apply (abs_data _ s' this (ns ++ [(l0, v)]) c Habs'); [by simpl_ins|].
        apply elem_of_app. by left.
      * apply (abs_data _ s' r ns0 c Habs'); [by simpl_ins|done].
    + rewrite F; [done|done|]. intros Ho'. rewrite (N l Ho' Hn) in Hlive. by destruct Hlive.
  - destruct ns as [|c0 rest].
    + exists false, s. split; [exact (pop_front_abs_nil NDEBUG own s this Habs Ho)|].
      split; [done|]. intros l [=].
    + destruct (pop_front_frames NDEBUG own s this c0 rest Habs Ho)
        as (s' & Hrun & Habs' & _ & (F & G & _)).
      pose proof (get_head_abs _ _ _ _ _ Habs Ho) as Hhead.
      assert (¬ owned (<[this := rest]> own) c0.1) as Hgone.
      { intros (r & ns0 & Ho0 & Hl). destruct (decide (r = this)) as [->|Hne].
        - simpl_ins in Ho0. injection Ho0 as <-.
          destruct (abs_rep _ _ _ _ Habs Ho) as (R & _ & (Hnd & _)).
          rewrite fmap_cons in Hnd. by apply NoDup_cons in Hnd as [Hnin _].
        - simpl_ins in Ho0.
          apply (abs_disjoint _ _ _ _ _ _ _ Habs Hne Ho0 Ho Hl). apply list_elem_of_here. }
      exists true, s'. split; [done|]. split.
      * intros l Hl.
        assert (l ≠ c0.1) as Hne by (intros ->; by apply Hl).
        destruct (owned_dec own l) as [(r & ns0 & Ho0 & Hin)|Hn].
        -- apply list_elem_of_fmap in Hin as (c & -> & Hc).
           rewrite (abs_data own s r ns0 c Habs Ho0 Hc).
           destruct (decide (r = this)) as [->|Hr].
           ++ rewrite Ho in Ho0. injection Ho0 as <-.
              apply elem_of_cons in Hc as [->|Hc]; [done|].
              apply (abs_data _ s' this rest c Habs'); [by simpl_ins|done].
           ++ apply (abs_data _ s' r ns0 c Habs'); [by simpl_ins|done].
        -- rewrite F; [done|done|]. intros Ho'. apply Hn.
           destruct Ho' as (r & ns0 & Ho0 & Hin). destruct (decide (r = this)) as [->|Hr].
           ++ simpl_ins in Ho0. injection Ho0 as <-. exists this, (c0 :: rest).
              split; [done|]. rewrite fmap_cons. by apply list_elem_of_further.
           ++ simpl_ins in Ho0. by exists r, ns0.
      * intros l _ Hl. rewrite Hhead in Hl. injection Hl as <-.
        apply G; [|done]. exists this, (c0 :: rest). split; [done|].
        rewrite fmap_cons. apply list_elem_of_here.
  - destruct (rotate_frames NDEBUG own s this ns Habs Ho) as (s' & Hrun & _ & _ & Hheap & _).
    by exists s'.
Qed.

End References.

(** * The further properties at the concrete states *)

Lemma fresh_objects_no_garbage {T} (names : list rid) : no_garbage (@fresh_objects T names).
Proof. intros l [n Hl]. simpl in Hl. by rewrite lookup_empty in Hl. Qed.

Lemma append_all_no_garbage {T} NDEBUG (s : state T) this vs :
  state_wf s → no_garbage s → is_Some (objs s !! this) →
  no_garbage (run_state (append_all NDEBUG bump this vs) s).
Proof.
  intros [own Habs] Hng Hthis. destruct (abs_is_Some _ _ _ Habs Hthis) as [ns Ho].
  destruct (append_all_frames NDEBUG bump own s this ns vs bump_fresh bump_total Habs Ho)
    as (s' & ns' & Hrun & Habs' & _ & _ & Hfr).
  unfold run_state. rewrite Hrun. exact (frames_no_garbage own _ s s' Habs Habs' Hfr Hng).
Qed.

Lemma demo_no_garbage : no_garbage demo.
Proof.
  assert (state_wf (run_state (append_all true bump 0 [1; 2; 3; 4; 5]%Z)
                      (fresh_objects [0; 1; 2]))) as W0.
  { apply append_all_wf; [apply fresh_objects_wf|]. vm_compute. by eexists. }
  assert (no_garbage (run_state (append_all true bump 0 [1; 2; 3; 4; 5]%Z)
                        (fresh_objects [0; 1; 2]))) as G0.
  { apply append_all_no_garbage; [apply fresh_objects_wf|apply fresh_objects_no_garbage|].
    vm_compute. by eexists. }
  assert (state_wf (run_state (append_all true bump 1 [7]%Z)
            (run_state (append_all true bump 0 [1; 2; 3; 4; 5]%Z)
               (fresh_objects [0; 1; 2])))) as W1.
  { apply append_all_wf; [exact W0|]. vm_compute. by eexists. }
  assert (no_garbage (run_state (append_all true bump 1 [7]%Z)
            (run_state (append_all true bump 0 [1; 2; 3; 4; 5]%Z)
               (fresh_objects [0; 1; 2])))) as G1.
  { apply append_all_no_garbage; [exact W0|exact G0|]. vm_compute. by eexists. }
  assert (no_garbage (run_state (append_all true bump 2 [8; 9]%Z)
            (run_state (append_all true bump 1 [7]%Z)
               (run_state (append_all true bump 0 [1; 2; 3; 4; 5]%Z)
                  (fresh_objects [0; 1; 2]))))) as G2.
  { apply append_all_no_garbage; [exact W1|exact G1|]. vm_compute. by eexists. }
  replace demo with (run_state (append_all true bump 2 [8; 9]%Z)
            (run_state (append_all true bump 1 [7]%Z)
               (run_state (append_all true bump 0 [1; 2; 3; 4; 5]%Z)
                  (fresh_objects [0; 1; 2])))); [exact G2|].
  vm_compute. reflexivity.
Qed.

Lemma relay_wf : state_wf relay.
Proof.
  assert (state_wf (run_state (append_all true bump 0
               [Robot.mk 1 "ann" 1 1 false; Robot.mk 2 "bob" 3 1 true;
                Robot.mk 3 "cy" 2 1 false]) (fresh_objects [0; 1; 2]))) as H0.
  { apply append_all_wf; [apply fresh_objects_wf|]. vm_compute. by eexists. }
  assert (state_wf (run_state (append_all true bump 1
               [Robot.mk 4 "dot" 4 1 true; Robot.mk 5 "eve" 2 1 false])
            (run_state (append_all true bump 0
               [Robot.mk 1 "ann" 1 1 false; Robot.mk 2 "bob" 3 1 true;
                Robot.mk 3 "cy" 2 1 false]) (fresh_objects [0; 1; 2])))) as H1.
  { apply append_all_wf; [done|]. vm_compute. by eexists. }
  assert (state_wf (run_state (append_all true bump 2
               [Robot.mk 6 "fay" 2 1 false; Robot.mk 7 "gus" 1 1 false])
            (run_state (append_all true bump 1
               [Robot.mk 4 "dot" 4 1 true; Robot.mk 5 "eve" 2 1 false])
            (run_state (append_all true bump 0
               [Robot.mk 1 "ann" 1 1 false; Robot.mk 2 "bob" 3 1 true;
                Robot.mk 3 "cy" 2 1 false]) (fresh_objects [0; 1; 2]))))) as H2.
  { apply append_all_wf; [done|]. vm_compute. by eexists. }
  replace relay with (run_state (append_all true bump 2
               [Robot.mk 6 "fay" 2 1 false; Robot.mk 7 "gus" 1 1 false])
            (run_state (append_all true bump 1
               [Robot.mk 4 "dot" 4 1 true; Robot.mk 5 "eve" 2 1 false])
            (run_state (append_all true bump 0
               [Robot.mk 1 "ann" 1 1 false; Robot.mk 2 "bob" 3 1 true;
                Robot.mk 3 "cy" 2 1 false]) (fresh_objects [0; 1; 2])))); [done|].
  vm_compute. reflexivity.
Qed.

Lemma relay_inv : invariant relay.
Proof. apply state_wf_invariant, relay_wf. Qed.

Lemma size_counts_elements_demo :
  invariant demo ∧ to_list 0 demo = Ok [1; 2; 3; 4; 5]%Z demo ∧
  size 0 demo = Ok 5 demo ∧ empty 0 demo = Ok false demo.
Proof.
  assert (to_list 0 demo = Ok [1; 2; 3; 4; 5]%Z demo) as Hxs by (vm_compute; reflexivity).
  split; [exact demo_inv|]. split; [exact Hxs|].
  destruct (size_counts_elements demo 0 [1; 2; 3; 4; 5]%Z demo_inv Hxs) as (Hsz & He & _).
  exact (conj Hsz He).
Defined.


Lemma clear_releases_demo :
  invariant demo ∧
  ∃ s', clear 0 demo = Ok () s' ∧ invariant s' ∧
        to_list 0 s' = Ok [] s' ∧ size 0 s' = Ok 0 s' ∧ clear 0 s' = Ok () s'.
Proof.
  split; [exact demo_inv|].
  destruct (clear_releases demo 0 demo_inv ltac:(vm_compute; eexists; reflexivity))
    as (s' & Hrun & Hinv & Hl & Hsz & _ & _ & _ & _ & _ & Hagain).
  exists s'. exact (conj Hrun (conj Hinv (conj Hl (conj Hsz Hagain)))).
Defined.

Lemma mutators_leave_other_rings_demo :
  invariant demo ∧ to_list 1 demo = Ok [7]%Z demo ∧
  (∃ b s', pop_front false 0 demo = Ok b s' ∧ to_list 1 s' = Ok [7]%Z s') ∧
  (∃ s', mergeWith false 0 2 demo = Ok () s' ∧ to_list 1 s' = Ok [7]%Z s') ∧
  (∃ s', splitIntoTwo 2 0 2 2 demo = Ok () s' ∧ to_list 1 s' = Ok [7]%Z s').
Proof.
  assert (to_list 1 demo = Ok [7]%Z demo) as Hzs by (vm_compute; reflexivity).
  assert (is_Some (objs demo !! 0)) as H0 by (vm_compute; eexists; reflexivity).
  assert (is_Some (objs demo !! 2)) as H2 by (vm_compute; eexists; reflexivity).
  assert (size 0 demo = Ok 5 demo) as Hsz by (vm_compute; reflexivity).
  split; [exact demo_inv|]. split; [exact Hzs|].
  destruct (mutators_leave_other_rings false bump demo 1 [7]%Z demo_inv Hzs)
    as (_ & Hpop & _ & _ & Hsplit & Hmerge).
  split.
  { destruct (Hpop 0 ltac:(lia) H0) as (b & s' & Hrun & Hl & _).
    exists b, s'. exact (conj Hrun Hl). }
  split.
  { destruct (Hmerge 0 2 ltac:(lia) ltac:(lia) H0 H2) as (s' & Hrun & Hl & _).
    exists s'. exact (conj Hrun Hl). }
  destruct (Hsplit 0 2 2 2 5 ltac:(lia) ltac:(lia) ltac:(lia) H2 H2 Hsz ltac:(vm_compute; lia))
    as (s' & Hrun & Hl & _).
  exists s'. exact (conj Hrun Hl).
Defined.

Lemma mutators_never_leak_demo :
  invariant demo ∧ no_garbage demo ∧
  (∃ b s', pop_front false 0 demo = Ok b s' ∧ no_garbage s') ∧
  (∃ s', splitIntoTwo 2 0 1 2 demo = Ok () s' ∧ no_garbage s') ∧
  (∃ s', mergeWith false 1 2 demo = Ok () s' ∧ no_garbage s').
Proof.
  assert (is_Some (objs demo !! 0)) as H0 by (vm_compute; eexists; reflexivity).
  assert (is_Some (objs demo !! 1)) as H1 by (vm_compute; eexists; reflexivity).
  assert (is_Some (objs demo !! 2)) as H2 by (vm_compute; eexists; reflexivity).
  assert (size 0 demo = Ok 5 demo) as Hsz by (vm_compute; reflexivity).
  split; [exact demo_inv|]. split; [exact demo_no_garbage|].
  destruct (mutators_never_leak false bump demo demo_inv demo_no_garbage)
    as (_ & Hpop & _ & _ & Hsplit & Hmerge).
  split.
  { destruct (Hpop 0 H0) as (b & s' & Hrun & Hng). exists b, s'. exact (conj Hrun Hng). }
  split.
  { destruct (Hsplit 0 1 2 2 5 ltac:(lia) ltac:(lia) ltac:(lia) H1 H2 Hsz
                ltac:(vm_compute; lia)) as (s' & Hrun & Hng).
    exists s'. exact (conj Hrun Hng). }
  destruct (Hmerge 1 2 ltac:(lia) H1 H2) as (s' & Hrun & Hng).
  exists s'. exact (conj Hrun Hng).
Defined.

Lemma mergeWith_self_loses_ring_demo :
  invariant demo ∧
  ∃ s', mergeWith false 2 2 demo = Ok () s' ∧ to_list 2 s' = Ok [] s' ∧
        size 2 s' = Ok 0 s' ∧ heap s' = heap demo.
Proof.
  split; [exact demo_inv|].
  destruct (mergeWith_self_loses_ring false demo 2 demo_inv
              ltac:(vm_compute; eexists; reflexivity))
    as (s' & Hrun & _ & Hl & Hsz & Hheap & _).
  exists s'. exact (conj Hrun (conj Hl (conj Hsz Hheap))).
Defined.

Lemma splitIntoTwo_into_receiver_demo :
  invariant demo ∧
  ∃ s', splitIntoTwo 0 0 0 1 demo = Ok () s' ∧
        to_list 0 s' = Ok [] s' ∧ to_list 1 s' = Ok [] s'.
Proof.
  split; [exact demo_inv|].
  destruct (splitIntoTwo_into_receiver demo 0 0 0 1 demo_inv (or_introl eq_refl)
              ltac:(vm_compute; eexists; reflexivity) ltac:(vm_compute; eexists; reflexivity))
    as (s' & Hrun & _ & Hl0 & Hl1 & _).
  exists s'. exact (conj Hrun (conj Hl0 Hl1)).
Defined.

Lemma splitIntoTwo_same_output_demo :
  invariant demo ∧ to_list 0 demo = Ok [1; 2; 3; 4; 5]%Z demo ∧
  ∃ s', splitIntoTwo 2 0 1 1 demo = Ok () s' ∧
        to_list 0 s' = Ok [] s' ∧ to_list 1 s' = Ok [4; 5]%Z s'.
Proof.
  assert (to_list 0 demo = Ok [1; 2; 3; 4; 5]%Z demo) as Hxs by (vm_compute; reflexivity).
  split; [exact demo_inv|]. split; [exact Hxs|].
  destruct (splitIntoTwo_same_output demo 2 0 1 [1; 2; 3; 4; 5]%Z demo_inv ltac:(lia)
              ltac:(vm_compute; eexists; reflexivity) Hxs ltac:(vm_compute; lia))
    as (s' & Hrun & _ & Hl0 & Hl1 & _).
  exists s'. exact (conj Hrun (conj Hl0 Hl1)).
Defined.

Lemma debug_build_agrees_demo :
  invariant demo ∧
  pop_front false 0 demo = pop_front true 0 demo ∧
  rotate false 0 demo = rotate true 0 demo ∧
  mergeWith false 1 2 demo = mergeWith true 1 2 demo ∧
  append false bump 0 6%Z demo = append true bump 0 6%Z demo.
Proof.
  assert (is_Some (objs demo !! 0)) as H0 by (vm_compute; eexists; reflexivity).
  assert (is_Some (objs demo !! 1)) as H1 by (vm_compute; eexists; reflexivity).
  assert (is_Some (objs demo !! 2)) as H2 by (vm_compute; eexists; reflexivity).
  split; [exact demo_inv|].
  destruct (debug_build_agrees bump demo demo_inv) as (Happ & Hpop & Hrot & Hmerge).
  exact (conj (Hpop 0 H0) (conj (Hrot 0 H0) (conj (Hmerge 1 2 H1 H2) (Happ 0 6%Z H0 bump_fresh)))).
Defined.

Lemma fifo_round_trip_demo :
  invariant demo ∧ to_list 1 demo = Ok [7]%Z demo ∧
  ∃ s', (append_all false bump 1 [5; 6]%Z ;; take_front_n false 3 1) demo
          = Ok [7; 5; 6]%Z s' ∧
        to_list 1 s' = Ok [] s'.
Proof.
  assert (to_list 1 demo = Ok [7]%Z demo) as Hxs by (vm_compute; reflexivity).
  split; [exact demo_inv|]. split; [exact Hxs|].
  destruct (fifo_round_trip false bump demo 1 [7]%Z [5; 6]%Z demo_inv bump_fresh bump_total Hxs)
    as (s' & Hrun & Hl & _).
  exists s'. exact (conj Hrun Hl).
Defined.

Lemma rotate_round_robin_demo :
  invariant demo ∧ to_list 0 demo = Ok [1; 2; 3; 4; 5]%Z demo ∧
  ∃ s', times 7 (rotate false 0) demo = Ok () s' ∧
        front 0 s' = Ok 3%Z s' ∧ to_list 0 s' = Ok [3; 4; 5; 1; 2]%Z s'.
Proof.
  assert (to_list 0 demo = Ok [1; 2; 3; 4; 5]%Z demo) as Hxs by (vm_compute; reflexivity).
  split; [exact demo_inv|]. split; [exact Hxs|].
  destruct (rotate_round_robin false demo 0 [1; 2; 3; 4; 5]%Z 7 demo_inv Hxs ltac:(done))
    as (s' & x & Hrun & Hx & Hfront & Hl & _).
  injection Hx as <-.
  exists s'. exact (conj Hrun (conj Hfront Hl)).
Defined.

Lemma overdrawn_inv : invariant overdrawn.
Proof.
  apply state_wf_invariant, append_all_wf; [apply fresh_objects_wf|].
  vm_compute. by eexists.
Qed.

Lemma togglePauseById_first_match_relay :
  invariant relay ∧
  ∃ z', togglePauseById false 2 0 3 relay = Ok () z' ∧
        to_list 0 z' = Ok [Robot.mk 3 "cy" 2 1 true; Robot.mk 1 "ann" 1 1 false;
                           Robot.mk 2 "bob" 3 1 true] z' ∧
        cout z' = cout relay +:+ "Paused: " +:+ "Robot(cy, Battery=2)" +:+ nl.
Proof.
  split; [exact relay_inv|].
  destruct (togglePauseById_first_match false relay 2 0 3%Z
              [Robot.mk 1 "ann" 1 1 false; Robot.mk 2 "bob" 3 1 true]
              (Robot.mk 3 "cy" 2 1 false) [] relay_inv
              ltac:(vm_compute; reflexivity)
              ltac:(repeat constructor; simpl; lia) ltac:(reflexivity) ltac:(simpl; lia))
    as (z' & Hrun & _ & Hl & _ & Hcout).
  exists z'. exact (conj Hrun (conj Hl Hcout)).
Defined.

Lemma togglePauseById_twice_relay :
  invariant relay ∧
  ∃ z', (togglePauseById false 2 0 3 ;; togglePauseById false 2 0 3) relay = Ok () z' ∧
        to_list 0 z' = Ok [Robot.mk 3 "cy" 2 1 false; Robot.mk 1 "ann" 1 1 false;
                           Robot.mk 2 "bob" 3 1 true] z'.
Proof.
  split; [exact relay_inv|].
  destruct (togglePauseById_twice false relay 2 0 3%Z
              [Robot.mk 1 "ann" 1 1 false; Robot.mk 2 "bob" 3 1 true]
              (Robot.mk 3 "cy" 2 1 false) [] relay_inv
              ltac:(vm_compute; reflexivity)
              ltac:(repeat constructor; simpl; lia) ltac:(reflexivity) ltac:(simpl; lia))
    as (z' & Hrun & _ & Hl & _).
  exists z'. exact (conj Hrun Hl).
Defined.

Lemma runOneTurn_skips_paused_relay :
  invariant relay ∧
  ∃ z', runOneTurn false 1 relay = Ok 1%Z z' ∧
        to_list 1 z' = Ok [Robot.mk 5 "eve" 2 1 false; Robot.mk 4 "dot" 4 1 true] z' ∧
        cout z' = cout relay +:+ "Skipped (paused): " +:+ "Robot(dot, Battery=4)" +:+ nl.
Proof.
  split; [exact relay_inv|].
  destruct (runOneTurn_skips_paused false relay 1 (Robot.mk 4 "dot" 4 1 true)
              [Robot.mk 5 "eve" 2 1 false] relay_inv
              ltac:(vm_compute; reflexivity) ltac:(reflexivity))
    as (z' & Hrun & _ & Hl & _ & Hcout).
  exists z'. exact (conj Hrun (conj Hl Hcout)).
Defined.

Lemma runOneTurn_ticks_relay :
  invariant relay ∧
  (∃ z', runOneTurn false 0 relay = Ok 4%Z z' ∧
         to_list 0 z' = Ok [Robot.mk 2 "bob" 3 1 true; Robot.mk 3 "cy" 2 1 false] z' ∧
         size 0 z' = Ok 2 z') ∧
  (∃ z', runOneTurn false 2 relay = Ok 1%Z z' ∧
         to_list 2 z' = Ok [Robot.mk 7 "gus" 1 1 false; Robot.mk 6 "fay" 1 1 false] z').
Proof.
  split; [exact relay_inv|]. split.
  - pose proof (runOneTurn_ticks false relay 0 (Robot.mk 1 "ann" 1 1 false)
                  [Robot.mk 2 "bob" 3 1 true; Robot.mk 3 "cy" 2 1 false] relay_inv
                  ltac:(vm_compute; reflexivity) ltac:(reflexivity)
                  ltac:(vm_compute; split; discriminate)) as H.
    cbv zeta in H. destruct H as [_ Hrem].
    destruct (Hrem ltac:(simpl; lia)) as (z' & Hrun & _ & Hl & Hsz & _).
    exists z'. exact (conj Hrun (conj Hl Hsz)).
  - pose proof (runOneTurn_ticks false relay 2 (Robot.mk 6 "fay" 2 1 false)
                  [Robot.mk 7 "gus" 1 1 false] relay_inv
                  ltac:(vm_compute; reflexivity) ltac:(reflexivity)
                  ltac:(vm_compute; split; discriminate)) as H.
    cbv zeta in H. destruct H as [Hgo _].
    destruct (Hgo ltac:(simpl; lia)) as (z' & Hrun & _ & Hl & _).
    exists z'. exact (conj Hrun Hl).
Defined.

Lemma runOneTurn_edges_overdrawn :
  invariant overdrawn ∧
  runOneTurn false 1 overdrawn =
    Ok 0%Z (mkState (heap overdrawn) (objs overdrawn) (cout overdrawn +:+ "No robots." +:+ nl)) ∧
  runOneTurn false 0 overdrawn = Fault UB.
Proof.
  split; [exact overdrawn_inv|].
  split.
  - destruct (runOneTurn_edges false overdrawn 1 overdrawn_inv) as [Hnil _].
    exact (Hnil ltac:(vm_compute; reflexivity)).
  - destruct (runOneTurn_edges false overdrawn 0 overdrawn_inv) as [_ Hover].
    apply (Hover (Robot.mk 1 "ann" INT_MIN 1 false) []).
    + vm_compute. reflexivity.
    + reflexivity.
    + vm_compute. intros [H _]. apply H. reflexivity.
Defined.

Lemma turns_run_safely_relay :
  invariant relay ∧
  ∃ gs z' ys,
    runOneTurn_n false 3 0 relay = Ok gs z' ∧ to_list 0 z' = Ok ys z' ∧
    length gs = 3 ∧ length ys + length (filter (λ g, g = 4%Z) gs) = 3 ∧
    filter (λ r, Robot.paused r) ys ≡ₚ [Robot.mk 2 "bob" 3 1 true].
Proof.
  split; [exact relay_inv|].
  destruct (turns_run_safely false relay 0
              [Robot.mk 1 "ann" 1 1 false; Robot.mk 2 "bob" 3 1 true;
               Robot.mk 3 "cy" 2 1 false] 3 relay_inv
              ltac:(vm_compute; reflexivity)
              ltac:(repeat constructor; vm_compute; discriminate))
    as (gs & z' & ys & Hrun & _ & Hl & _ & Hk & _ & Hlen & Hperm & _).
  exists gs, z', ys. exact (conj Hrun (conj Hl (conj Hk (conj Hlen Hperm)))).
Defined.


Lemma main_merge_concat_relay :
  invariant relay ∧
  ∃ z', main_merge false 0 1 2 relay = Ok () z' ∧
        to_list 0 z' =
          Ok [Robot.mk 1 "ann" 1 1 false; Robot.mk 2 "bob" 3 1 true;
              Robot.mk 3 "cy" 2 1 false; Robot.mk 4 "dot" 4 1 true;
              Robot.mk 5 "eve" 2 1 false; Robot.mk 6 "fay" 2 1 false;
              Robot.mk 7 "gus" 1 1 false] z' ∧
        to_list 1 z' = Ok [] z' ∧ to_list 2 z' = Ok [] z'.
Proof.
  split; [exact relay_inv|].
  destruct (main_merge_concat false relay 0 1 2
              [Robot.mk 1 "ann" 1 1 false; Robot.mk 2 "bob" 3 1 true;
               Robot.mk 3 "cy" 2 1 false]
              [Robot.mk 4 "dot" 4 1 true; Robot.mk 5 "eve" 2 1 false]
              [Robot.mk 6 "fay" 2 1 false; Robot.mk 7 "gus" 1 1 false] relay_inv
              ltac:(lia) ltac:(lia) ltac:(lia)
              ltac:(vm_compute; reflexivity) ltac:(vm_compute; reflexivity)
              ltac:(vm_compute; reflexivity))
    as (z' & Hrun & _ & Hl & Ha & Hb & _).
  exists z'. exact (conj Hrun (conj Hl (conj Ha Hb))).
Defined.

Lemma main_split_then_merge_relay :
  invariant relay ∧
  ∃ z', (main_split 1 0 1 2 ;; main_merge false 0 1 2) relay = Ok () z' ∧
        to_list 0 z' =
          Ok [Robot.mk 1 "ann" 1 1 false; Robot.mk 2 "bob" 3 1 true;
              Robot.mk 3 "cy" 2 1 false] z' ∧
        to_list 1 z' = Ok [] z' ∧ to_list 2 z' = Ok [] z' ∧
        cout z' = cout relay
          +:+ "Ring A:" +:+ nl
          +:+ "[Robot(ann, Battery=1) -> Robot(bob, Battery=3)] (circular)" +:+ nl
          +:+ "Ring B:" +:+ nl +:+ "[Robot(cy, Battery=2)] (circular)" +:+ nl
          +:+ "Merged. Current ring:" +:+ nl
          +:+ "[Robot(ann, Battery=1) -> Robot(bob, Battery=3) -> Robot(cy, Battery=2)] (circular)"
          +:+ nl.
Proof.
  split; [exact relay_inv|].
  destruct (main_split_then_merge false relay 1 0 1 2
              [Robot.mk 1 "ann" 1 1 false; Robot.mk 2 "bob" 3 1 true;
               Robot.mk 3 "cy" 2 1 false] relay_inv
              ltac:(lia) ltac:(lia) ltac:(lia)
              ltac:(vm_compute; eexists; reflexivity) ltac:(vm_compute; eexists; reflexivity)
              ltac:(vm_compute; reflexivity) ltac:(vm_compute; lia))
    as (z' & Hrun & _ & Hl & Ha & Hb & Hcout & _).
  exists z'. exact (conj Hrun (conj Hl (conj Ha (conj Hb Hcout)))).
Defined.

Lemma destroy_all_frees_store_demo :
  invariant demo ∧ no_garbage demo ∧
  ∃ s', destroy_all [2; 1; 0] demo = Ok () s' ∧ heap s' = ∅ ∧ objs s' = ∅.
Proof.
  split; [exact demo_inv|]. split; [exact demo_no_garbage|].
  destruct (destroy_all_frees_store demo [2; 1; 0] demo_inv demo_no_garbage)
    as (s' & Hrun & Hh & Ho & _).
  - repeat constructor; rewrite ?elem_of_cons, ?elem_of_nil; lia.
  - intros r. destruct r as [|[|[|r]]].
    + split; [intros _; rewrite !elem_of_cons; tauto|intros _; vm_compute; eexists; reflexivity].
    + split; [intros _; rewrite !elem_of_cons; tauto|intros _; vm_compute; eexists; reflexivity].
    + split; [intros _; rewrite !elem_of_cons; tauto|intros _; vm_compute; eexists; reflexivity].
    + split.
      * intros [R HR]. exfalso. revert HR.
        assert (objs demo = <[0 := mkList (Some 1%positive) (Some 5%positive) 5]>
                  (<[1 := mkList (Some 6%positive) (Some 6%positive) 1]>
                     (<[2 := mkList (Some 7%positive) (Some 8%positive) 2]> ∅))) as ->
          by (vm_compute; reflexivity).
        by rewrite !lookup_insert_ne, lookup_empty by lia.
      * rewrite !elem_of_cons, elem_of_nil. lia.
  - exists s'. exact (conj Hrun (conj Hh Ho)).
Defined.

Lemma parked_inv : invariant parked.
Proof.
  apply state_wf_invariant, append_all_wf; [apply fresh_objects_wf|].
  vm_compute. by eexists.
Qed.

Lemma mergeWith_assoc_demo :
  invariant demo ∧
  ∃ s', (mergeWith false 0 1 ;; mergeWith false 0 2) demo = Ok () s' ∧
        (mergeWith false 1 2 ;; mergeWith false 0 1) demo = Ok () s' ∧
        to_list 0 s' = Ok [1; 2; 3; 4; 5; 7; 8; 9]%Z s'.
Proof.
  split; [exact demo_inv|].
  destruct (mergeWith_assoc false demo 0 1 2 [1; 2; 3; 4; 5]%Z [7]%Z [8; 9]%Z demo_inv
              ltac:(lia) ltac:(lia) ltac:(lia)
              ltac:(vm_compute; reflexivity) ltac:(vm_compute; reflexivity)
              ltac:(vm_compute; reflexivity))
    as (s' & Hrun1 & Hrun2 & _ & Hl & _).
  exists s'. exact (conj Hrun1 (conj Hrun2 Hl)).
Defined.

Lemma paused_ring_idles_parked :
  invariant parked ∧
  ∃ z', runOneTurn_n false 3 0 parked = Ok [1; 1; 1]%Z z' ∧
        to_list 0 z' = Ok [Robot.mk 2 "bob" 3 1 true; Robot.mk 1 "ann" 5 1 true] z' ∧
        heap z' = heap parked.
Proof.
  split; [exact parked_inv|].
  destruct (paused_ring_idles false parked 0
              [Robot.mk 1 "ann" 5 1 true; Robot.mk 2 "bob" 3 1 true] 3 parked_inv
              ltac:(vm_compute; reflexivity) ltac:(done)
              ltac:(repeat constructor))
    as (z' & Hrun & _ & Hl & _ & Hheap).
  exists z'. exact (conj Hrun (conj Hl Hheap)).
Defined.

Lemma ring_of_inv (vs : list Z) : invariant (ring_of vs).
Proof.
  apply state_wf_invariant, append_all_wf; [apply fresh_objects_wf|].
  vm_compute. by eexists.
Qed.

Lemma splice_keeps_elements_demo :
  invariant demo ∧ invariant (ring_of [1; 2; 3]%Z) ∧
  (∃ s', mergeWith false 1 2 demo = Ok () s' ∧
         ∀ l, data <$> heap s' !! l = data <$> heap demo !! l) ∧
  (∃ s', splitIntoTwo 1 0 1 2 (ring_of [1; 2; 3]%Z) = Ok () s' ∧
         ∀ l, data <$> heap s' !! l = data <$> heap (ring_of [1; 2; 3]%Z) !! l).
Proof.
  split; [exact demo_inv|]. split; [exact (ring_of_inv [1; 2; 3]%Z)|]. split.
  - destruct (splice_keeps_elements false demo demo_inv) as [Hmerge _].
    exact (Hmerge 1 2 ltac:(lia) ltac:(vm_compute; eexists; reflexivity)
             ltac:(vm_compute; eexists; reflexivity)).
  - destruct (splice_keeps_elements false (ring_of [1; 2; 3]%Z) (ring_of_inv [1; 2; 3]%Z))
      as [_ Hsplit].
    exact (Hsplit 0 1 2 1 3 ltac:(lia) ltac:(lia) ltac:(lia)
             ltac:(vm_compute; reflexivity) ltac:(vm_compute; reflexivity)
             ltac:(vm_compute; reflexivity) ltac:(vm_compute; lia)).
Defined.

Lemma references_stay_valid_demo :
  invariant demo ∧
  (∃ s', append false bump 0 6%Z demo = Ok () s' ∧
         ∀ l, is_Some (heap demo !! l) → data <$> heap s' !! l = data <$> heap demo !! l) ∧
  (∃ b s', pop_front false 0 demo = Ok b s' ∧
           ∀ l, get_head 0 demo ≠ Ok (Some l) demo →
                data <$> heap s' !! l = data <$> heap demo !! l) ∧
  (∃ s', rotate false 0 demo = Ok () s' ∧ heap s' = heap demo).
Proof.
  split; [exact demo_inv|].
  destruct (references_stay_valid false bump demo 0 demo_inv
              ltac:(vm_compute; eexists; reflexivity)) as (Happ & Hpop & Hrot).
  split; [exact (Happ 6%Z bump_fresh bump_total)|].
  split; [|exact Hrot].
  destruct Hpop as (b & s' & Hrun & Hkeep & _).
  exists b, s'. exact (conj Hrun Hkeep).
Defined.
